(** * Oopsy: node-graph construction and code emission

    A shallow embedding of the generator script (its functions [run],
    [analyze_json], [generate_daisy] and [generate_app]) and of the helpers
    in [oopsy.shared.js] ([interpolate], [template], [component_defs],
    [generate_target_struct]), with the properties of its specification.

    Conventions of the embedding:
    - JavaScript strings are [string]s of 8-bit characters; the descriptors
      are ASCII, where the code-unit order used by [Array.prototype.sort]
      is [String.le].
    - An object that is only read by key ([nodes], the label tables) is a
      [gmap]; an object whose key order is observed ([hardware.inputs],
      a component definition) is an association list in key order.
    - [undefined] is [None]; a statement that throws makes the enclosing
      function return an error value.
    - Numbers of the patch descriptor are rationals ([Q]); the tests of
      the generator ([>], [<], [Number.isInteger]) are exact on them, and
      the rounded logarithm is that of the platform ([stepsize_with]). *)

From Stdlib Require Import Ascii QArith Lqa.
From stdpp Require Import gmap strings list sorting pretty.

(** ** JavaScript values and errors *)

Module Js.

#[local] Set Warnings "-register-all".

(** The values of the descriptors: what [JSON.parse] returns, and
    [undefined].  Numbers of the target descriptor are integers. *)
Inductive jsval :=
  | JUndefined
  | JNull
  | JBool (b : bool)
  | JNum (z : Z)
  | JStr (s : string)
  | JArr (items : list jsval)
  | JObj (fields : list (string * jsval)).

(** An object whose key order matters: its entries in the order of
    [Object.keys], which is the order of insertion for keys that are no
    array indices. *)
Definition alist (V : Type) : Type := list (string * V).

Definition obj : Type := alist jsval.

Fixpoint alist_get {V} (o : alist V) (k : string) : option V :=
  match o with
  | [] => None
  | (k', v) :: o' => if bool_decide (k' = k) then Some v else alist_get o' k
  end.

(** [o[k] = v]: an existing key keeps its place, a new one goes last. *)
Fixpoint alist_set {V} (o : alist V) (k : string) (v : V) : alist V :=
  match o with
  | [] => [(k, v)]
  | (k', v') :: o' =>
      if bool_decide (k' = k) then (k, v) :: o' else (k', v') :: alist_set o' k v
  end.

Definition alist_keys {V} (o : alist V) : list string := o.*1.

(** [o[k]] *)
Definition obj_get (o : obj) (k : string) : jsval :=
  default JUndefined (alist_get o k).

(** The truth value of a condition. *)
Definition truthy (v : jsval) : bool :=
  match v with
  | JUndefined | JNull => false
  | JBool b => b
  | JNum z => negb (z =? 0)%Z
  | JStr s => negb (bool_decide (s = EmptyString))
  | JArr _ | JObj _ => true
  end.

(** [v == undefined] *)
Definition is_nullish (v : jsval) : bool :=
  match v with
  | JUndefined | JNull => true
  | _ => false
  end.


(** The string a value turns into inside a template literal, in a string
    concatenation or as a property key. *)
Fixpoint to_string (v : jsval) : string :=
  match v with
  | JUndefined => "undefined"
  | JNull => "null"
  | JBool true => "true"
  | JBool false => "false"
  | JNum z => pretty z
  | JStr s => s
  | JArr items =>
      let item (x : jsval) : string :=
        match x with
        | JUndefined | JNull => EmptyString
        | _ => to_string x
        end in
      (fix join (l : list jsval) : string :=
         match l with
         | [] => EmptyString
         | [x] => item x
         | x :: l' => item x +:+ "," +:+ join l'
         end) items
  | JObj _ => "[object Object]"
  end.

(** What a statement can throw. *)
Inductive error :=
  | ReferenceError (ident : string)
  | SyntaxError
  | TypeError
  | Thrown (message : string).

Inductive result (A : Type) :=
  | Ok (a : A)
  | Err (e : error).
#[global] Arguments Ok {A} a.
#[global] Arguments Err {A} e.

Definition bind {A B} (m : result A) (k : A -> result B) : result B :=
  match m with
  | Ok a => k a
  | Err e => Err e
  end.

Definition is_ok {A} (m : result A) : bool :=
  match m with Ok _ => true | Err _ => false end.

(** A loop whose body may throw. *)
Fixpoint fold_result {A S} (f : S -> A -> result S) (s : S) (l : list A)
    : result S :=
  match l with
  | [] => Ok s
  | x :: l' => bind (f s x) (fun s' => fold_result f s' l')
  end.

Fixpoint map_result {A B} (f : A -> result B) (l : list A) : result (list B) :=
  match l with
  | [] => Ok []
  | x :: l' =>
      bind (f x) (fun y => bind (map_result f l') (fun ys => Ok (y :: ys)))
  end.

(** The properties that every object inherits from [Object.prototype]: a
    read [o[k]] of one of these names on an object that has no field [k]
    finds a function (the prototype itself for [__proto__]), not
    [undefined]. *)
Definition object_prototype_keys : list string :=
  ["constructor"; "hasOwnProperty"; "isPrototypeOf"; "propertyIsEnumerable";
   "toLocaleString"; "toString"; "valueOf"; "__proto__";
   "__defineGetter__"; "__defineSetter__"; "__lookupGetter__";
   "__lookupSetter__"].

Definition inherited (k : string) : bool :=
  bool_decide (k ∈ object_prototype_keys).

End Js.

Declare Scope result_scope.
Delimit Scope result_scope with result.
Notation "'let*' x := m 'in' k" :=
  (Js.bind m (fun x => k))
  (at level 10, x pattern, m at level 100, k at level 200) : result_scope.

(** ** Label resolution *)

Module Labels.

(** The character class [.] of a JavaScript regular expression: anything
    but a line terminator. *)
Definition is_line_terminator (c : ascii) : bool :=
  bool_decide (c = "010"%char) || bool_decide (c = "013"%char).

(** [strip_prefix k s] is the rest of [s] after the literal text [k]. *)
Fixpoint strip_prefix (k s : string) : option string :=
  match k, s with
  | EmptyString, _ => Some s
  | String _ _, EmptyString => None
  | String a k', String b s' =>
      if bool_decide (a = b) then strip_prefix k' s' else None
  end.

(** The greedy group [(.+)]: the longest run without line terminator. *)
Fixpoint take_dots (s : string) : string :=
  match s with
  | EmptyString => EmptyString
  | String c s' =>
      if is_line_terminator c then EmptyString else String c (take_dots s')
  end.

(** The characters that a pattern does not read as themselves: the
    syntax characters of regular expressions. *)
Definition syntax_characters : list ascii :=
  ["^"; "$"; "\"; "."; "*"; "+"; "?"; "("; ")"; "["; "]"; "{"; "}"; "|"]%char.

(** A key that the [RegExp] constructor reads as literal text: it holds no
    syntax character. *)
Fixpoint plain_key (k : string) : bool :=
  match k with
  | EmptyString => true
  | String c k' => negb (bool_decide (c ∈ syntax_characters)) && plain_key k'
  end.

(** A label table all of whose keys are read as literal text. *)
Definition plain_keys (table : gmap string string) : Prop :=
  map_Forall (fun k _ => plain_key k = true) table.

(** [new RegExp(`^${k}_?(.+)?`).exec(label)] for a key [k] without syntax
    characters ([plain_key]), such as the names of hardware mappings, which
    the [RegExp] constructor reads as literal text.  (Of a key that holds
    syntax characters the pattern is another one, or none at all, and the
    constructor throws: the properties below are stated for tables whose
    keys are plain.)  [None] is the [null] of a failed match; [Some cap] is
    a match whose group 1 is [cap], which is [None] when the optional group
    took no part in the match. *)
Definition label_exec (k label : string) : option (option string) :=
  match strip_prefix k label with
  | None => None
  | Some rest =>
      let rest' :=
        match rest with
        | String "_"%char r => r
        | _ => rest
        end in
      Some (match take_dots rest' with
            | EmptyString => None
            | cap => Some cap
            end)
  end.

Definition matches (label k : string) : Prop := is_Some (label_exec k label).

#[global] Instance matches_dec label k : Decision (matches label k).
Proof. unfold matches. apply _. Defined.

(** [match[1] || label] *)
Definition maplabel_of (label : string) (cap : option string) : string :=
  default label cap.

(** [Object.keys(table).sort()]: the enumeration order of the keys is lost
    in the sort. *)
Definition sorted_keys (table : gmap string string) : list string :=
  merge_sort String.le (map_to_list table).*1.

(** The two variables [map] and [maplabel] of the search loop. *)
Record found := Found { f_map : option string; f_maplabel : option string }.

Definition nothing_found : found := Found None None.

(** The body of the [forEach]: a matching key overwrites what an earlier
    one left. *)
Definition resolve_step (table : gmap string string) (label : string)
    (acc : found) (k : string) : found :=
  match label_exec k label with
  | Some cap => Found (table !! k) (Some (maplabel_of label cap))
  | None => acc
  end.

Definition resolve_label (table : gmap string string) (label : string) : found :=
  foldl (resolve_step table label) nothing_found (sorted_keys table).

(** The key the loop settled on: the last one of the sorted keys that
    matches. *)
Definition last_match (table : gmap string string) (label : string)
    : option string :=
  last (filter (matches label) (sorted_keys table)).

End Labels.

(** ** Parameter policy *)

Module Policy.

Import Labels.

Inductive ptype := TFloat | TInt | TBool.

#[global] Instance ptype_eq_dec : EqDecision ptype.
Proof. solve_decision. Defined.

(** The [paramdesc] that [analyze_json] builds for a visible parameter.  A
    field that the description file lacks is [undefined]. *)
Record paramdesc := ParamDesc {
  p_name : string;
  p_cindex : N;
  p_default : option Q;
  p_min : option Q;
  p_max : option Q
}.

(** [x || d] on a number that may be [undefined]: zero is falsy too. *)
Definition or_default (x : option Q) (d : Q) : Q :=
  match x with
  | Some q => if Qeq_bool q 0 then d else q
  | None => d
  end.

Definition Qltb (a b : Q) : bool := negb (Qle_bool b a).

(** [Number.isInteger] *)
Definition is_integer (q : Q) : bool :=
  (Qnum q mod Z.pos (Qden q) =? 0)%Z.

(** The integer part of the base-two logarithm of [a/b], for positive [a]
    and [b]. *)
Definition floor_log2 (a b : Z) : Z :=
  let d := (Z.log2 a - Z.log2 b)%Z in
  if (0 <=? d)%Z
  then (if (a <? b * 2 ^ d)%Z then d - 1 else d)%Z
  else (if (a * 2 ^ (- d) <? b)%Z then d - 1 else d)%Z.

(** The logarithm of a positive [x] to the base two, rounded as
    [Math.round] rounds, computed exactly: [round y] is the floor of
    [y + 1/2], and the floor of [log2 x + 1/2] is half the floor of
    [log2 (2 x^2)].  The platform's [Math.round(Math.log2(x))] works on
    doubles and agrees with it away from the half-way points ([accurate]);
    next to them it can differ by one.  (For [x <= 0] the generator never
    calls it.) *)
Definition round_log2 (x : Q) : Z :=
  let y := (2 * x * x)%Q in
  (floor_log2 (Qnum y) (Z.pos (Qden y)) / 2)%Z.



(** [Math.pow(2, power)] *)
Definition pow2 (p : Z) : Q :=
  if (0 <=? p)%Z then inject_Z (2 ^ p) else / inject_Z (2 ^ (- p)).

Definition ideal_steps : Q := 100%Q.

(** The step size of a parameter node, lines 826 to 845 of [generate_app];
    the inner [option] is the field [node.stepsize] before the general
    case.  [lg] stands for [Math.round(Math.log2(x))] as the platform
    computes it on the double nearest to [x]: the logarithm of a double is
    an approximation that the platform chooses. *)
Definition stepsize_with (lg : Q -> Z) (type : ptype) (max default range : Q)
    : Q :=
  let stepsize : option Q :=
    match type with
    | TBool | TInt => Some 1%Q
    | TFloat =>
        if Qltb 2 range && is_integer max && is_integer max
           && is_integer default
        then
          if Qltb range 10 then Some (1 / 12)%Q
          else
            let power := lg (range / ideal_steps)%Q in
            Some (pow2 power)
        else None
    end in
  match stepsize with
  | Some s => if Qeq_bool s 0 then (range / ideal_steps)%Q else s
  | None => (range / ideal_steps)%Q
  end.

(** The step size on a platform whose logarithm is exact.  (The quotient
    [range / 100] is exact as well: the underflow of a range below the
    smallest doubles is left out.) *)
Definition stepsize_of : ptype -> Q -> Q -> Q -> Q := stepsize_with round_log2.




Fixpoint has_line_terminator (s : string) : bool :=
  match s with
  | EmptyString => false
  | String c s' => is_line_terminator c || has_line_terminator s'
  end.

(** The type qualifier that [label.match] looks for: the whole label is
    [int] or [bool], alone or followed by an underscore and a rest without
    line terminator.  The result is the type, and the rest (group 3) when
    the underscore is there. *)
Definition qualifier_rest (t : ptype) (rest : string)
    : option (ptype * option string) :=
  match rest with
  | EmptyString => Some (t, None)
  | String "_"%char r =>
      if has_line_terminator r then None else Some (t, Some r)
  | _ => None
  end.

Definition type_qualifier (label : string) : option (ptype * option string) :=
  match strip_prefix "int" label with
  | Some rest => qualifier_rest TInt rest
  | None =>
      match strip_prefix "bool" label with
      | Some rest => qualifier_rest TBool rest
      | None => None
      end
  end.

(** [x || d] on a string that may be [undefined]: the empty string is
    falsy. *)
Definition str_or (x : option string) (d : string) : string :=
  match x with
  | Some EmptyString | None => d
  | Some s => s
  end.

(** The variables [src], [label] and [type] of the parameter search. *)
Record psearch := PSearch {
  ps_src : option string;
  ps_label : string;
  ps_type : ptype
}.

Definition param_step (table : gmap string string) (pname : string)
    (acc : psearch) (k : string) : psearch :=
  match label_exec k pname with
  | None => acc
  | Some cap =>
      let label := maplabel_of pname cap in
      match type_qualifier label with
      | Some (t, rest) => PSearch (table !! k) (str_or rest label) t
      | None => PSearch (table !! k) label (ps_type acc)
      end
  end.

Definition resolve_param (table : gmap string string) (pname : string) : psearch :=
  foldl (param_step table pname) (PSearch None pname TFloat) (sorted_keys table).

(** The node of a parameter. *)
Record param_node := ParamNode {
  pn_varname : string;
  pn_name : string;
  pn_cindex : N;
  pn_default : Q;
  pn_min : Q;
  pn_max : Q;
  pn_range : Q;
  pn_type : ptype;
  pn_label : string;
  pn_stepsize : Q
}.

Definition varname_of (p : paramdesc) : string :=
  "rnbo_param_" +:+ p_name p +:+ "_" +:+ pretty (p_cindex p).

(** Lines 791 to 845: the node and the [src] found for it. *)
Definition make_param (table : gmap string string) (p : paramdesc)
    : param_node * option string :=
  let max := or_default (p_max p) 1 in
  let min := or_default (p_min p) 0 in
  let default := or_default (p_default p) 0 in
  let range := (max - min)%Q in
  let found := resolve_param table (p_name p) in
  (ParamNode (varname_of p) (p_name p) (p_cindex p) default min max range
     (ps_type found) (ps_label found)
     (stepsize_of (ps_type found) max default range),
   ps_src found).

End Policy.

(** ** Templates and the target descriptor *)

Module Target.

Import Js.
#[local] Open Scope result_scope.

(** *** The two template notations *)

(** A template cut into its literal characters and its placeholders. *)
Inductive piece :=
  | Text (c : ascii)
  | Hole (key : string).

Inductive scan_state :=
  | Plain
  | Dollar
  | InHole (key : string).

Definition text_of (s : string) : list piece :=
  Text <$> String.list_ascii_of_string s.

(** The matches of the pattern [\$<([^>]+)>] in [str], from left to right
    and without overlap.  A [$<] that no [>] closes, or that [>] follows at
    once, matches nothing and stays in the text. *)
Fixpoint scan_interpolate (st : scan_state) (str : string) : list piece :=
  match str with
  | EmptyString =>
      match st with
      | Plain => []
      | Dollar => [Text "$"]
      | InHole key => text_of ("$<" +:+ key)
      end
  | String c str' =>
      match st with
      | Plain =>
          if bool_decide (c = "$"%char) then scan_interpolate Dollar str'
          else Text c :: scan_interpolate Plain str'
      | Dollar =>
          if bool_decide (c = "<"%char) then
            scan_interpolate (InHole EmptyString) str'
          else if bool_decide (c = "$"%char) then
            Text "$" :: scan_interpolate Dollar str'
          else Text "$" :: Text c :: scan_interpolate Plain str'
      | InHole key =>
          if bool_decide (c = ">"%char) then
            match key with
            | EmptyString => text_of "$<>" ++ scan_interpolate Plain str'
            | _ => Hole key :: scan_interpolate Plain str'
            end
          else scan_interpolate (InHole (key +:+ String c EmptyString)) str'
      end
  end.

(** What takes the place of a piece: [data[key]] as [replace] prints it.
    A field of [data] prints as its value; a name that [data] has no field
    for prints as [undefined], unless every object inherits a property of
    that name, which then prints as the platform prints it: [native key]
    stands for that text. *)
Definition render (native : string -> string) (data : obj) (p : piece)
    : string :=
  match p with
  | Text c => String c EmptyString
  | Hole key =>
      match alist_get data key with
      | Some v => to_string v
      | None => if inherited key then native key else "undefined"
      end
  end.

Definition join_strings (l : list string) : string :=
  foldr String.append EmptyString l.

(** [interpolate(str, data)]: every [$<key>] is replaced by [data[key]],
    as the replacement callback returns it and [replace] turns it into a
    string. *)
Definition interpolate (native : string -> string) (str : string) (data : obj)
    : string :=
  join_strings (render native data <$> scan_interpolate Plain str).

(** The substitutions [${...}] of a template literal.  A substitution that
    the text does not close, or an empty one, is a syntax error.  (The
    fragments of the registry hold neither backquotes nor backslashes, which
    the literal would not take as text, and their substitutions are plain
    names.) *)
Fixpoint scan_template (st : scan_state) (tpl : string) : option (list piece) :=
  match tpl with
  | EmptyString =>
      match st with
      | Plain => Some []
      | Dollar => Some [Text "$"]
      | InHole _ => None
      end
  | String c tpl' =>
      match st with
      | Plain =>
          if bool_decide (c = "$"%char) then scan_template Dollar tpl'
          else cons (Text c) <$> scan_template Plain tpl'
      | Dollar =>
          if bool_decide (c = "{"%char) then
            scan_template (InHole EmptyString) tpl'
          else if bool_decide (c = "$"%char) then
            cons (Text "$") <$> scan_template Dollar tpl'
          else app [Text "$"; Text c] <$> scan_template Plain tpl'
      | InHole key =>
          if bool_decide (c = "}"%char) then
            match key with
            | EmptyString => None
            | _ => cons (Hole key) <$> scan_template Plain tpl'
            end
          else scan_template (InHole (key +:+ String c EmptyString)) tpl'
      end
  end.

(** The body of the arrow function [f], for the fragments of the registry,
    whose substitutions are plain names: the keys of [vars] are the
    parameters of [f], so a substitution that names a key yields the value
    of the key; a name that is no key is looked up outside [f], and is
    taken here to be bound nowhere.  (A substitution that is an expression
    is evaluated, and a key that is a reserved word is a syntax error: both
    are outside this definition.) *)
Definition eval_piece (vars : obj) (p : piece) : result string :=
  match p with
  | Text c => Ok (String c EmptyString)
  | Hole key =>
      match alist_get vars key with
      | Some v => Ok (to_string v)
      | None => Err (ReferenceError key)
      end
  end.

(** [template(template, vars)], for the fragments that the definitions
    above read as the platform does: text without backquote and backslash,
    substitutions that are plain names, and keys of [vars] that can name
    parameters. *)
Definition template (tpl : string) (vars : obj) : result string :=
  match scan_template Plain tpl with
  | None => Err SyntaxError
  | Some pieces =>
      let* parts := map_result (eval_piece vars) pieces in
      Ok (join_strings parts)
  end.

(** Whether the character [c] occurs in [s]. *)
Fixpoint occurs (c : ascii) (s : string) : bool :=
  match s with
  | EmptyString => false
  | String c' s' => bool_decide (c' = c) || occurs c s'
  end.



(** *** The component registry *)

Definition range_of (lo hi : Z) : jsval := JArr [JNum lo; JNum hi].

Definition getter (name get : string) (range : jsval) : jsval :=
  JObj [("name", JStr name); ("get", JStr get); ("range", range)].

Definition setter (name set : string) : jsval :=
  JObj [("name", JStr name); ("set", JStr set)].

Definition setter_in (name set where_ : string) : jsval :=
  JObj [("name", JStr name); ("set", JStr set); ("where", JStr where_)].

(** [component_defs] of [oopsy.shared.js] *)
Definition component_defs : alist obj := [
  ("Switch", [
     ("typename", JStr "daisy::Switch");
     ("pin", JStr "a");
     ("type", JStr "daisy::Switch::TYPE_MOMENTARY");
     ("polarity", JStr "daisy::Switch::POLARITY_INVERTED");
     ("pull", JStr "daisy::Switch::PULL_UP");
     ("process", JStr "${name}.Debounce();");
     ("updaterate", JStr "${name}.SetUpdateRate(seed.AudioCallbackRate());");
     ("mapping", JArr [
        getter "${name}" "(hardware.${name}.Pressed()?1.f:0.f)" (range_of 0 1);
        getter "${name}_rise" "(hardware.${name}.RisingEdge()?1.f:0.f)" (range_of 0 1);
        getter "${name}_fall" "(hardware.${name}.FallingEdge()?1.f:0.f)" (range_of 0 1);
        getter "${name}_seconds" "(hardware.${name}.TimeHeldMs()*0.001f)" JNull ])
  ]);
  ("Switch3", [
     ("typename", JStr "daisy::Switch3");
     ("pin", JStr "a,b");
     ("mapping", JArr [
        getter "${name}" "(hardware.${name}.Read()*0.5f+0.5f)" (range_of 0 2) ])
  ]);
  ("Encoder", [
     ("typename", JStr "daisy::Encoder");
     ("pin", JStr "a,b,click");
     ("process", JStr "${name}.Debounce();");
     ("updaterate", JStr "${name}.SetUpdateRate(seed.AudioCallbackRate());");
     ("mapping", JArr [
        getter "${name}" "(hardware.${name}.Increment()*0.5f+0.5f)" (range_of (-1) 1);
        getter "${name}_press" "(hardware.${name}.Pressed()?1.f:0.f)" (range_of 0 1);
        getter "${name}_rise" "(hardware.${name}.RisingEdge()?1.f:0.f)" (range_of 0 1);
        getter "${name}_fall" "(hardware.${name}.FallingEdge()?1.f:0.f)" (range_of 0 1);
        getter "${name}_seconds" "(hardware.${name}.TimeHeldMs()*0.001f)" JNull ])
  ]);
  ("GateIn", [
     ("typename", JStr "daisy::GateIn");
     ("pin", JStr "a");
     ("mapping", JArr [
        getter "${name}" "(hardware.${name}.State()?1.f:0.f)" (range_of 0 1);
        getter "${name}_trig" "(hardware.${name}.Trig()?1.f:0.f)" (range_of 0 1) ])
  ]);
  ("AnalogControl", [
     ("typename", JStr "daisy::AnalogControl");
     ("pin", JStr "a");
     ("flip", JBool false);
     ("invert", JBool false);
     ("slew", JStr "1.0/seed.AudioCallbackRate()");
     ("process", JStr "${name}.Process();");
     ("updaterate", JStr "${name}.SetSampleRate(seed.AudioCallbackRate());");
     ("mapping", JArr [
        getter "${name}" "(hardware.${name}.Value())" (range_of 0 1) ])
  ]);
  ("Led", [
     ("typename", JStr "daisy::Led");
     ("pin", JStr "a");
     ("invert", JBool true);
     ("postprocess", JStr "${name}.Update();");
     ("mapping", JArr [
        setter "${name}" "hardware.${name}.Set($<name>);" ])
  ]);
  ("RgbLed", [
     ("typename", JStr "daisy::RgbLed");
     ("pin", JStr "r,g,b");
     ("invert", JBool true);
     ("postprocess", JStr "${name}.Update();");
     ("mapping", JArr [
        setter "${name}_red" "hardware.${name}.SetRed($<name>);";
        setter "${name}_green" "hardware.${name}.SetGreen($<name>);";
        setter "${name}_blue" "hardware.${name}.SetBlue($<name>);";
        setter "${name}" "hardware.${name}.Set(clamp(-$<name>, 0.f, 1.f), 0.f, clamp($<name>, 0.f, 1.f));";
        setter "${name}_white" "hardware.${name}.Set($<name>,$<name>,$<name>);" ])
  ]);
  ("GateOut", [
     ("typename", JStr "daisy::dsy_gpio");
     ("pin", JStr "a");
     ("mode", JStr "DSY_GPIO_MODE_OUTPUT_PP");
     ("pull", JStr "DSY_GPIO_NOPULL");
     ("mapping", JArr [
        setter "${name}" "dsy_gpio_write(&hardware.${name}, $<name> } 0.f);" ])
  ]);
  ("CVOuts", [
     ("typename", JStr "daisy::DacHandle::Config");
     ("pin", JStr EmptyString);
     ("bitdepth", JStr "daisy::DacHandle::BitDepth::BITS_12");
     ("buff_state", JStr "daisy::DacHandle::BufferState::ENABLED");
     ("mode", JStr "daisy::DacHandle::Mode::POLLING");
     ("channel", JStr "daisy::DacHandle::Channel::BOTH");
     ("mapping", JArr [
        setter_in "${name}1"
          "hardware.seed.dac.WriteValue(daisy::DacHandle::Channel::ONE, $<name> * 4095);"
          "main";
        setter_in "${name}2"
          "hardware.seed.dac.WriteValue(daisy::DacHandle::Channel::TWO, $<name> * 4095);"
          "main" ])
  ])
].

(** *** [generate_target_struct]: fleshing out the components *)

(** [def.component], as the key of the registry lookup and as the text of
    the error message. *)
Definition kind_of (def : obj) : string := to_string (obj_get def "component").

(** The order that the comparison function of the sort induces on
    definitions whose kinds are strings ([string_kinds]): [<] and [>]
    compare two strings by their text.  (Kinds that are numbers compare as
    numbers, and a missing kind compares [false] both ways.) *)
Definition kind_le (a b : string * obj) : Prop :=
  String.le (kind_of a.2) (kind_of b.2).

#[global] Instance kind_le_dec : RelDecision kind_le.
Proof. intros a b. unfold kind_le. apply _. Defined.

(** Every component names its kind by a string. *)
Definition string_kinds (components : alist obj) : Prop :=
  Forall (fun c => exists s, obj_get c.2 "component" = JStr s) components.

(** [Array.prototype.sort] is stable: an entry goes before the first entry
    of a greater kind among those that followed it. *)
Fixpoint insert_sorted (e : string * obj) (l : list (string * obj))
    : list (string * obj) :=
  match l with
  | [] => [e]
  | e' :: l' =>
      if decide (kind_le e e') then e :: l else e' :: insert_sorted e l'
  end.

Definition sort_by_kind (l : list (string * obj)) : list (string * obj) :=
  foldr insert_sorted [] l.

(** [def[k] == undefined]: the definition has the field with the value
    [undefined] or [null], or it has no such field and inherits none. *)
Definition lacks (def : obj) (k : string) : bool :=
  match alist_get def k with
  | Some v => is_nullish v
  | None => negb (inherited k)
  end.

(** The loop that copies the defaults of the kind into the definition. *)
Definition apply_defaults (component def : obj) : obj :=
  foldl (fun d kv => if lacks d kv.1 then alist_set d kv.1 kv.2 else d)
        def component.

Definition unknown_kind (kind : string) : error :=
  Thrown ("undefined component kind: " +:+ kind).

(** The two names that the body of [generate_target_struct] reads and the
    module does not declare: [component_defs] (line 268) and [template]
    (lines 306 to 384).  The module declares [path], [os], [execSync] and
    [fs] (lines 1 to 4); [component_defs] and [template] are properties of
    the object that it exports, which the functions of that object do not
    see.  A read of such a name goes on to the global object: [ambient]
    says what it finds there, the table that [component_defs] is bound to,
    if it is bound, and whether [template] is bound to the function of that
    name. *)
Record ambient := Ambient {
  defs_bound : option (alist obj);
  template_bound : bool
}.

(** The module as the generator script loads it: nothing binds the two
    names. *)
Definition unbound : ambient := Ambient None false.

(** The callback of [map], lines 265 to 279.  The read of [component_defs]
    throws when the name is not bound.  The lookup [component_defs[kind]]
    finds the kinds of the table, and for a kind named like a property that
    every object inherits that property, which is truthy and has no keys of
    its own to copy. *)
Definition flesh_out (g : ambient) (pair : string * obj) : result obj :=
  let '(name, def) := pair in
  let def := alist_set def "name" (JStr name) in
  match defs_bound g with
  | None => Err (ReferenceError "component_defs")
  | Some registry =>
      match alist_get registry (kind_of def) with
      | Some component => Ok (apply_defaults component def)
      | None =>
          if inherited (kind_of def) then Ok def
          else Err (unknown_kind (kind_of def))
      end
  end.

(** The definition that a kind of the registry is fleshed out to. *)
Definition fleshed (registry : alist obj) (pair : string * obj) : obj :=
  apply_defaults (default [] (alist_get registry (kind_of pair.2)))
    (alist_set pair.2 "name" (JStr pair.1)).

(** [target.components] after lines 257 to 280. *)
Definition flesh_out_components (g : ambient) (components : alist obj)
    : result (list obj) :=
  map_result (flesh_out g) (sort_by_kind components).

(** A call of [template] in the text of the struct. *)
Definition call_template (g : ambient) (tpl : string) (vars : obj)
    : result string :=
  if template_bound g then template tpl vars
  else Err (ReferenceError "template").

(** The fragments of one field that the text of the struct holds: the
    components that have the field, each with its fragment evaluated by
    [template]. *)
Definition fragments_of (g : ambient) (field : string) (cs : list obj)
    : result (list string) :=
  map_result (fun e => call_template g (to_string (obj_get e field)) e)
    (filter (fun e => truthy (obj_get e field)) cs).

(** The same for [meta], which is a list of fragments. *)
Definition meta_fragments (g : ambient) (cs : list obj) : result (list string) :=
  map_result
    (fun e =>
       match obj_get e "meta" with
       | JArr ms =>
           let* parts := map_result (fun m => call_template g (to_string m) e) ms in
           Ok (join_strings parts)
       | _ => Err TypeError
       end)
    (filter (fun e => truthy (obj_get e "meta")) cs).

(** The calls of [template] in the text that [generate_target_struct]
    returns, in the order in which the text evaluates them; the first one
    that throws ends the run.  (The rest of the text is left out: it reads
    fields and cannot throw.) *)
Definition struct_fragments (g : ambient) (cs : list obj)
    : result (list (list string)) :=
  let* init := fragments_of g "init" cs in
  let* process := fragments_of g "process" cs in
  let* meta := meta_fragments g cs in
  let* postprocess := fragments_of g "postprocess" cs in
  let* display := fragments_of g "display" cs in
  let* updaterate := fragments_of g "updaterate" cs in
  Ok [init; process; meta; postprocess; display; updaterate].

(** [generate_target_struct(target)]: the components fleshed out, and the
    fragments of the struct. *)
Definition generate_target_struct (g : ambient) (components : alist obj)
    : result (list obj * list (list string)) :=
  let* cs := flesh_out_components g components in
  let* fragments := struct_fragments g cs in
  Ok (cs, fragments).

(** *** [run]: the input and output tables *)

Record input_entry := InputEntry {
  ie_code : string;
  ie_automap : jsval;
  ie_range : jsval;
  ie_where : jsval
}.

Record output_entry := OutputEntry {
  oe_code : string;
  oe_automap : jsval;
  oe_range : jsval;
  oe_where : jsval
}.

(** The part of [hardware] that the graph is built from:
    [inputs], [outputs] and [datahandlers] with their key order, the
    three label tables, and from [defines] the count
    [OOPSY_IO_COUNT] and the truth of the two MIDI flags. *)
Record hardware := Hardware {
  inputs : alist input_entry;
  outputs : alist output_entry;
  datahandlers : list string;
  labels_params : gmap string string;
  labels_outs : gmap string string;
  labels_datas : gmap string string;
  io_count : nat;
  has_midi_input : bool;
  has_midi_output : bool
}.















(** [table[k]] is truthy: a label that is there and is no empty string, or
    a property that the table inherits. *)
Definition has_label (table : gmap string string) (k : string) : bool :=
  match table !! k with
  | Some s => negb (bool_decide (s = EmptyString))
  | None => inherited k
  end.

(** The body of the loop over the aliases, lines 266 to 271. *)
Definition add_alias (hw : hardware) (a : string * string) : hardware :=
  let '(alias, map) := a in
  let add (table : gmap string string) : gmap string string :=
    if has_label table map then <[alias := map]> table else table in
  Hardware (inputs hw) (outputs hw) (datahandlers hw)
    (add (labels_params hw)) (add (labels_outs hw)) (add (labels_datas hw))
    (io_count hw) (has_midi_input hw) (has_midi_output hw).

Definition add_aliases (aliases : alist string) (hw : hardware) : hardware :=
  foldl add_alias hw aliases.

End Target.

(** ** The node graph *)

Module Graph.

Import Js Labels Policy Target.
#[local] Open Scope result_scope.

(** A node: the fields that the construction of the graph reads or writes.
    (The fields that only the emitted text reads, such as [code], [config],
    [range] and [where], are left out.) *)
Record node := Node {
  n_name : option string;
  n_to : option (list string);
  n_from : option (list string);
  n_src : option string;
  n_label : option string;
  n_automap : bool;
  n_param : option param_node
}.

Definition with_to (v : list string) (n : node) : node :=
  Node (n_name n) (Some v) (n_from n) (n_src n) (n_label n) (n_automap n) (n_param n).

Definition with_from (v : list string) (n : node) : node :=
  Node (n_name n) (n_to n) (Some v) (n_src n) (n_label n) (n_automap n) (n_param n).

Definition with_src (v : string) (n : node) : node :=
  Node (n_name n) (n_to n) (n_from n) (Some v) (n_label n) (n_automap n) (n_param n).

Definition with_label (v : string) (n : node) : node :=
  Node (n_name n) (n_to n) (n_from n) (n_src n) (Some v) (n_automap n) (n_param n).

(** [nodes]: the objects are reached through their names only, so that a
    write to [nodes[k]] is seen by every later read of [nodes[k]]. *)
Abbreviation store := (gmap string node).

(** A [src] that counts as set: neither [undefined], [null] nor empty. *)
Definition has_src (n : node) : bool :=
  match n_src n with
  | Some s => negb (bool_decide (s = EmptyString))
  | None => false
  end.

(** [nodes[k]], for a node whose fields are read next. *)
Definition get_node (nodes : store) (k : string) : result node :=
  match nodes !! k with
  | Some n => Ok n
  | None => Err TypeError
  end.

(** [nodes[k].to.push(x)] *)
Definition push_to (k x : string) (nodes : store) : result store :=
  let* n := get_node nodes k in
  match n_to n with
  | Some to => Ok (<[k := with_to (to ++ [x]) n]> nodes)
  | None => Err TypeError
  end.

(** [nodes[k].from.push(x)] *)
Definition push_from (k x : string) (nodes : store) : result store :=
  let* n := get_node nodes k in
  match n_from n with
  | Some from => Ok (<[k := with_from (from ++ [x]) n]> nodes)
  | None => Err TypeError
  end.

(** [nodes[k].src = x] *)
Definition set_src (k x : string) (nodes : store) : result store :=
  let* n := get_node nodes k in
  Ok (<[k := with_src x n]> nodes).

(** *** [generate_daisy] *)

Record daisy := Daisy {
  device_inputs : list string;
  daisy_datahandlers : list string;
  device_outs : list string;
  audio_ins : list string;
  audio_outs : list string;
  midi_ins : list string;
  midi_outs : list string
}.

Definition input_node (name : string) (e : input_entry) : node :=
  Node (Some name) (Some []) None None None (truthy (ie_automap e)) None.

Definition datahandler_node (name : string) : node :=
  Node (Some name) None None None None false None.

Definition output_node (name : string) : node :=
  Node (Some name) None (Some []) None None false None.

Definition source_node (name : string) : node :=
  Node (Some name) (Some []) None None None false None.

Definition sink_node (name : string) : node :=
  Node (Some name) None (Some []) None None false None.

(** [prefix + (i+1)] *)
Definition numbered (prefix : string) (i : nat) : string :=
  prefix +:+ pretty (S i).

Definition channel_names (prefix : string) (count : nat) : list string :=
  numbered prefix <$> seq 0 count.

Definition add_nodes (mk : string -> node) (names : list string)
    (nodes : store) : store :=
  foldl (fun m name => <[name := mk name]> m) nodes names.

Definition generate_daisy (hw : hardware) : store * daisy :=
  let nodes1 :=
    foldl (fun m kv => <[kv.1 := input_node kv.1 kv.2]> m) ∅ (inputs hw) in
  let nodes2 := add_nodes datahandler_node (datahandlers hw) nodes1 in
  let nodes3 := add_nodes output_node (alist_keys (outputs hw)) nodes2 in
  let ins := channel_names "dsy_in" (io_count hw) in
  let outs := channel_names "dsy_out" (io_count hw) in
  let nodes4 := add_nodes source_node ins nodes3 in
  let nodes5 := add_nodes source_node outs nodes4 in
  let midi_in := if has_midi_input hw then ["dsy_midi_in"] else [] in
  let midi_out := if has_midi_output hw then ["dsy_midi_out"] else [] in
  let nodes6 := add_nodes source_node midi_in nodes5 in
  let nodes7 := add_nodes sink_node midi_out nodes6 in
  (nodes7,
   Daisy (alist_keys (inputs hw)) (datahandlers hw) (alist_keys (outputs hw))
     ins outs midi_in midi_out).


(** *** [generate_app] *)

(** [app.patch], as [analyze_json] builds it: the tags of the signal inlets
    and outlets and the visible parameters.  ([analyze_json] leaves
    [datas] empty, so that the loop over the data references adds no
    node.) *)
Record patch := Patch {
  patch_name : string;
  patch_ins : list string;
  patch_outs : list string;
  patch_params : list paramdesc
}.

Fixpoint remove_quotes (s : string) : string :=
  match s with
  | EmptyString => EmptyString
  | String c s' =>
      if bool_decide (c = "034"%char) then remove_quotes s'
      else String c (remove_quotes s')
  end.

Fixpoint trim_start (s : string) : string :=
  match s with
  | EmptyString => EmptyString
  | String c s' => if Ascii.is_space c then trim_start s' else s
  end.

Definition trim (s : string) : string :=
  String.rev (trim_start (String.rev (trim_start s))).

(** The label of an inlet or outlet: its tag without the double quotes,
    trimmed. *)
Definition clean_label (s : string) : string := trim (remove_quotes s).

(** The state of [generate_app] while the graph is built: [nodes], the
    lists [rnbo.audio_ins], [rnbo.audio_outs] and [rnbo.params], and
    [app.audio_outs]. *)
Record graph := Graph {
  nodes : store;
  rnbo_audio_ins : list string;
  rnbo_audio_outs : list string;
  rnbo_params : list string;
  app_audio_outs : list string
}.

Definition with_nodes (v : store) (g : graph) : graph :=
  Graph v (rnbo_audio_ins g) (rnbo_audio_outs g) (rnbo_params g) (app_audio_outs g).

(** The callback of the [map] over the inlets, lines 717 to 734. *)
Definition add_audio_in (d : daisy) (g : graph) (item : nat * string)
    : result graph :=
  let '(i, s) := item in
  let name := numbered "rnbo_in" i in
  let label := clean_label s in
  let src := audio_ins d !! (i mod length (audio_ins d))%nat in
  let nodes1 :=
    <[name := Node None None None src (Some label) false None]> (nodes g) in
  let* nodes2 :=
    match src with
    | Some (String _ _ as src') => push_to src' name nodes1
    | _ => Ok nodes1
    end in
  Ok (Graph nodes2 (rnbo_audio_ins g ++ [name]) (rnbo_audio_outs g)
        (rnbo_params g) (app_audio_outs g)).

(** [if (map)]: the mapping found, when it is no empty string. *)
Definition truthy_map (f : found) : option string :=
  match f_map f with
  | Some (String _ _ as m) => Some m
  | _ => None
  end.

(** The callback of the [map] over the outlets, lines 737 to 788. *)
Definition add_audio_out (hw : hardware) (d : daisy) (g : graph)
    (item : nat * string) : result graph :=
  let '(i, s) := item in
  let name := numbered "rnbo_out" i in
  let label := clean_label s in
  let '(src, nodes1, glue) :=
    match audio_outs d !! i with
    | Some (String _ _ as src) => (src, nodes g, [])
    | _ =>
        let src := numbered "glue_out" i in
        (src, <[src := Node None (Some []) None None None false None]> (nodes g),
         [src])
    end in
  let nodes2 :=
    <[name := Node (Some name) None None (Some src) None false None]> nodes1 in
  let f := resolve_label (labels_outs hw) label in
  let* nodes3 :=
    match truthy_map f with
    | Some _ => Ok nodes2
    | None => set_src src src nodes2
    end in
  let label' :=
    match truthy_map f with
    | Some _ => default label (f_maplabel f)
    | None => label
    end in
  let* n := get_node nodes3 name in
  let nodes4 := <[name := with_label label' n]> nodes3 in
  let* nodes5 :=
    match truthy_map f with
    | Some map =>
        let* nodes' := push_from map src nodes4 in
        push_to src map nodes'
    | None => Ok nodes4
    end in
  Ok (Graph nodes5 (rnbo_audio_ins g) (rnbo_audio_outs g ++ [name])
        (rnbo_params g) (app_audio_outs g ++ glue)).

(** The callback of the [map] over the parameters, lines 790 to 852. *)
Definition add_param (hw : hardware) (g : graph) (p : paramdesc)
    : result graph :=
  let '(pn, src) := make_param (labels_params hw) p in
  let varname := pn_varname pn in
  let nodes1 :=
    <[varname := Node (Some (pn_name pn)) None None src (Some (pn_label pn))
                   false (Some pn)]> (nodes g) in
  let* nodes2 :=
    match src with
    | Some (String _ _ as src') =>
        match nodes1 !! src' with
        | Some _ => push_to src' varname nodes1
        | None => Ok nodes1
        end
    | _ => Ok nodes1
    end in
  Ok (Graph nodes2 (rnbo_audio_ins g) (rnbo_audio_outs g)
        (rnbo_params g ++ [varname]) (app_audio_outs g)).

(** *** The automap pass, lines 890 to 906 *)

(** [while (param && !!nodes[param].src) param = rnbo.params[++upi]]:
    [rest] is what is left of [rnbo.params] from index [upi] on, its head
    being [param]. *)
Fixpoint skip_mapped (nodes : store) (rest : list string)
    : result (list string) :=
  match rest with
  | [] => Ok []
  | EmptyString :: _ => Ok rest
  | param :: rest' =>
      let* n := get_node nodes param in
      if has_src n then skip_mapped nodes rest' else Ok rest
  end.

(** The callback of the [forEach] over the keys of [hardware.inputs]. *)
Definition fill_step (st : store * list string) (name : string)
    : result (store * list string) :=
  let '(nodes, rest) := st in
  let* node := get_node nodes name in
  match n_to node with
  | None => Err TypeError
  | Some to =>
      if bool_decide (length to = 0%nat) && n_automap node then
        let* rest' := skip_mapped nodes rest in
        match rest' with
        | (String _ _ as param) :: _ =>
            let* nodes1 := set_src param name nodes in
            let* nodes2 := push_to name param nodes1 in
            Ok (nodes2, rest')
        | _ => Ok (nodes, rest')
        end
      else Ok (nodes, rest)
  end.

Definition fill_pass (input_names : list string) (params : list string)
    (nodes : store) : result store :=
  let* st := fold_result fill_step (nodes, params) input_names in
  Ok st.1.

(** *** Audio outputs without source, lines 908 to 920 *)

(** The callback of the [forEach] over [daisy.audio_outs]; the state is
    [nodes] and the list [available].  (The index [i % available.length]
    is within the list.) *)
Definition normal_step (st : store * list string) (ni : nat * string)
    : result (store * list string) :=
  let '(nodes, available) := st in
  let '(i, name) := ni in
  let* node := get_node nodes name in
  if has_src node then Ok (nodes, available ++ [name])
  else if bool_decide (length available = 0%nat) then Ok (nodes, available)
  else
    match available !! (i mod length available)%nat with
    | Some a => Ok (<[name := with_src a node]> nodes, available)
    | None => Ok (nodes, available)
    end.

Definition normal_audio_outs (outs : list string) (nodes : store)
    : result store :=
  let* st := fold_result normal_step (nodes, []) (imap pair outs) in
  Ok st.1.

(** *** The graph of an app, lines 697 to 920 *)

(** The graph before the two closing passes. *)
Definition build_graph (hw : hardware) (d : daisy) (nodes0 : store)
    (p : patch) : result graph :=
  let g0 := Graph nodes0 [] [] [] [] in
  let* g1 := fold_result (add_audio_in d) g0 (imap pair (patch_ins p)) in
  let* g2 := fold_result (add_audio_out hw d) g1 (imap pair (patch_outs p)) in
  fold_result (add_param hw) g2 (patch_params p).

Definition generate_app (hw : hardware) (p : patch) : result graph :=
  let '(nodes0, d) := generate_daisy hw in
  let* g3 := build_graph hw d nodes0 p in
  let* nodes4 := fill_pass (alist_keys (inputs hw)) (rnbo_params g3) (nodes g3) in
  let* nodes5 := normal_audio_outs (audio_outs d) nodes4 in
  Ok (with_nodes nodes5 g3).

(** The graph as the automap pass finds it. *)
Definition graph_before_fill (hw : hardware) (p : patch) : result graph :=
  let '(nodes0, d) := generate_daisy hw in
  build_graph hw d nodes0 p.

(** [nodes[k].src], when the node is there. *)
Definition src_of (nodes : store) (k : string) : option string :=
  (nodes !! k) ≫= n_src.

(** [nodes[k].to], when the node is there. *)
Definition to_of (nodes : store) (k : string) : option (list string) :=
  (nodes !! k) ≫= n_to.

(** *** The vocabulary of the automap pass *)

(** An input that the pass serves: its node has an empty [to] list and
    the automap flag. *)
Definition eligible (nodes : store) (name : string) : bool :=
  match nodes !! name with
  | Some n =>
      match n_to n with
      | Some [] => n_automap n
      | _ => false
      end
  | None => false
  end.

(** A parameter that still lacks a controlling input. *)
Definition unmapped (nodes : store) (param : string) : bool :=
  match nodes !! param with
  | Some n => negb (has_src n)
  | None => false
  end.

(** The edge from the input [e.1] to the parameter [e.2]. *)
Definition add_edge (nodes : store) (e : string * string) : store :=
  alter (fun n => with_to (default [] (n_to n) ++ [e.2]) n) e.1
    (alter (with_src e.1) e.2 nodes).

(** The inputs served and the parameters free, each in its own order, and
    paired position by position. *)
Definition new_edges (nodes : store) (input_names params : list string)
    : list (string * string) :=
  zip (filter (fun x => eligible nodes x) input_names)
      (filter (fun p => unmapped nodes p) params).

(** What the pass relies on: the keys of [hardware.inputs] and the names
    of the parameters are each without repetition and are not empty, no
    input has the name of a parameter, every input has a node with a [to]
    list, and every parameter has a node. *)
Definition fill_ready (nodes : store) (input_names params : list string) : Prop :=
  NoDup input_names /\ NoDup params /\
  Forall (fun x => (x ∉ params) /\ (x ≠ EmptyString) /\ is_Some (to_of nodes x))
         input_names /\
  Forall (fun p => (p ≠ EmptyString) /\ is_Some (nodes !! p)) params.

(** The input [name] has the parameter [param] in its [to] list. *)
Definition controls (nodes : store) (name param : string) : Prop :=
  exists to, to_of nodes name = Some to /\ param ∈ to.

(** No parameter is in the [to] lists of two inputs, and a parameter that
    is in one has a [src]. *)
Definition single_controller (nodes : store) (input_names params : list string)
    : Prop :=
  (forall a b p, a ∈ input_names -> b ∈ input_names -> p ∈ params ->
     controls nodes a p -> controls nodes b p -> a = b) /\
  (forall a p, a ∈ input_names -> p ∈ params ->
     controls nodes a p -> unmapped nodes p = false).

(** *** The vocabulary of the pass over the audio outputs *)

(** An output that has a source. *)
Definition assigned (nodes : store) (name : string) : bool :=
  match nodes !! name with
  | Some n => has_src n
  | None => false
  end.

(** The outputs before position [i] that have a source: the list
    [available] when the pass comes to position [i]. *)
Definition available_at (nodes : store) (outs : list string) (i : nat)
    : list string :=
  filter (fun x => assigned nodes x) (take i outs).

End Graph.

(** ** Joining text *)

Module Emit.

Import Js.

(** [l.join(sep)] *)
Fixpoint join_with (sep : string) (l : list string) : string :=
  match l with
  | [] => EmptyString
  | [x] => x
  | x :: l' => x +:+ sep +:+ join_with sep l'
  end.

End Emit.

(** ** Sample descriptors *)

Module Examples.

Import Js Labels Policy Target Graph Emit.

(** Output labels of a target with two CV outputs and a gate. *)
Definition cv_table : gmap string string :=
  <["cv" := "cv"]> (<["cv1" := "cv1"]> (<["gate" := "gate"]> ∅)).

(** A parameter whose description gives no range. *)
Definition plain_param : paramdesc := ParamDesc "cutoff" 0 None None None.

(** A gain in decibels, from -60 to 0. *)
Definition gain_param : paramdesc :=
  ParamDesc "gain" 1 (Some (-6 # 1)%Q) (Some (-60 # 1)%Q) (Some 0%Q).


(** A parameter in octaves, from 0 to 7. *)
Definition octave_param : paramdesc :=
  ParamDesc "pitch" 3 (Some 0%Q) (Some 0%Q) (Some (7 # 1)%Q).

(** Three component instances; no kind of the registry is called
    [Knob]. *)
Definition panel : alist obj := [
  ("sw1", [("component", JStr "Switch"); ("automap", JBool true)]);
  ("knob", [("component", JStr "Knob")]);
  ("led1", [("component", JStr "Led")])
].

(** A node of an LED output. *)
Definition led_node : obj := [("name", JStr "led1"); ("from", JArr [])].

(** The text of an inherited method, as the platform prints a function of
    its own. *)
Definition native_code (k : string) : string :=
  "function " +:+ k +:+ "() { [native code] }".

Definition knob (code : string) (automap : bool) : input_entry :=
  InputEntry code (JBool automap) (range_of 0 1) JUndefined.

(** A target with three knobs that are flagged automap and a switch that
    is not; its audio has two channels. *)
Definition knob_hw : hardware :=
  Hardware
    [("knob1", knob "(hardware.knob1.Value())" true);
     ("knob2", knob "(hardware.knob2.Value())" true);
     ("sw1", knob "(hardware.sw1.Pressed()?1.f:0.f)" false);
     ("knob3", knob "(hardware.knob3.Value())" true)]
    [] []
    (list_to_map [("knob1", "knob1"); ("knob2", "knob2"); ("sw1", "sw1");
                  ("knob3", "knob3")])
    ∅ ∅ 2 false false.

(** A patch whose first parameter names the first knob. *)
Definition synth_patch : patch :=
  Patch "synth" ["in1"] ["out1"; "out2"]
    [ParamDesc "knob1_cutoff" 0 None None None;
     ParamDesc "res" 1 None None None;
     ParamDesc "drive" 2 None None None;
     ParamDesc "mix" 3 None None None].

Definition graph_or_empty (r : result graph) : graph :=
  match r with
  | Ok g => g
  | Err _ => Graph ∅ [] [] [] []
  end.

(** The graph of [synth_patch] on [knob_hw] when the automap pass
    starts. *)
Definition synth_graph : graph :=
  graph_or_empty (graph_before_fill knob_hw synth_patch).

(** A target with three audio channels and no control, and a patch with
    one outlet. *)
Definition echo_hw : hardware := Hardware [] [] [] ∅ ∅ ∅ 3 false false.

Definition echo_patch : patch := Patch "mono" ["in1"] ["out1"] [].

Definition echo_graph : graph :=
  graph_or_empty (graph_before_fill echo_hw echo_patch).

(** A target with two audio channels and a CV output, and a patch whose
    first outlet is labelled for the CV output. *)
Definition cv_hw : hardware :=
  Hardware []
    [("cv1", OutputEntry "hardware.cv1.Set($<name>);" JUndefined JUndefined
               (JStr "audio"))]
    [] ∅ (list_to_map [("cv1", "cv1")]) ∅ 2 false false.

Definition cv_patch : patch := Patch "lfo" [] ["cv1_pitch"; "out"] [].




End Examples.

(** ** More sample descriptors *)

Module Samples.

Import Js Labels Policy Target Graph.

(** The parameter labels of a target with two knobs. *)
Definition knob_table : gmap string string :=
  <["knob1" := "knob1"]> (<["knob2" := "knob2"]> ∅).

(** A parameter that names the first knob and asks for integer steps. *)
Definition steps_param : paramdesc :=
  ParamDesc "knob1_int_steps" 0 (Some (4 # 1)%Q) (Some (1 # 1)%Q) (Some (16 # 1)%Q).

End Samples.

(** ** Fragments and tables *)

Module Fragments.

Import Js Target.

(** Text that a template literal takes as it stands: it holds no
    backquote, no backslash and no carriage return. *)
Definition literal (s : string) : bool :=
  negb (occurs "`" s) && negb (occurs "\" s)
  && negb (occurs (Ascii.ascii_of_nat 13) s).

Definition id_start (c : ascii) : bool :=
  let n := Ascii.nat_of_ascii c in
  (65 <=? n)%nat && (n <=? 90)%nat || (97 <=? n)%nat && (n <=? 122)%nat
  || bool_decide (c = "_"%char) || bool_decide (c = "$"%char).

Definition id_part (c : ascii) : bool :=
  let n := Ascii.nat_of_ascii c in
  id_start c || (48 <=? n)%nat && (n <=? 57)%nat.

(** The words that cannot name a parameter, in one mode or the other. *)
Definition reserved_words : list string :=
  ["arguments"; "await"; "break"; "case"; "catch"; "class"; "const";
   "continue"; "debugger"; "default"; "delete"; "do"; "else"; "enum";
   "eval"; "export"; "extends"; "false"; "finally"; "for"; "function"; "if";
   "implements"; "import"; "in"; "instanceof"; "interface"; "let"; "new";
   "null"; "package"; "private"; "protected"; "public"; "return"; "static";
   "super"; "switch"; "this"; "throw"; "true"; "try"; "typeof"; "var";
   "void"; "while"; "with"; "yield"].

(** A key that can name a parameter of the arrow function that [template]
    builds: letters, digits, [_] and [$], no digit first, no reserved
    word. *)
Definition identifier (k : string) : bool :=
  match k with
  | EmptyString => false
  | String c k' => id_start c && forallb id_part (String.list_ascii_of_string k')
  end
  && negb (bool_decide (k ∈ reserved_words)).

(** An object whose keys [template] can take as the parameters of its
    arrow function. *)
Definition parameter_names (vars : obj) : Prop :=
  NoDup (alist_keys vars) /\
  Forall (fun k => identifier k = true) (alist_keys vars).



Definition two_components : alist obj := [
  ("sw1", [("component", JStr "Switch"); ("automap", JBool true)]);
  ("led1", [("component", JStr "Led")])
].


Definition rgb_component : obj :=
  fleshed component_defs ("led2", [("component", JStr "RgbLed")]).

Definition rgb_node : obj := [("name", JStr "led2_red"); ("from", JArr [])].

End Fragments.

(** ** Names that keep clear of each other *)

Module Hygiene.

Import Js Labels Policy Target Graph.

Definition has_prefix (p s : string) : bool :=
  match strip_prefix p s with
  | Some _ => true
  | None => false
  end.

(** The names that [generate_app] makes up for the nodes of a patch. *)
Definition fresh (s : string) : bool :=
  has_prefix "rnbo_" s || has_prefix "glue_" s.

(** The names that the generator makes up. *)
Definition reserved (s : string) : bool :=
  has_prefix "dsy_" s || fresh s.

(** A target whose names keep clear of each other: no input is listed
    twice, named like an output, a data handler or a node that the
    generator makes up; a label for a parameter leads to an input, and a
    label for an outlet to an output that is not named like a node that the
    generator makes up.  (A label that is the empty string leads
    nowhere.) *)
Definition clean_target (hw : hardware) : Prop :=
  NoDup (alist_keys (inputs hw)) /\
  Forall (fun k => (k ≠ EmptyString) /\ (reserved k = false) /\
                   (k ∉ alist_keys (outputs hw)) /\ (k ∉ datahandlers hw))
         (alist_keys (inputs hw)) /\
  map_Forall (fun _ v => v = EmptyString \/ v ∈ alist_keys (inputs hw))
             (labels_params hw) /\
  map_Forall (fun _ v => v = EmptyString \/
                         (v ∈ alist_keys (outputs hw) /\ reserved v = false))
             (labels_outs hw).

(** The keys of the labels for parameters and for outlets hold no syntax
    character of regular expressions, so that the searches of lines 767 and
    805 read them as they stand. *)
Definition plain_labels (hw : hardware) : Prop :=
  plain_keys (labels_params hw) /\ plain_keys (labels_outs hw).

(** [nodes[k].to] is a list. *)
Definition has_to (nodes : store) (k : string) : Prop :=
  is_Some (to_of nodes k).

(** [nodes[k].from] is a list. *)
Definition has_from (nodes : store) (k : string) : Prop :=
  is_Some ((nodes !! k) ≫= n_from).

(** What the construction of the graph relies on: the inputs and the
    audio channels have nodes with a [to] list, the outputs that a label
    can lead to have nodes with a [from] list. *)
Definition wired (hw : hardware) (nodes : store) : Prop :=
  (forall k, k ∈ alist_keys (inputs hw) -> has_to nodes k) /\
  (forall i, (i < io_count hw)%nat ->
     has_to nodes (numbered "dsy_in" i) /\ has_to nodes (numbered "dsy_out" i)) /\
  (forall k, k ∈ alist_keys (outputs hw) -> reserved k = false ->
     has_from nodes k).

(** The second store has the nodes of the first one, and but for the
    names in [S] their [to] and [from] lists. *)
Definition keeps_except (S : list string) (nodes nodes' : store) : Prop :=
  (forall k, is_Some (nodes !! k) -> is_Some (nodes' !! k)) /\
  (forall k, k ∉ S ->
     (has_to nodes k -> has_to nodes' k) /\
     (has_from nodes k -> has_from nodes' k)).

End Hygiene.

(** ** Paths, numbers and names *)

Module Tools.

Import Js Target Emit.

(** [str.split(sep)] for a separator of one character. *)
Fixpoint split_on (sep : ascii) (str : string) : list string :=
  match str with
  | EmptyString => [EmptyString]
  | String c str' =>
      if bool_decide (c = sep) then EmptyString :: split_on sep str'
      else
        match split_on sep str' with
        | x :: xs => String c x :: xs
        | [] => [String c EmptyString]
        end
  end.

(** [posixify_path(str)] of [oopsy.shared.js], where [path.sep] is [sep]:
    a slash on a POSIX system, a backslash on Windows. *)
Definition posixify_path (sep : ascii) (str : string) : string :=
  join_with "/" (split_on sep str).

(** The text [s] with every [a] replaced by [b]. *)
Fixpoint replace_char (a b : ascii) (s : string) : string :=
  match s with
  | EmptyString => EmptyString
  | String c s' => String (if bool_decide (c = a) then b else c) (replace_char a b s')
  end.

(** [type == "int" || type == "uint8_t" || type == "bool"] *)
Definition int_type (type : string) : bool :=
  bool_decide (type = "int") || bool_decide (type = "uint8_t")
  || bool_decide (type = "bool").

(** [asCppNumber(n, type)] of [oopsy.shared.js] for an integer [n] that
    [toString] prints by its decimal digits, as it does for the integers
    that a number holds exactly, those below 2^53 in absolute value.  (From
    10^21 on [toString] writes an exponent.) *)
Definition asCppNumber (n : Z) (type : string) : string :=
  let s := pretty n in
  if int_type type then pretty n
  else if occurs "e" s then s
  else if occurs "." s then s +:+ "f"
  else s +:+ ".f".

(** The characters that the class of [safename] leaves alone: letters,
    digits and the underscore. *)
Definition is_between (lo hi c : ascii) : bool :=
  (N_of_ascii lo <=? N_of_ascii c)%N && (N_of_ascii c <=? N_of_ascii hi)%N.

Definition is_safe (c : ascii) : bool :=
  is_between "a" "z" c || is_between "A" "Z" c || is_between "0" "9" c
  || bool_decide (c = "_"%char).

Definition hex_digit (n : N) : ascii :=
  match n with
  | 0 => "0" | 1 => "1" | 2 => "2" | 3 => "3" | 4 => "4" | 5 => "5"
  | 6 => "6" | 7 => "7" | 8 => "8" | 9 => "9" | 10 => "a" | 11 => "b"
  | 12 => "c" | 13 => "d" | 14 => "e" | _ => "f"
  end%char%N.

(** [n.toString(16)] for the code of a character. *)
Definition to_hex (n : N) : string :=
  if (n <? 16)%N then String (hex_digit n) EmptyString
  else String (hex_digit (n / 16)) (String (hex_digit (n mod 16)) EmptyString).

(** The replacement of every character outside the class. *)
Fixpoint escape_unsafe (s : string) : string :=
  match s with
  | EmptyString => EmptyString
  | String c s' =>
      (if is_safe c then String c EmptyString
       else "_" +:+ to_hex (N_of_ascii c))
      +:+ escape_unsafe s'
  end.

Fixpoint all_safe (s : string) : bool :=
  match s with
  | EmptyString => true
  | String c s' => is_safe c && all_safe s'
  end.

(** [safename(s)] of the Max script. *)
Definition safename (s : string) : string :=
  if negb (all_safe s) then escape_unsafe s else s.

(** [path.lastIndexOf(c)], where [None] is -1. *)
Fixpoint last_index_of (c : ascii) (s : string) : option nat :=
  match s with
  | EmptyString => None
  | String c' s' =>
      match last_index_of c s' with
      | Some i => Some (S i)
      | None => if bool_decide (c' = c) then Some 0%nat else None
      end
  end.

(** [s.substr(0, n)] *)
Fixpoint substr0 (n : nat) (s : string) : string :=
  match n, s with
  | S n', String c s' => String c (substr0 n' s')
  | _, _ => EmptyString
  end.

Definition slash : ascii := "/"%char.
Definition backslash : ascii := "092"%char.

(** [extractFilepath(path)] of the Max script: the folder, and the value
    of the global [sep] when the function returns. *)
Definition extractFilepath (sep : ascii) (path : string) : string * ascii :=
  match last_index_of slash path with
  | Some x => (substr0 (x + 1) path, slash)
  | None =>
      match last_index_of backslash path with
      | Some x => (substr0 (x + 1) path, backslash)
      | None => (path, sep)
      end
  end.

End Tools.

(** ** [run]: arguments, apps and defines *)

Module Run.

Import Js Target.

(** *** The arguments, lines 105 to 181 *)

(** The switches that [options] collects. *)
Record options := Options {
  writejson : bool;
  nooled : bool;
  boost : bool;
  fastmath : bool
}.

(** The variables that the loop over the arguments sets. *)
Record settings := Settings {
  action : string;
  target : option string;
  target_path : option string;
  watch : bool;
  cpps : list string;
  samplerate : Z;
  blocksize : Z;
  midiuse : string;
  opts : options
}.

(** The variables as [run] declares them. *)
Definition initial_settings : settings :=
  Settings "upload" None None false [] 48 48 "none"
    (Options false false false false).

(** What the loop reads of the file system and of the module [path]:
    [fs.existsSync], [fs.lstatSync(p).isDirectory()], [fs.readdirSync],
    [path.parse(p).ext], [path.join] and [__dirname]. *)
Record filesystem := Filesystem {
  exists_sync : string -> bool;
  is_directory : string -> bool;
  readdir_sync : string -> list string;
  ext_of : string -> string;
  join_path : string -> string -> string;
  dirname : string
}.

(** The loop goes on, or [process.exit] has ended the run. *)
Inductive progress :=
  | Running (s : settings)
  | Exited (code : Z).

(** The number that a run of decimal digits writes, [acc] being the value
    of the digits read so far. *)
Fixpoint digits_value (acc : Z) (s : string) : Z :=
  match s with
  | EmptyString => acc
  | String c s' =>
      match Ascii.is_nat c with
      | Some d => digits_value (10 * acc + Z.of_nat d) s'
      | None => acc
      end
  end.

(** [+(arg.match(re)[1])] for the patterns of the loop, whose group is the
    run of digits that follows [prefix] at the start of the argument. *)
Definition number_after (prefix arg : string) : Z :=
  match Labels.strip_prefix prefix arg with
  | Some rest => digits_value 0 rest
  | None => 0
  end.

(** [arg.match(/midi(.+)/)[1]] for an argument that starts with [midi]. *)
Definition after_midi (arg : string) : string :=
  default EmptyString (Labels.strip_prefix "midi" arg).

Definition set_action (v : string) (s : settings) : settings :=
  Settings v (target s) (target_path s) (watch s) (cpps s) (samplerate s)
    (blocksize s) (midiuse s) (opts s).

Definition set_target (v : option string) (s : settings) : settings :=
  Settings (action s) v (target_path s) (watch s) (cpps s) (samplerate s)
    (blocksize s) (midiuse s) (opts s).

Definition set_target_path (v : option string) (s : settings) : settings :=
  Settings (action s) (target s) v (watch s) (cpps s) (samplerate s)
    (blocksize s) (midiuse s) (opts s).

Definition set_watch (v : bool) (s : settings) : settings :=
  Settings (action s) (target s) (target_path s) v (cpps s) (samplerate s)
    (blocksize s) (midiuse s) (opts s).

Definition set_cpps (v : list string) (s : settings) : settings :=
  Settings (action s) (target s) (target_path s) (watch s) v (samplerate s)
    (blocksize s) (midiuse s) (opts s).

Definition set_samplerate (v : Z) (s : settings) : settings :=
  Settings (action s) (target s) (target_path s) (watch s) (cpps s) v
    (blocksize s) (midiuse s) (opts s).

Definition set_blocksize (v : Z) (s : settings) : settings :=
  Settings (action s) (target s) (target_path s) (watch s) (cpps s)
    (samplerate s) v (midiuse s) (opts s).

Definition set_midiuse (v : string) (s : settings) : settings :=
  Settings (action s) (target s) (target_path s) (watch s) (cpps s)
    (samplerate s) (blocksize s) v (opts s).

Definition set_opts (v : options) (s : settings) : settings :=
  Settings (action s) (target s) (target_path s) (watch s) (cpps s)
    (samplerate s) (blocksize s) (midiuse s) v.

(** [options[arg] = true] *)
Definition set_option (arg : string) (o : options) : options :=
  if bool_decide (arg = "writejson") then
    Options true (nooled o) (boost o) (fastmath o)
  else if bool_decide (arg = "nooled") then
    Options (writejson o) true (boost o) (fastmath o)
  else if bool_decide (arg = "boost") then
    Options (writejson o) (nooled o) true (fastmath o)
  else Options (writejson o) (nooled o) (boost o) true.

Definition targets : list string :=
  ["pod"; "field"; "petal"; "patch"; "patch_sm"; "versio"].

Definition rates : list string := ["96kHz"; "48kHz"; "32kHz"].

Definition blocks : list string :=
  ["block1"; "block2"; "block4"; "block6"; "block8"; "block12"; "block16";
   "block24"; "block32"; "block48"; "block64"; "block96"; "block128";
   "block512"; "block256"].

Definition switches : list string :=
  ["writejson"; "nooled"; "boost"; "fastmath"].

Definition midis : list string := ["midinone"; "midiusb"; "midiuart"].

(** The [default] of the [switch]: anything else is taken for a path. *)
Definition path_argument (fs : filesystem) (s : settings) (arg : string)
    : progress :=
  if negb (exists_sync fs arg) then Exited (-1)
  else if is_directory fs arg then
    Running
      (set_cpps
         (cpps s ++
            (join_path fs arg <$>
               filter (fun f => ext_of fs f = ".cpp") (readdir_sync fs arg)))
         s)
  else
    let ext := ext_of fs arg in
    if bool_decide (ext = ".json") then
      Running (set_target (Some EmptyString) (set_target_path (Some arg) s))
    else if bool_decide (ext = ".h") || bool_decide (ext = ".cpp") then
      Running (set_cpps (cpps s ++ [arg]) s)
    else Running s.

(** The body of the loop over the arguments. *)
Definition parse_arg (fs : filesystem) (s : settings) (arg : string)
    : progress :=
  if bool_decide (arg = "help") then Exited 0
  else if bool_decide (arg = "generate") || bool_decide (arg = "gen") then
    Running (set_action "generate" s)
  else if bool_decide (arg = "upload") || bool_decide (arg = "up") then
    Running (set_action "upload" s)
  else if bool_decide (arg ∈ targets) then Running (set_target (Some arg) s)
  else if bool_decide (arg = "bluemchen") then
    Running (set_target_path
               (Some (join_path fs (dirname fs) "seed.bluemchen.json")) s)
  else if bool_decide (arg = "nehcmeulb") then
    Running (set_target_path
               (Some (join_path fs (dirname fs) "seed.nehcmeulb.json")) s)
  else if bool_decide (arg = "watch") then Running (set_watch true s)
  else if bool_decide (arg ∈ rates) then
    Running (set_samplerate (number_after EmptyString arg) s)
  else if bool_decide (arg ∈ blocks) then
    Running (set_blocksize (number_after "block" arg) s)
  else if bool_decide (arg ∈ switches) then
    Running (set_opts (set_option arg (opts s)) s)
  else if bool_decide (arg ∈ midis) then
    Running (set_midiuse (after_midi arg) s)
  else path_argument fs s arg.

Definition parse_step (fs : filesystem) (st : progress) (arg : string)
    : progress :=
  match st with
  | Running s => parse_arg fs s arg
  | Exited code => Exited code
  end.

(** [args.forEach(...)] *)
Definition parse_args (fs : filesystem) (args : list string) : progress :=
  foldl (parse_step fs) (Running initial_settings) args.

(** The values that the loop can leave in the settings. *)
Definition valid_settings (s : settings) : Prop :=
  action s ∈ ["generate"; "upload"] /\
  samplerate s ∈ [32; 48; 96]%Z /\
  blocksize s ∈ [1; 2; 4; 6; 8; 12; 16; 24; 32; 48; 64; 96; 128; 256; 512]%Z /\
  midiuse s ∈ ["none"; "usb"; "uart"].

(** *** The list of apps, lines 183 to 187 and 289 to 293 *)

(** The callback of [reduce]. *)
Definition dedupe_step (acc : list string) (s : string) : list string :=
  if bool_decide (s ∈ acc) then acc else acc ++ [s].

Definition remove_duplicates (cpps : list string) : list string :=
  foldl dedupe_step [] cpps.

(** [hardware.max_apps || 1], for a count that is an integer or is not
    there. *)
Definition max_apps_or_one (m : option Z) : Z :=
  match m with
  | Some z => if (z =? 0)%Z then 1 else z
  | None => 1
  end.

(** The assertion that there is an app, and the truncation of the list by
    an assignment to its [length], which throws a [RangeError] for a
    negative length. *)
Definition limit_apps (max_apps : option Z) (cpps : list string)
    : result (list string) :=
  if bool_decide (cpps = []) then
    Err (Thrown "an argument specifying the path to at least one rnbo~ exported cpp file is required")
  else
    let m := max_apps_or_one max_apps in
    if (m <? Z.of_nat (length cpps))%Z then
      if (m <? 0)%Z then Err (Thrown "Invalid array length")
      else Ok (take (Z.to_nat m) cpps)
    else Ok cpps.

(** *** The defines that depend on the options, lines 328 to 364 *)

(** [delete o[k]] *)
Fixpoint alist_delete {V} (o : alist V) (k : string) : alist V :=
  match o with
  | [] => []
  | (k', v) :: o' =>
      if bool_decide (k' = k) then alist_delete o' k
      else (k', v) :: alist_delete o' k
  end.

(** [defines[k] = 1] *)
Definition define_one (k : string) (d : obj) : obj := alist_set d k (JNum 1).

Definition is_set (d : obj) (k : string) : bool := truthy (obj_get d k).

(** The choice of the MIDI transport. *)
Definition midi_transport (midiuse : string) (d : obj) : obj :=
  if bool_decide (midiuse = "usb") then define_one "OOPSY_TARGET_USES_MIDI_USB" d
  else if bool_decide (midiuse = "uart") then
    define_one "OOPSY_TARGET_USES_MIDI_UART" d
  else d.

(** Lines 330 to 337: a target with MIDI takes the transport asked
    for. *)
Definition midi_defines (midiuse : string) (d : obj) : obj :=
  if is_set d "OOPSY_TARGET_HAS_MIDI_INPUT"
     || is_set d "OOPSY_TARGET_HAS_MIDI_OUTPUT"
  then midi_transport midiuse d else d.

(** Lines 339 to 351: several apps. *)
Definition multi_app_defines (midiuse : string) (apps : nat) (d : obj) : obj :=
  if bool_decide (1 < apps)%nat then
    let d' := define_one "OOPSY_MULTI_APP" d in
    if is_set d' "OOPSY_TARGET_HAS_MIDI_INPUT" then midi_transport midiuse d'
    else d'
  else d.

(** Lines 352 to 361: the display. *)
Definition oled_defines (o : options) (d : obj) : obj :=
  let d3 :=
    if nooled o && is_set d "OOPSY_TARGET_HAS_OLED"
    then alist_delete d "OOPSY_TARGET_HAS_OLED" else d in
  let d4 :=
    if is_set d3 "OOPSY_TARGET_HAS_OLED" && is_set d3 "OOPSY_HAS_PARAM_VIEW"
    then define_one "OOPSY_CAN_PARAM_TWEAK" d3 else d3 in
  if is_set d4 "OOPSY_TARGET_HAS_OLED" then
    let d5 :=
      if negb (is_set d4 "OOPSY_OLED_DISPLAY_WIDTH")
      then alist_set d4 "OOPSY_OLED_DISPLAY_WIDTH" (JNum 128) else d4 in
    if negb (is_set d5 "OOPSY_OLED_DISPLAY_HEIGHT")
    then alist_set d5 "OOPSY_OLED_DISPLAY_HEIGHT" (JNum 64) else d5
  else d4.

(** Lines 328 to 364. *)
Definition option_defines (midiuse : string) (apps : nat) (o : options)
    (defines : obj) : obj :=
  let d :=
    oled_defines o
      (multi_app_defines midiuse apps (midi_defines midiuse defines)) in
  if fastmath o then define_one "GENLIB_USE_FASTMATH" d else d.

(** A file system in which nothing exists. *)
Definition no_files : filesystem :=
  Filesystem (fun _ => false) (fun _ => false) (fun _ => [])
    (fun _ => EmptyString) (fun a b => a +:+ "/" +:+ b) "/opt/oopsy".

(** The defines of a target with an OLED and MIDI in both directions. *)
Definition field_defines : obj := [
  ("OOPSY_TARGET_FIELD", JNum 1);
  ("OOPSY_TARGET_HAS_OLED", JNum 1);
  ("OOPSY_TARGET_HAS_MIDI_INPUT", JNum 1);
  ("OOPSY_TARGET_HAS_MIDI_OUTPUT", JNum 1);
  ("OOPSY_HAS_PARAM_VIEW", JNum 1)
].

End Run.

(** ** The nodes of the inlets and outlets *)

Module Routing.

Import Js Labels Policy Target Graph Hygiene.

(** The names of the nodes of the inlets and outlets of a patch. *)
Definition io_name (j : string) : bool :=
  has_prefix "rnbo_in" j || has_prefix "rnbo_out" j.

(** The node that the loop over the inlets makes for the inlet at position
    [i] with the tag [s]: its source is a hardware audio input, taken in
    turn. *)
Definition inlet_node (hw : hardware) (i : nat) (s : string) : node :=
  Node None None None
    (if bool_decide (io_count hw = 0%nat) then None
     else Some (numbered "dsy_in" (i mod io_count hw)))
    (Some (clean_label s)) false None.

(** The source of the outlet at position [i]: the hardware audio output at
    that position, or a buffer of its own. *)
Definition outlet_src (d : daisy) (i : nat) : string :=
  match audio_outs d !! i with
  | Some (String _ _ as src) => src
  | _ => numbered "glue_out" i
  end.

(** The label that the search leaves to an outlet. *)
Definition outlet_label (hw : hardware) (s : string) : string :=
  let f := resolve_label (labels_outs hw) (clean_label s) in
  match truthy_map f with
  | Some _ => default (clean_label s) (f_maplabel f)
  | None => clean_label s
  end.

(** The node that the loop over the outlets makes for the outlet at
    position [i] with the tag [s]. *)
Definition outlet_node (hw : hardware) (i : nat) (s : string) : node :=
  Node (Some (numbered "rnbo_out" i)) None None
    (Some (if bool_decide (i < io_count hw)%nat then numbered "dsy_out" i
           else numbered "glue_out" i))
    (Some (outlet_label hw s)) false None.

(** A patch with more inlets and outlets than [knob_hw] has audio
    channels, and its graph. *)
Definition wide_patch : patch :=
  Patch "wide" ["in1"; "in2"; "in3"] ["out1"; "out2"; "out3"] [].

Definition wide_graph : graph :=
  Examples.graph_or_empty (generate_app Examples.knob_hw wide_patch).

End Routing.

(** ** Aliases, and the description of a patch *)

Module Analysis.

Import Js Labels Policy Target Graph Hygiene.

(** The labels lead to what they name: a key that has a label is the name
    of an input in the table of the parameters, and the name of an output
    that is not named like a node that the generator makes up in the table
    of the outlets.  The keys in [names] are left out. *)
Definition grounded (names : list string) (hw : hardware) : Prop :=
  map_Forall (fun k v => k ∈ names \/ v = EmptyString \/
                         k ∈ alist_keys (inputs hw))
             (labels_params hw) /\
  map_Forall (fun k v => k ∈ names \/ v = EmptyString \/
                         (k ∈ alist_keys (outputs hw) /\ reserved k = false))
             (labels_outs hw).

(** No alias stands for another alias. *)
Definition direct (aliases : alist string) : Prop :=
  Forall (fun a => a.2 ∉ aliases.*1) aliases.

(** Aliases that the tables take as they are written: the name of an
    alias holds no syntax character of regular expressions, and neither the
    name nor what it stands for is named like a property that every object
    inherits. *)
Definition plain_aliases (aliases : alist string) : Prop :=
  Forall (fun a => plain_key a.1 = true /\ inherited a.1 = false /\
                   inherited a.2 = false) aliases.

(** An inlet or outlet of the description file. *)
Record port := Port {
  port_type : string;
  port_tag : string
}.

(** A parameter of the description file. *)
Record parameter := Param {
  par_name : string;
  par_index : N;
  par_visible : bool;
  par_initialValue : option Q;
  par_minimum : option Q;
  par_maximum : option Q
}.

(** The description file, parsed: the fields that [analyze_json] reads. *)
Record description := Description {
  rnboobjname : string;
  inlets : list port;
  outlets : list port;
  parameters : list parameter
}.

(** The callback of the loops over the inlets and outlets. *)
Definition push_signal (tags : list string) (io : port) : list string :=
  if bool_decide (port_type io = "signal") then tags ++ [port_tag io] else tags.

(** The callback of the loop over the parameters. *)
Definition push_visible (params : list paramdesc) (param : parameter)
    : list paramdesc :=
  if par_visible param then
    params ++ [ParamDesc (par_name param) (par_index param)
                 (par_initialValue param) (par_minimum param)
                 (par_maximum param)]
  else params.

(** [analyze_json], after [JSON.parse]. *)
Definition analyze_json (desc : description) : patch :=
  Patch (rnboobjname desc)
    (foldl push_signal [] (inlets desc))
    (foldl push_signal [] (outlets desc))
    (foldl push_visible [] (parameters desc)).

(** A description with an event inlet and a hidden parameter. *)
Definition synth_description : description :=
  Description "synth"
    [Port "signal" "in1"; Port "event" "midi"; Port "signal" "in2"]
    [Port "signal" "out1"]
    [Param "cutoff" 0 true None None None;
     Param "voices" 1 false None None None;
     Param "cutoff" 2 true None None None].

End Analysis.

(** * Properties *)

Import Js Labels Policy Target Graph Emit Examples.
Import Samples Fragments Hygiene Tools Run Routing Analysis.

(** ** Label resolution picks the last match *)

Section sorted_lists.
Context {A : Type} (R : relation A) (P : A -> Prop) `{!∀ x, Decision (P x)}.

Lemma StronglySorted_filter (l : list A) :
  StronglySorted R l -> StronglySorted R (filter P l).
Proof.
  induction 1 as [|x l Hl IH Hx]; [constructor|].
  rewrite filter_cons. case_decide; [|done].
  constructor; [done|].
  apply Forall_forall. intros y [_ Hy]%list_elem_of_filter.
  by eapply Forall_forall in Hx.
Qed.

Lemma sorted_last_greatest `{!Reflexive R} (l : list A) (x y : A) :
  StronglySorted R l -> last l = Some y -> x ∈ l -> R x y.
Proof.
  intros Hl [l' ->]%last_Some [Hx | ->%list_elem_of_singleton]%elem_of_app;
    [|done].
  eapply StronglySorted_app_1_elem_of; [done..|]. by apply list_elem_of_singleton.
Qed.
End sorted_lists.

Lemma sorted_keys_sorted (table : gmap string string) :
  StronglySorted String.le (sorted_keys table).
Proof. apply (StronglySorted_merge_sort String.le). Qed.

Lemma elem_of_sorted_keys (table : gmap string string) (k : string) :
  k ∈ sorted_keys table <-> is_Some (table !! k).
Proof.
  unfold sorted_keys. rewrite (merge_sort_Permutation String.le).
  rewrite list_elem_of_fmap. split.
  - intros [[k' v] [-> Hkv%elem_of_map_to_list]]. by exists v.
  - intros [v Hv]. exists (k, v). split; [done|]. by apply elem_of_map_to_list.
Qed.

(** The enumeration order of [Object.keys] does not survive the sort. *)
Lemma sorted_keys_any_order (table : gmap string string) (ks : list string) :
  ks ≡ₚ (map_to_list table).*1 ->
  merge_sort String.le ks = sorted_keys table.
Proof.
  intros Hks. apply (Sorted_unique String.le).
  - apply (Sorted_merge_sort String.le).
  - apply (Sorted_merge_sort String.le).
  - unfold sorted_keys. by rewrite !(merge_sort_Permutation String.le).
Qed.

(** A loop in which every match overwrites the result ends with the result
    of the last match. *)
Lemma resolve_fold (table : gmap string string) (label : string)
    (ks : list string) (acc : found) :
  foldl (resolve_step table label) acc ks =
  match last (filter (matches label) ks) with
  | Some k => resolve_step table label acc k
  | None => acc
  end.
Proof.
  induction ks as [|k ks IH] using rev_ind; [done|].
  rewrite foldl_app, filter_app, last_app. simpl.
  rewrite filter_cons, filter_nil. unfold resolve_step at 1.
  destruct (decide (matches label k)) as [[cap Hk] | Hk]; simpl.
  - unfold resolve_step. by rewrite Hk.
  - assert (label_exec k label = None) as ->.
    { destruct (label_exec k label) eqn:E; [|done]. destruct Hk. by eexists. }
    rewrite IH. destruct (last (filter (matches label) ks)) as [k'|]; [|done].
    unfold resolve_step. by destruct (label_exec k' label).
Qed.

(** C1.  On a label table whose keys hold no syntax characters of regular
    expressions, so that each pattern reads its key as literal text: when
    one or several keys of the table match the label of an outlet, the
    search settles on the last matching key of the sorted keys: the mapping
    is the value of that key, the label is what the pattern captured after
    it, and that key is the greatest matching key in the lexicographic
    order.  The result depends on the table and the label only, whatever
    the order in which the keys are enumerated. *)
Theorem resolve_label_last_match
    (table : gmap string string) (label k0 : string) :
  plain_keys table ->
  is_Some (table !! k0) -> matches label k0 ->
  exists k v cap,
    last_match table label = Some k /\
    table !! k = Some v /\ label_exec k label = Some cap /\
    resolve_label table label = Found (Some v) (Some (maplabel_of label cap)) /\
    (forall k', is_Some (table !! k') -> matches label k' -> String.le k' k) /\
    (forall ks, ks ≡ₚ (map_to_list table).*1 ->
       foldl (resolve_step table label) nothing_found (merge_sort String.le ks)
       = resolve_label table label).
Proof.
  intros _ Hk0 Hm0. unfold last_match.
  destruct (last (filter (matches label) (sorted_keys table))) as [k|] eqn:Hlast.
  2: { apply last_None in Hlast.
       assert (k0 ∈ filter (matches label) (sorted_keys table)) as Hin.
       { apply list_elem_of_filter. split; [done|]. by apply elem_of_sorted_keys. }
       rewrite Hlast in Hin. by apply elem_of_nil in Hin. }
  assert (k ∈ filter (matches label) (sorted_keys table)) as Hk
    by by apply last_Some_elem_of.
  apply list_elem_of_filter in Hk as [[cap Hcap] [v Hv]%elem_of_sorted_keys].
  exists k, v, cap. split_and!; [done..| | |].
  - unfold resolve_label. rewrite resolve_fold, Hlast.
    unfold resolve_step. by rewrite Hcap, Hv.
  - intros k' Hk' Hm.
    eapply (sorted_last_greatest String.le); [|exact Hlast|].
    + apply StronglySorted_filter, sorted_keys_sorted.
    + apply list_elem_of_filter. split; [done|]. by apply elem_of_sorted_keys.
  - intros ks Hks. unfold resolve_label. by rewrite (sorted_keys_any_order table ks).
Qed.

Lemma resolve_label_last_match_witness :
  matches "cv1_pitch" "cv" /\ matches "cv1_pitch" "cv1" /\
  last_match cv_table "cv1_pitch" = Some "cv1" /\
  resolve_label cv_table "cv1_pitch" = Found (Some "cv1") (Some "pitch").
Proof.
  assert (matches "cv1_pitch" "cv") as Hcv by (by eexists).
  split_and!; [done|by eexists|reflexivity|].
  destruct (resolve_label_last_match cv_table "cv1_pitch" "cv")
    as (k & v & cap & Hlast & Hv & Hcap & -> & _);
    [unfold plain_keys; compute_done|by eexists|done|].
  vm_compute in Hlast. simplify_eq. vm_compute in Hv, Hcap. by simplify_eq.
Defined.

(** ** Rounded logarithms *)

Section log2.
#[local] Open Scope Z_scope.




End log2.

(** ** Parameter policy *)

Lemma Qltb_lt (a b : Q) : Qltb a b = true <-> (a < b)%Q.
Proof.
  unfold Qltb. rewrite negb_true_iff. split.
  - intros H. apply Qnot_le_lt. intros Hle%Qle_bool_iff. congruence.
  - intros H. destruct (Qle_bool b a) eqn:E; [|done].
    apply Qle_bool_iff in E. by apply Qlt_not_le in H.
Qed.


Lemma pow2_nonzero (p : Z) : Qeq_bool (pow2 p) 0 = false.
Proof.
  destruct (Qeq_bool (pow2 p) 0) eqn:E; [|done]. exfalso.
  apply Qeq_bool_iff in E. unfold pow2 in E.
  destruct (0 <=? p)%Z eqn:Hp.
  - apply Z.leb_le in Hp. unfold Qeq in E. simpl in E.
    pose proof (Z.pow_pos_nonneg 2 p). lia.
  - apply Z.leb_gt in Hp.
    pose proof (Z.pow_pos_nonneg 2 (- p)) as Hpos.
    destruct (2 ^ (- p))%Z as [|n|n] eqn:En; [lia| |lia].
    unfold Qeq in E. simpl in E. lia.
Qed.

(** The step size of a parameter of type float, case by case. *)
Lemma stepsize_with_float (lg : Q -> Z) (max default range : Q) :
  is_integer max = true -> is_integer default = true -> (2 < range)%Q ->
  stepsize_with lg TFloat max default range =
  if Qltb range 10 then (1 # 12)%Q
  else pow2 (lg (range / ideal_steps)%Q).
Proof.
  intros Hmax Hdef Hr%Qltb_lt. unfold stepsize_with.
  rewrite Hr, Hmax, Hdef. simpl.
  destruct (Qltb range 10); [done|]. by rewrite pow2_nonzero.
Qed.

Lemma stepsize_of_float (max default range : Q) :
  is_integer max = true -> is_integer default = true -> (2 < range)%Q ->
  stepsize_of TFloat max default range =
  if Qltb range 10 then (1 # 12)%Q
  else pow2 (round_log2 (range / ideal_steps)).
Proof. apply stepsize_with_float. Qed.

(** *** The rounded logarithm, away from the half-way points *)



Lemma hundredth_pos (range : Q) : (0 < range)%Q -> (0 < range / ideal_steps)%Q.
Proof.
  intros Hr. unfold Qdiv. apply Qmult_lt_0_compat; [done|].
  by apply Qinv_lt_0_compat.
Qed.








(** C4 as the specification states it fails on a parameter with the
    default range from 0 to 1: its step is a hundredth of the range. *)
Lemma stepsize_small_range_counterexample :
  let pn := (make_param ∅ plain_param).1 in
  pn_type pn = TFloat /\
  is_integer (pn_min pn) = true /\ is_integer (pn_max pn) = true /\
  is_integer (pn_default pn) = true /\
  (0 < pn_range pn)%Q /\ (pn_range pn < 10)%Q /\
  ~ (pn_stepsize pn == 1 # 12)%Q.
Proof. vm_compute. split_and!; try done. Qed.

(** C4, amended.  For a parameter of type float with integer min, max and
    default whose range is greater than 2 and smaller than 10, the step
    size is 1/12. *)
Theorem stepsize_octave_range (table : gmap string string) (p : paramdesc) :
  let pn := (make_param table p).1 in
  pn_type pn = TFloat ->
  is_integer (pn_min pn) = true -> is_integer (pn_max pn) = true ->
  is_integer (pn_default pn) = true ->
  (2 < pn_range pn)%Q -> (pn_range pn < 10)%Q ->
  pn_stepsize pn = (1 # 12)%Q.
Proof.
  unfold make_param. simpl. intros -> _ Hmax Hdef Hlo Hhi%Qltb_lt.
  rewrite stepsize_of_float by done. by rewrite Hhi.
Qed.

Lemma stepsize_octave_range_witness :
  pn_stepsize (make_param ∅ octave_param).1 = (1 # 12)%Q.
Proof.
  apply (stepsize_octave_range ∅ octave_param); vm_compute; done.
Defined.




(** C6, what the code does.  A parameter from -60 to 0 gets the maximum 1
    and the range 61: the explicit maximum 0 is taken for a missing one. *)
Theorem explicit_zero_max_replaced :
  let pn := (make_param ∅ gain_param).1 in
  p_max gain_param = Some 0%Q /\
  pn_min pn = (-60 # 1)%Q /\ pn_max pn = 1%Q /\ pn_range pn = (61 # 1)%Q.
Proof. vm_compute. done. Qed.

(** Apart from an explicit zero maximum, the defaults are as the
    specification has them. *)
Lemma param_defaults (table : gmap string string) (p : paramdesc) :
  let pn := (make_param table p).1 in
  (pn_range pn = pn_max pn - pn_min pn)%Q /\
  (p_min p = None -> pn_min pn = 0%Q) /\
  (p_max p = None -> pn_max pn = 1%Q) /\
  (p_default p = None -> pn_default pn = 0%Q) /\
  (forall q, p_min p = Some q -> (pn_min pn == q)%Q) /\
  (forall q, p_default p = Some q -> (pn_default pn == q)%Q) /\
  (forall q, p_max p = Some q -> ~ (q == 0)%Q -> pn_max pn = q).
Proof.
  unfold make_param, or_default. simpl. split_and!; try done.
  - by intros ->.
  - by intros ->.
  - by intros ->.
  - intros q ->. destruct (Qeq_bool q 0) eqn:E; [|done].
    apply Qeq_bool_iff in E. by rewrite E.
  - intros q ->. destruct (Qeq_bool q 0) eqn:E; [|done].
    apply Qeq_bool_iff in E. by rewrite E.
  - intros q -> Hq. destruct (Qeq_bool q 0) eqn:E; [|done].
    by apply Qeq_bool_iff in E.
Qed.

(** ** Fleshing out the components *)

Lemma map_result_ok {A B} (f : A -> result B) (g : A -> B) (l : list A) :
  (forall x, x ∈ l -> f x = Ok (g x)) -> map_result f l = Ok (g <$> l).
Proof.
  induction l as [|x l IH]; intros H; [done|]. simpl.
  rewrite (H x) by left. simpl. rewrite IH; [done|].
  intros y Hy. apply H. by right.
Qed.

(** A [map] whose callback throws on some element throws what the callback
    throws on the first such element. *)
Lemma map_result_err {A B} (f : A -> result B) (l : list A) :
  (exists x, x ∈ l /\ is_ok (f x) = false) ->
  exists x e, x ∈ l /\ f x = Err e /\ map_result f l = Err e.
Proof.
  induction l as [|x l IH]; intros (y & Hy & Hf).
  - by apply elem_of_nil in Hy.
  - simpl. destruct (f x) as [b|e] eqn:E.
    + apply elem_of_cons in Hy as [-> | Hy]; [by rewrite E in Hf|].
      destruct IH as (z & e & Hz & Hfz & ->); [by eauto|].
      exists z, e. split_and!; [by right|done..].
    + exists x, e. split_and!; [by left|done..].
Qed.

Lemma insert_sorted_perm (e : string * obj) (l : list (string * obj)) :
  insert_sorted e l ≡ₚ e :: l.
Proof.
  induction l as [|e' l IH]; [done|]. simpl.
  case_decide; [done|]. rewrite IH. apply Permutation_swap.
Qed.

Lemma sort_by_kind_perm (l : list (string * obj)) : sort_by_kind l ≡ₚ l.
Proof.
  induction l as [|e l IH]; [done|]. simpl.
  by rewrite insert_sorted_perm, IH.
Qed.

Lemma alist_get_set_ne {V} (o : alist V) (k k' : string) (v : V) :
  k ≠ k' -> alist_get (alist_set o k v) k' = alist_get o k'.
Proof.
  intros Hne. induction o as [|[k0 v0] o IH]; simpl.
  - by rewrite bool_decide_eq_false_2.
  - destruct (decide (k0 = k)) as [->|].
    + rewrite bool_decide_eq_true_2 by done. simpl.
      by rewrite !bool_decide_eq_false_2.
    + rewrite (bool_decide_eq_false_2 (k0 = k)) by done. simpl.
      by rewrite IH.
Qed.

Lemma alist_get_set_eq {V} (o : alist V) (k : string) (v : V) :
  alist_get (alist_set o k v) k = Some v.
Proof.
  induction o as [|[k0 v0] o IH]; simpl.
  - by rewrite bool_decide_eq_true_2.
  - destruct (decide (k0 = k)) as [->|].
    + rewrite bool_decide_eq_true_2 by done. simpl.
      by rewrite bool_decide_eq_true_2.
    + rewrite (bool_decide_eq_false_2 (k0 = k)) by done. simpl.
      by rewrite (bool_decide_eq_false_2 (k0 = k)).
Qed.

Lemma kind_of_named (def : obj) (name : string) :
  kind_of (alist_set def "name" (JStr name)) = kind_of def.
Proof. unfold kind_of, obj_get. by rewrite alist_get_set_ne. Qed.

Lemma flesh_out_known (g : ambient) (registry : alist obj) (name : string)
    (def shape : obj) :
  defs_bound g = Some registry ->
  alist_get registry (kind_of def) = Some shape ->
  flesh_out g (name, def)
  = Ok (apply_defaults shape (alist_set def "name" (JStr name))).
Proof. intros Hg H. unfold flesh_out. by rewrite Hg, kind_of_named, H. Qed.

Lemma flesh_out_unknown (g : ambient) (registry : alist obj) (name : string)
    (def : obj) :
  defs_bound g = Some registry ->
  alist_get registry (kind_of def) = None -> inherited (kind_of def) = false ->
  flesh_out g (name, def) = Err (unknown_kind (kind_of def)).
Proof.
  intros Hg H Hi. unfold flesh_out. by rewrite Hg, kind_of_named, H, Hi.
Qed.

Lemma flesh_out_unbound (g : ambient) (pair : string * obj) :
  defs_bound g = None ->
  flesh_out g pair = Err (ReferenceError "component_defs").
Proof. intros Hg. unfold flesh_out. destruct pair. by rewrite Hg. Qed.

(** C8, what the code does.  In the module no declaration binds the name
    [component_defs] that [generate_target_struct] reads at line 268: where
    nothing else binds it, every target with a component makes the function
    throw a reference error at the first component, whether the registry
    has its kind or not.  So it is for an instance of the kind [Foo], which
    is in no registry, and for a switch; the error is not the one that
    names the kind, which line 276 would throw for [Foo] were the name
    bound to the table of the module, and no switch gets its defaults. *)
Theorem unknown_kind_reference_error :
  (forall (g : ambient) (components : alist obj),
     defs_bound g = None -> components ≠ [] ->
     generate_target_struct g components
     = Err (ReferenceError "component_defs")) /\
  generate_target_struct unbound [("sw1", [("component", JStr "Foo")])]
  = Err (ReferenceError "component_defs") /\
  generate_target_struct unbound [("sw1", [("component", JStr "Switch")])]
  = Err (ReferenceError "component_defs") /\
  generate_target_struct (Ambient (Some component_defs) true)
    [("sw1", [("component", JStr "Foo")])]
  = Err (Thrown "undefined component kind: Foo") /\
  is_ok (generate_target_struct (Ambient (Some component_defs) true)
           [("sw1", [("component", JStr "Switch")])]) = true.
Proof.
  split; [|by vm_compute].
  intros g components Hg Hne.
  unfold generate_target_struct, flesh_out_components.
  destruct (sort_by_kind components) as [|c cs] eqn:Hsort.
  - pose proof (sort_by_kind_perm components) as Hperm.
    rewrite Hsort in Hperm. by apply Permutation_nil in Hperm.
  - cbn [map_result]. by rewrite flesh_out_unbound.
Qed.

Lemma unknown_kind_reference_error_witness :
  generate_target_struct unbound panel = Err (ReferenceError "component_defs").
Proof.
  apply (proj1 unknown_kind_reference_error unbound panel);
    [reflexivity|discriminate].
Defined.

(** ** The two template notations *)

Lemma append_cons (c : ascii) (s t : string) :
  String c s +:+ t = String c (s +:+ t).
Proof. reflexivity. Qed.

Lemma append_nil_l (t : string) : EmptyString +:+ t = t.
Proof. reflexivity. Qed.

Lemma append_nil_r (s : string) : s +:+ EmptyString = s.
Proof. induction s as [|c s IH]; [done|]. by rewrite append_cons, IH. Qed.

Lemma append_assoc (s t u : string) : (s +:+ t) +:+ u = s +:+ (t +:+ u).
Proof. induction s as [|c s IH]; [done|]. by rewrite !append_cons, IH. Qed.

Lemma text_of_cons (c : ascii) (s : string) :
  text_of (String c s) = Text c :: text_of s.
Proof. reflexivity. Qed.

Lemma join_strings_app (l1 l2 : list string) :
  join_strings (l1 ++ l2) = join_strings l1 +:+ join_strings l2.
Proof.
  induction l1 as [|x l1 IH]; [done|].
  simpl. unfold join_strings in *. simpl. by rewrite IH, append_assoc.
Qed.

Lemma join_render_text (native : string -> string) (data : obj) (s : string) :
  join_strings (render native data <$> text_of s) = s.
Proof.
  induction s as [|c s IH]; [done|].
  rewrite text_of_cons, fmap_cons. unfold join_strings in *. simpl.
  by rewrite IH.
Qed.

Lemma scan_interpolate_plain (pre rest : string) :
  occurs "$" pre = false ->
  scan_interpolate Plain (pre +:+ rest)
  = text_of pre ++ scan_interpolate Plain rest.
Proof.
  induction pre as [|c pre IH]; [done|]. simpl.
  intros [Hc Hpre]%orb_false_elim.
  by rewrite Hc, IH.
Qed.

Lemma scan_interpolate_hole (acc key post : string) :
  occurs ">" key = false -> acc +:+ key ≠ EmptyString ->
  scan_interpolate (InHole acc) (key +:+ String ">" post)
  = Hole (acc +:+ key) :: scan_interpolate Plain post.
Proof.
  revert acc. induction key as [|c key IH]; intros acc Hkey Hne.
  - rewrite append_nil_r in *. rewrite append_nil_l. simpl.
    by destruct acc.
  - simpl in Hkey. apply orb_false_elim in Hkey as [Hc Hkey].
    rewrite append_cons. simpl. rewrite Hc.
    rewrite IH; [|done|].
    + by rewrite append_assoc.
    + by rewrite append_assoc.
Qed.

(** A placeholder of [interpolate] is replaced by the text of [data[key]]:
    of the field, of the property that every object inherits, or of
    [undefined]. *)
Lemma interpolate_placeholder (native : string -> string)
    (pre key post : string) (data : obj) :
  occurs "$" pre = false -> occurs ">" key = false -> key ≠ EmptyString ->
  interpolate native (pre +:+ "$<" +:+ key +:+ ">" +:+ post) data
  = pre +:+ render native data (Hole key) +:+ interpolate native post data.
Proof.
  intros Hpre Hkey Hne. unfold interpolate.
  rewrite scan_interpolate_plain by done.
  change ("$<" +:+ key +:+ ">" +:+ post)
    with (String "$" (String "<" (key +:+ String ">" post))).
  cbn [scan_interpolate]. rewrite !bool_decide_eq_true_2 by done.
  rewrite scan_interpolate_hole by done.
  rewrite fmap_app, join_strings_app, join_render_text, fmap_cons.
  done.
Qed.

Lemma scan_template_plain (pre rest : string) :
  occurs "$" pre = false ->
  scan_template Plain (pre +:+ rest)
  = app (text_of pre) <$> scan_template Plain rest.
Proof.
  induction pre as [|c pre IH]; intros Hpre.
  - rewrite append_nil_l. by destruct (scan_template Plain rest).
  - simpl in Hpre. apply orb_false_elim in Hpre as [Hc Hpre].
    rewrite append_cons. simpl. rewrite Hc, IH by done.
    by destruct (scan_template Plain rest).
Qed.

Lemma scan_template_hole (acc x post : string) :
  occurs "}" x = false -> acc +:+ x ≠ EmptyString ->
  scan_template (InHole acc) (x +:+ String "}" post)
  = cons (Hole (acc +:+ x)) <$> scan_template Plain post.
Proof.
  revert acc. induction x as [|c x IH]; intros acc Hx Hne.
  - rewrite append_nil_r in *. rewrite append_nil_l. simpl.
    by destruct acc.
  - simpl in Hx. apply orb_false_elim in Hx as [Hc Hx].
    rewrite append_cons. simpl. rewrite Hc.
    rewrite IH; [|done|].
    + by rewrite append_assoc.
    + by rewrite append_assoc.
Qed.

Lemma map_result_text (vars : obj) (s : string) (rest : list piece) :
  map_result (eval_piece vars) (text_of s ++ rest)
  = bind (map_result (eval_piece vars) rest)
      (fun ys => Ok (((fun c => String c EmptyString) <$> String.list_ascii_of_string s) ++ ys)).
Proof.
  induction s as [|c s IH].
  - simpl. by destruct (map_result (eval_piece vars) rest).
  - rewrite text_of_cons. simpl. rewrite IH.
    by destruct (map_result (eval_piece vars) rest).
Qed.

(** C9 as the specification states it fails: a placeholder of a fragment
    that names no field of the node is replaced by the text [undefined],
    and the fragment is emitted. *)
Lemma interpolate_unresolved_counterexample :
  alist_get led_node "nam" = None /\
  interpolate native_code "hardware.led1.Set($<nam>);" led_node
  = "hardware.led1.Set(undefined);".
Proof. split; reflexivity. Qed.

(** C9, amended.  A placeholder [$<key>] of a fragment that [interpolate]
    expands against a node is never fatal: when the node has no field
    [key], the text [undefined] takes its place, or, for a name that every
    object inherits, the text of the inherited property, and the expansion
    goes on with what follows the placeholder. *)
Theorem unresolved_variable_outcome (native : string -> string)
    (pre key post : string) (data : obj) :
  occurs "$" pre = false -> occurs ">" key = false -> key ≠ EmptyString ->
  alist_get data key = None ->
  interpolate native (pre +:+ "$<" +:+ key +:+ ">" +:+ post) data
  = pre +:+ (if inherited key then native key else "undefined")
        +:+ interpolate native post data.
Proof.
  intros Hpre Hkey Hne Hdata.
  rewrite interpolate_placeholder by done.
  cbn [render]. by rewrite Hdata.
Qed.

Lemma unresolved_variable_outcome_witness :
  interpolate native_code "hardware.led1.Set($<nam>);" led_node
  = "hardware.led1.Set(undefined);" /\
  interpolate native_code "x = $<valueOf>;" led_node
  = "x = function valueOf() { [native code] };".
Proof.
  split.
  - apply (unresolved_variable_outcome native_code
             "hardware.led1.Set(" "nam" ");" led_node);
      [reflexivity|reflexivity|done|reflexivity].
  - apply (unresolved_variable_outcome native_code
             "x = " "valueOf" ";" led_node);
      [reflexivity|reflexivity|done|reflexivity].
Defined.

(** ** The automap pass *)

Lemma fold_result_nil_state {A S} (f : S -> A -> result S) (s : S) (l : list A) :
  (forall x, x ∈ l -> f s x = Ok s) -> fold_result f s l = Ok s.
Proof.
  induction l as [|x l IH]; intros H; [done|]. simpl.
  rewrite (H x) by left. simpl. apply IH. intros y Hy. apply H. by right.
Qed.

Lemma unmapped_has_src (nodes : store) (p : string) (n : node) :
  nodes !! p = Some n -> unmapped nodes p = negb (has_src n).
Proof. intros H. unfold unmapped. by rewrite H. Qed.

(** The [while] loop stops at the first parameter without [src]. *)
Lemma skip_mapped_spec (nodes : store) (rest : list string) :
  Forall (fun p => (p ≠ EmptyString) /\ is_Some (nodes !! p)) rest ->
  exists rest',
    skip_mapped nodes rest = Ok rest' /\
    filter (fun p => unmapped nodes p) rest
    = filter (fun p => unmapped nodes p) rest' /\
    rest' `suffix_of` rest /\
    match rest' with
    | [] => True
    | p :: _ => unmapped nodes p = true
    end.
Proof.
  induction 1 as [|p rest [Hp [n Hn]] Hrest IH].
  - by exists [].
  - destruct p as [|c p]; [done|]. simpl. unfold get_node. rewrite Hn. simpl.
    pose proof (unmapped_has_src nodes _ n Hn) as Hu.
    destruct (has_src n) eqn:Hs.
    + destruct IH as (rest' & -> & Hf & Hsuf & Hhead).
      exists rest'. split_and!; [done| |by apply suffix_cons_r|done].
      rewrite filter_cons_False; [done|]. rewrite Hu. simpl. by intros [].
    + exists (String c p :: rest). split_and!; [done..|].
      by rewrite Hu.
Qed.

Lemma lookup_add_edge_ne (nodes : store) (e : string * string) (k : string) :
  k ≠ e.1 -> k ≠ e.2 -> add_edge nodes e !! k = nodes !! k.
Proof.
  intros H1 H2. unfold add_edge. by rewrite !lookup_alter_ne.
Qed.

Lemma lookup_add_edge_input (nodes : store) (e : string * string) :
  e.1 ≠ e.2 ->
  add_edge nodes e !! e.1
  = (fun n => with_to (default [] (n_to n) ++ [e.2]) n) <$> nodes !! e.1.
Proof.
  intros Hne. unfold add_edge. by rewrite lookup_alter_eq, lookup_alter_ne.
Qed.

Lemma lookup_add_edge_param (nodes : store) (e : string * string) :
  e.1 ≠ e.2 ->
  add_edge nodes e !! e.2 = with_src e.1 <$> nodes !! e.2.
Proof.
  intros Hne. unfold add_edge. by rewrite lookup_alter_ne, lookup_alter_eq.
Qed.

(** The two assignments of the pass make the edge. *)
Lemma fill_edge (nodes : store) (name param : string) (n : node) :
  name ≠ param -> nodes !! name = Some n -> n_to n = Some [] ->
  is_Some (nodes !! param) ->
  exists nodes1,
    set_src param name nodes = Ok nodes1 /\
    push_to name param nodes1 = Ok (add_edge nodes (name, param)).
Proof.
  intros Hne Hn Hto [pn Hpn]. unfold set_src, push_to, get_node.
  rewrite Hpn. simpl. eexists. split; [done|].
  rewrite lookup_insert_ne, Hn by done. simpl.
  rewrite Hto. f_equal. apply map_eq. intros k.
  destruct (decide (k = name)) as [->|Hk1].
  - rewrite lookup_insert_eq, (lookup_add_edge_input _ (name, param)) by done.
    simpl. rewrite Hn. simpl. by rewrite Hto.
  - rewrite lookup_insert_ne by done.
    destruct (decide (k = param)) as [->|Hk2].
    + rewrite lookup_insert_eq, (lookup_add_edge_param _ (name, param)) by done.
      simpl. by rewrite Hpn.
    + rewrite lookup_insert_ne by done. by rewrite lookup_add_edge_ne.
Qed.

Lemma filter_bool_ext {A} (f g : A -> bool) (l : list A) :
  (forall x, x ∈ l -> f x = g x) ->
  filter (fun x => f x) l = filter (fun x => g x) l.
Proof.
  induction l as [|x l IH]; intros H; [done|].
  rewrite !filter_cons, (H x) by left.
  rewrite IH; [done|]. intros y Hy. apply H. by right.
Qed.

Lemma to_of_add_edge (nodes : store) (e : string * string) (x : string) :
  is_Some (to_of nodes x) -> is_Some (to_of (add_edge nodes e) x).
Proof.
  unfold to_of, add_edge. intros [to Hto].
  destruct (nodes !! x) as [n|] eqn:Hn; [|done]. simpl in Hto.
  destruct (decide (x = e.1)) as [->|H1].
  - rewrite lookup_alter_eq.
    destruct (decide (e.1 = e.2)) as [Heq|H2].
    + rewrite <- Heq, lookup_alter_eq, Hn. by eexists.
    + rewrite lookup_alter_ne, Hn by done. by eexists.
  - rewrite lookup_alter_ne by done.
    destruct (decide (x = e.2)) as [->|H2].
    + rewrite lookup_alter_eq, Hn. simpl. by eexists.
    + rewrite lookup_alter_ne, Hn by done. by eexists.
Qed.

Lemma lookup_add_edge_is_Some (nodes : store) (e : string * string) (x : string) :
  is_Some (nodes !! x) -> is_Some (add_edge nodes e !! x).
Proof.
  unfold add_edge. intros Hx.
  apply lookup_alter_is_Some, lookup_alter_is_Some, Hx.
Qed.

Lemma fill_ready_add_edge (nodes : store) (e : string * string)
    (ins rest : list string) :
  fill_ready nodes ins rest -> fill_ready (add_edge nodes e) ins rest.
Proof.
  intros (H1 & H2 & H3 & H4). split_and!; [done..| |].
  - eapply Forall_impl; [exact H3|]. intros x (? & ? & ?).
    split_and!; [done..|]. by apply to_of_add_edge.
  - eapply Forall_impl; [exact H4|]. intros x (? & ?).
    split; [done|]. by apply lookup_add_edge_is_Some.
Qed.

Lemma fill_ready_suffix (nodes : store) (ins rest rest' : list string) :
  rest' `suffix_of` rest ->
  fill_ready nodes ins rest -> fill_ready nodes ins rest'.
Proof.
  intros [pre ->] (H1 & H2 & H3 & H4).
  apply NoDup_app in H2 as (_ & _ & H2).
  apply Forall_app in H4 as [_ H4].
  split_and!; [done..| |done].
  eapply Forall_impl; [exact H3|]. intros x (Hx & ? & ?).
  split_and!; [|done..]. intros Hin. apply Hx, elem_of_app. by right.
Qed.

Lemma fill_ready_tail (nodes : store) (name : string) (ins rest : list string) :
  fill_ready nodes (name :: ins) rest -> fill_ready nodes ins rest.
Proof.
  intros (H1 & H2 & H3 & H4).
  apply NoDup_cons in H1 as [_ H1]. apply Forall_cons in H3 as [_ H3].
  by split_and!.
Qed.

Lemma zip_nil_r {A B} (l : list A) : zip l (@nil B) = [].
Proof. by destruct l. Qed.

(** The pass adds the edges of [new_edges], one after the other. *)
Lemma fill_steps (ins : list string) :
  forall (nodes : store) (rest : list string),
    fill_ready nodes ins rest ->
    exists rest',
      fold_result fill_step (nodes, rest) ins
      = Ok (foldl add_edge nodes (new_edges nodes ins rest), rest').
Proof.
  induction ins as [|name ins IH]; intros nodes rest Hready.
  { by exists rest. }
  pose proof Hready as (Hnd_ins & Hnd_rest & Hins & Hrest).
  apply NoDup_cons in Hnd_ins as [Hname_ins Hnd_ins].
  apply Forall_cons in Hins as [(Hname_rest & Hname_ne & [to Hto]) Hins].
  unfold to_of in Hto. destruct (nodes !! name) as [n|] eqn:Hn; [|done].
  simpl in Hto. apply fill_ready_tail in Hready.
  cbn [fold_result]. unfold fill_step at 1, get_node. rewrite Hn. cbn [bind].
  rewrite Hto. unfold new_edges. rewrite filter_cons.
  assert (eligible nodes name = bool_decide (length to = 0%nat) && n_automap n)
    as Hel.
  { unfold eligible. rewrite Hn, Hto. by destruct to. }
  rewrite Hel.
  destruct (bool_decide (length to = 0%nat) && n_automap n) eqn:Hserve.
  - apply andb_true_iff in Hserve as [Hlen%bool_decide_eq_true _].
    apply nil_length_inv in Hlen as ->.
    destruct (skip_mapped_spec nodes rest Hrest)
      as (rest' & -> & -> & Hsuf & Hhead). cbn [bind].
    pose proof (fill_ready_suffix _ _ _ _ Hsuf Hready) as Hready'.
    rewrite decide_True by done.
    destruct rest' as [|p r].
    + cbn [bind]. destruct (IH nodes [] Hready') as (rest'' & ->).
      exists rest''. unfold new_edges. by rewrite filter_nil, !zip_nil_r.
    + pose proof Hready' as (_ & Hnd_pr & _ & Hpr).
      apply NoDup_cons in Hnd_pr as [Hp_r Hnd_r].
      apply Forall_cons in Hpr as [[Hp_ne Hp_node] Hr].
      assert (name ≠ p) as Hne.
      { intros ->. apply Hname_rest. destruct Hsuf as [pre ->].
        apply elem_of_app. right. left. }
      destruct p as [|c p]; [done|].
      destruct (fill_edge nodes name (String c p) n) as (nodes1 & -> & Hpush);
        [done..|].
      cbn [bind]. rewrite Hpush. cbn [bind].
      destruct (IH (add_edge nodes (name, String c p)) (String c p :: r))
        as (rest'' & ->); [by apply fill_ready_add_edge|].
      exists rest''. do 2 f_equal. unfold new_edges.
      assert (filter (fun p0 => unmapped nodes p0) (String c p :: r)
              = String c p :: filter (fun p0 => unmapped nodes p0) r) as ->.
      { rewrite filter_cons, decide_True; [done|]. by rewrite Hhead. }
      cbn [zip zip_with foldl]. f_equal. f_equal.
      * apply filter_bool_ext. intros x Hx. unfold eligible.
        rewrite lookup_add_edge_ne; [done| |]; simpl.
        -- intros ->. done.
        -- intros ->. eapply Forall_forall in Hins as (Hx' & _); [|done].
           apply Hx'. destruct Hsuf as [pre ->]. apply elem_of_app. right. left.
      * rewrite filter_cons, decide_False.
        -- apply filter_bool_ext. intros x Hx. unfold unmapped.
           rewrite lookup_add_edge_ne; [done| |]; simpl.
           ++ intros ->. apply Hname_rest. destruct Hsuf as [pre ->].
              apply elem_of_app. right. by right.
           ++ intros ->. done.
        -- unfold unmapped.
           rewrite (lookup_add_edge_param _ (name, String c p)) by done.
           cbn [fst snd].
           destruct Hp_node as [pn ->]. simpl. unfold has_src. simpl.
           rewrite bool_decide_eq_false_2 by done. simpl. by intros [].
  - rewrite decide_False by by intros []. cbn [bind].
    destruct (IH nodes rest Hready) as (rest' & ->). by exists rest'.
Qed.

Lemma add_edges_other (es : list (string * string)) :
  forall (nodes : store) (k : string),
    k ∉ es.*1 -> k ∉ es.*2 -> foldl add_edge nodes es !! k = nodes !! k.
Proof.
  induction es as [|e es IH]; intros nodes k H1 H2; [done|].
  rewrite fmap_cons in H1, H2. apply not_elem_of_cons in H1 as [H1 H1'].
  apply not_elem_of_cons in H2 as [H2 H2']. simpl.
  rewrite IH by done. by apply lookup_add_edge_ne.
Qed.

Lemma add_edges_pair (es : list (string * string)) :
  forall (nodes : store) (a p : string),
    NoDup es.*1 -> NoDup es.*2 ->
    (forall x y, x ∈ es.*1 -> y ∈ es.*2 -> x ≠ y) ->
    (a, p) ∈ es ->
    foldl add_edge nodes es !! a
    = (fun n => with_to (default [] (n_to n) ++ [p]) n) <$> nodes !! a /\
    foldl add_edge nodes es !! p = with_src a <$> nodes !! p.
Proof.
  induction es as [|e es IH]; intros nodes a p Hnd1 Hnd2 Hdis Hin.
  { by apply elem_of_nil in Hin. }
  rewrite fmap_cons in Hnd1, Hnd2.
  apply NoDup_cons in Hnd1 as [He1 Hnd1]. apply NoDup_cons in Hnd2 as [He2 Hnd2].
  assert (forall x y, x ∈ es.*1 -> y ∈ es.*2 -> x ≠ y) as Hdis'.
  { intros x y Hx Hy. apply Hdis; rewrite fmap_cons; by right. }
  simpl. apply elem_of_cons in Hin as [<- | Hin].
  - assert (a ≠ p) as Hne.
    { apply Hdis; rewrite fmap_cons; by left. }
    rewrite !add_edges_other; simpl in *; [|try done..].
    + split.
      * by rewrite (lookup_add_edge_input _ (a, p)).
      * by rewrite (lookup_add_edge_param _ (a, p)).
    + intros Hp. apply (Hdis p p); [by right|by left|done].
    + intros Ha. apply (Hdis a a); [by left|by right|done].
  - assert (a ∈ es.*1) as Ha by (apply list_elem_of_fmap; by exists (a, p)).
    assert (p ∈ es.*2) as Hp by (apply list_elem_of_fmap; by exists (a, p)).
    destruct (IH (add_edge nodes e) a p) as [-> ->]; [done..|].
    rewrite !lookup_add_edge_ne; [done|..].
    + intros ->. apply (Hdis e.1 e.1); [rewrite fmap_cons; by left|rewrite fmap_cons; by right|done].
    + intros ->. done.
    + intros ->. done.
    + intros ->. apply (Hdis e.2 e.2); [rewrite fmap_cons; by right|rewrite fmap_cons; by left|done].
Qed.

Lemma zip_fst_elem {A B} (l : list A) (k : list B) (x : A) :
  x ∈ (zip l k).*1 -> x ∈ l.
Proof.
  intros ([a b] & -> & Hin)%list_elem_of_fmap. by eapply elem_of_zip_l.
Qed.

Lemma zip_snd_elem {A B} (l : list A) (k : list B) (y : B) :
  y ∈ (zip l k).*2 -> y ∈ k.
Proof.
  intros ([a b] & -> & Hin)%list_elem_of_fmap. by eapply elem_of_zip_r.
Qed.

Lemma NoDup_zip_fst {A B} (l : list A) (k : list B) :
  NoDup l -> NoDup (zip l k).*1.
Proof.
  revert k. induction l as [|x l IH]; intros k Hl; [constructor|].
  apply NoDup_cons in Hl as [Hx Hl]. destruct k as [|y k]; [constructor|].
  simpl. apply NoDup_cons. split; [|by apply IH].
  intros Hin. by apply Hx, (zip_fst_elem l k).
Qed.

Lemma NoDup_zip_snd {A B} (l : list A) (k : list B) :
  NoDup k -> NoDup (zip l k).*2.
Proof.
  revert l. induction k as [|y k IH]; intros l Hk.
  { rewrite zip_nil_r. constructor. }
  apply NoDup_cons in Hk as [Hy Hk]. destruct l as [|x l]; [constructor|].
  simpl. apply NoDup_cons. split; [|by apply IH].
  intros Hin. by apply Hy, (zip_snd_elem l k).
Qed.

Lemma pair_unique_snd {A B} (es : list (A * B)) (a b : A) (p : B) :
  NoDup es.*2 -> (a, p) ∈ es -> (b, p) ∈ es -> a = b.
Proof.
  induction es as [|e es IH]; intros Hnd Ha Hb.
  { by apply elem_of_nil in Ha. }
  rewrite fmap_cons in Hnd. apply NoDup_cons in Hnd as [He Hnd].
  apply elem_of_cons in Ha as [<- | Ha]; apply elem_of_cons in Hb as [Hb | Hb].
  - by simplify_eq.
  - destruct He. apply list_elem_of_fmap. by exists (b, p).
  - destruct He. subst e. apply list_elem_of_fmap. by exists (a, p).
  - by apply IH.
Qed.

(** What [new_edges] is made of. *)
Lemma new_edges_facts (nodes : store) (ins params : list string) :
  fill_ready nodes ins params ->
  let es := new_edges nodes ins params in
  NoDup es.*1 /\ NoDup es.*2 /\
  (forall x y, x ∈ es.*1 -> y ∈ es.*2 -> x ≠ y) /\
  (forall a, a ∈ es.*1 -> a ∈ ins /\ eligible nodes a = true) /\
  (forall p, p ∈ es.*2 -> p ∈ params /\ unmapped nodes p = true).
Proof.
  intros (Hnd1 & Hnd2 & Hins & Hps). unfold new_edges.
  assert (forall a, a ∈ (zip (filter (fun x => eligible nodes x) ins)
                          (filter (fun p => unmapped nodes p) params)).*1 ->
                    a ∈ ins /\ eligible nodes a = true) as H1.
  { intros a [Ha ?]%zip_fst_elem%list_elem_of_filter.
    split; [done|]. by apply Is_true_true. }
  assert (forall p, p ∈ (zip (filter (fun x => eligible nodes x) ins)
                          (filter (fun p => unmapped nodes p) params)).*2 ->
                    p ∈ params /\ unmapped nodes p = true) as H2.
  { intros a [Ha ?]%zip_snd_elem%list_elem_of_filter.
    split; [done|]. by apply Is_true_true. }
  split_and!; [| | |done..].
  - by apply NoDup_zip_fst, NoDup_filter.
  - by apply NoDup_zip_snd, NoDup_filter.
  - intros x y [Hx _]%H1 [Hy _]%H2 ->.
    eapply Forall_forall in Hins as (Hn & _); [|exact Hx]. done.
Qed.

Lemma fill_pass_result (nodes : store) (ins params : list string) :
  fill_ready nodes ins params ->
  fill_pass ins params nodes
  = Ok (foldl add_edge nodes (new_edges nodes ins params)).
Proof.
  intros Hready. unfold fill_pass.
  by destruct (fill_steps ins nodes params Hready) as (rest' & ->).
Qed.

Lemma eligible_inv (nodes : store) (a : string) :
  eligible nodes a = true ->
  exists n, nodes !! a = Some n /\ n_to n = Some [] /\ n_automap n = true.
Proof.
  unfold eligible. destruct (nodes !! a) as [n|]; [|done].
  destruct (n_to n) as [[|]|] eqn:E; [|done..]. by exists n.
Qed.

Lemma unmapped_inv (nodes : store) (p : string) :
  unmapped nodes p = true ->
  exists n, nodes !! p = Some n /\ has_src n = false.
Proof.
  unfold unmapped. destruct (nodes !! p) as [n|]; [|done].
  intros ?%negb_true_iff. by exists n.
Qed.

(** After the pass, an input controls the parameter it was paired with,
    or what it controlled before. *)
Lemma controls_after (nodes : store) (ins params : list string) (a p : string) :
  fill_ready nodes ins params ->
  a ∈ ins ->
  controls (foldl add_edge nodes (new_edges nodes ins params)) a p ->
  (a, p) ∈ new_edges nodes ins params \/
  ((a ∉ (new_edges nodes ins params).*1) /\ controls nodes a p).
Proof.
  intros Hready Ha (to & Hto & Hp).
  destruct (new_edges_facts nodes ins params Hready)
    as (Hnd1 & Hnd2 & Hdis & Hfst & Hsnd).
  destruct (decide (a ∈ (new_edges nodes ins params).*1)) as [Hin | Hout].
  - left. pose proof Hin as ([a' q] & -> & Haq)%list_elem_of_fmap. simpl in *.
    destruct (add_edges_pair _ nodes a' q Hnd1 Hnd2 Hdis Haq) as [Hlook _].
    destruct (Hfst a' Hin) as [_ (n & Hn & Hn_to & _)%eligible_inv].
    unfold to_of in Hto. rewrite Hlook, Hn in Hto. simpl in Hto.
    rewrite Hn_to in Hto. simpl in Hto. simplify_eq.
    by apply list_elem_of_singleton in Hp as ->.
  - right. split; [done|]. exists to. split; [|done].
    unfold to_of in *. rewrite add_edges_other in Hto; [done..|].
    intros [Hpar _]%Hsnd. destruct Hready as (_ & _ & Hins & _).
    eapply Forall_forall in Hins as (Hn & _); [|exact Ha]. done.
Qed.

(** C3.  When the inputs and the parameters are ready for the pass, it
    succeeds, and with [served] the inputs that are flagged automap and have
    an empty [to] list, in the order of the input table, and [free] the
    parameters without [src], in the order of their declaration: the new
    edges are as many as the shorter of the two lists is long; the i-th
    served input becomes the [src] of the i-th free parameter, which becomes
    the only entry of its [to] list; no other node changes; and no parameter
    ends in the [to] lists of two inputs when none was before. *)
Theorem fill_pass_pairs_in_order
    (nodes : store) (input_names params : list string) :
  fill_ready nodes input_names params ->
  let served := filter (fun x => eligible nodes x) input_names in
  let free := filter (fun p => unmapped nodes p) params in
  let edges := new_edges nodes input_names params in
  exists nodes',
    fill_pass input_names params nodes = Ok nodes' /\
    edges = zip served free /\
    length edges = min (length served) (length free) /\
    (forall i name param,
       served !! i = Some name -> free !! i = Some param ->
       src_of nodes' param = Some name /\ to_of nodes' name = Some [param]) /\
    (forall k, k ∉ edges.*1 -> k ∉ edges.*2 -> nodes' !! k = nodes !! k) /\
    (single_controller nodes input_names params ->
     single_controller nodes' input_names params).
Proof.
  intros Hready served free edges. subst served free edges.
  pose proof (new_edges_facts nodes input_names params Hready)
    as (Hnd1 & Hnd2 & Hdis & Hfst & Hsnd).
  pose proof (controls_after nodes input_names params) as Hafter.
  rewrite (fill_pass_result _ _ _ Hready).
  remember (new_edges nodes input_names params) as edges eqn:Hedges.
  exists (foldl add_edge nodes edges).
  split_and!; [done|done|rewrite Hedges; apply length_zip| | |].
  - intros i name param Hs Hf.
    assert ((name, param) ∈ edges) as Hin.
    { rewrite Hedges. apply list_elem_of_lookup. exists i.
      by apply lookup_zip_Some. }
    destruct (add_edges_pair _ nodes name param Hnd1 Hnd2 Hdis Hin) as [Ha Hp].
    assert (name ∈ edges.*1) as [_ (n & Hn & Hn_to & _)%eligible_inv]%Hfst.
    { apply list_elem_of_fmap. by exists (name, param). }
    assert (param ∈ edges.*2) as [_ (pn & Hpn & _)%unmapped_inv]%Hsnd.
    { apply list_elem_of_fmap. by exists (name, param). }
    unfold src_of, to_of. rewrite Ha, Hp, Hn, Hpn. simpl. by rewrite Hn_to.
  - intros k Hk1 Hk2. by apply add_edges_other.
  - intros [Hone Hsrc]. split.
    + intros a b p Ha Hb Hp Hca Hcb.
      apply (Hafter _ _ Hready Ha) in Hca as [Hca | [_ Hca]];
        apply (Hafter _ _ Hready Hb) in Hcb as [Hcb | [_ Hcb]].
      * by eapply pair_unique_snd.
      * assert (p ∈ edges.*2) as [_ Hun]%Hsnd.
        { apply list_elem_of_fmap. by exists (a, p). }
        by rewrite (Hsrc b p) in Hun.
      * assert (p ∈ edges.*2) as [_ Hun]%Hsnd.
        { apply list_elem_of_fmap. by exists (b, p). }
        by rewrite (Hsrc a p) in Hun.
      * by eapply Hone.
    + intros a p Ha Hp Hc.
      pose proof Hready as (_ & _ & Hins & Hps).
      apply (Hafter _ _ Hready Ha) in Hc as [Hc | [_ Hc]].
      * destruct (add_edges_pair _ nodes a p Hnd1 Hnd2 Hdis Hc) as [_ Hlook].
        eapply Forall_forall in Hins as (_ & Hne & _); [|exact Ha].
        eapply Forall_forall in Hps as (_ & [pn Hpn]); [|exact Hp].
        unfold unmapped. rewrite Hlook, Hpn. simpl.
        unfold has_src. simpl. by rewrite bool_decide_eq_false_2.
      * specialize (Hsrc a p Ha Hp Hc).
        unfold unmapped in *. rewrite add_edges_other; [done| |].
        -- intros [Hin _]%Hfst.
           eapply Forall_forall in Hins as (Hn & _); [|exact Hin]. done.
        -- intros [_ Hun]%Hsnd. unfold unmapped in Hun. by rewrite Hsrc in Hun.
Qed.

Lemma fill_pass_pairs_in_order_witness :
  exists nodes',
    fill_pass (alist_keys (inputs knob_hw)) (rnbo_params synth_graph)
      (nodes synth_graph) = Ok nodes' /\
    src_of nodes' "rnbo_param_knob1_cutoff_0" = Some "knob1" /\
    src_of nodes' "rnbo_param_res_1" = Some "knob2" /\
    src_of nodes' "rnbo_param_drive_2" = Some "knob3" /\
    to_of nodes' "knob3" = Some ["rnbo_param_drive_2"] /\
    src_of nodes' "rnbo_param_mix_3" = None.
Proof.
  destruct (fill_pass_pairs_in_order (nodes synth_graph)
              (alist_keys (inputs knob_hw)) (rnbo_params synth_graph))
    as (nodes' & Hpass & _ & _ & Hpairs & Hother & _).
  { unfold fill_ready. compute_done. }
  exists nodes'. split; [exact Hpass|].
  destruct (Hpairs 0%nat "knob2" "rnbo_param_res_1") as [Hres _];
    [reflexivity..|].
  destruct (Hpairs 1%nat "knob3" "rnbo_param_drive_2") as [Hdrive Hknob3];
    [reflexivity..|].
  split_and!; [|exact Hres|exact Hdrive|exact Hknob3|].
  - unfold src_of. rewrite Hother; [reflexivity|compute_done..].
  - unfold src_of. rewrite Hother; [reflexivity|compute_done..].
Defined.

(** ** Audio outputs without source *)

Lemma assigned_has_src (nodes : store) (name : string) (n : node) :
  nodes !! name = Some n -> assigned nodes name = has_src n.
Proof. intros H. unfold assigned. by rewrite H. Qed.

(** The pass, from position [k] on with the list [av] of the outputs that
    had a source before that position. *)
Lemma normal_steps (outs : list string) :
  forall (k : nat) (av : list string) (nodes : store),
    NoDup outs -> Forall (fun x => is_Some (nodes !! x)) outs ->
    exists nodes',
      fold_result normal_step (nodes, av) (imap (fun j => pair (k + j)%nat) outs)
      = Ok (nodes', av ++ filter (fun x => assigned nodes x) outs) /\
      (forall x, x ∉ outs -> nodes' !! x = nodes !! x) /\
      (forall j name n,
         outs !! j = Some name -> nodes !! name = Some n ->
         nodes' !! name
         = Some (if has_src n then n
                 else
                   let avj :=
                     av ++ filter (fun x => assigned nodes x) (take j outs) in
                   match avj !! ((k + j) mod length avj)%nat with
                   | Some a => with_src a n
                   | None => n
                   end)).
Proof.
  induction outs as [|name outs IH]; intros k av nodes Hnd Hall.
  { exists nodes. rewrite filter_nil, app_nil_r. by split_and!. }
  apply NoDup_cons in Hnd as [Hname Hnd].
  apply Forall_cons in Hall as [[n Hn] Hall].
  rewrite imap_cons. cbn [fold_result]. unfold normal_step at 1, get_node.
  rewrite Nat.add_0_r, Hn. cbn [bind].
  rewrite (imap_ext _ (fun j => pair (S k + j)%nat)); last first.
  { intros j x _. simpl. f_equal. lia. }
  rewrite filter_cons, (assigned_has_src _ _ _ Hn).
  destruct (has_src n) eqn:Hsrc.
  - cbn [bind].
    destruct (IH (S k) (av ++ [name]) nodes Hnd Hall) as (nodes' & -> & Hout & Hin).
    exists nodes'. rewrite decide_True by done.
    split_and!; [by rewrite <- app_assoc| |].
    + intros x [? ?]%not_elem_of_cons. by apply Hout.
    + intros [|j] name' n' Hj Hn'; simpl in Hj.
      * simplify_eq. rewrite Hout by done. by rewrite Hn, Hsrc.
      * rewrite (Hin j name' n' Hj Hn'). simpl.
        rewrite filter_cons, (assigned_has_src _ _ _ Hn), Hsrc.
        rewrite decide_True by done.
        rewrite <- app_assoc. simpl. by rewrite Nat.add_succ_r.
  - rewrite decide_False by by intros [].
    destruct (bool_decide (length av = 0%nat)) eqn:Hlen;
      [|destruct (av !! (k mod length av)%nat) as [a|] eqn:Ha].
    + cbn [bind]. apply bool_decide_eq_true, nil_length_inv in Hlen as ->.
      destruct (IH (S k) [] nodes Hnd Hall) as (nodes' & -> & Hout & Hin).
      exists nodes'. split_and!; [done| |].
      * intros x [? ?]%not_elem_of_cons. by apply Hout.
      * intros [|j] name' n' Hj Hn'; simpl in Hj.
        -- simplify_eq. rewrite Hout by done. by rewrite Hn, Hsrc.
        -- rewrite (Hin j name' n' Hj Hn'). simpl.
           rewrite filter_cons, (assigned_has_src _ _ _ Hn), Hsrc.
           rewrite decide_False by by intros []. by rewrite Nat.add_succ_r.
    + cbn [bind].
      destruct (IH (S k) av (<[name := with_src a n]> nodes) Hnd)
        as (nodes' & -> & Hout & Hin).
      { eapply Forall_impl; [exact Hall|]. intros x Hx.
        by apply lookup_insert_is_Some'; right. }
      assert (forall l : list string, name ∉ l ->
                filter (fun x => assigned (<[name := with_src a n]> nodes) x) l
                = filter (fun x => assigned nodes x) l) as Hfil.
      { intros l Hl. apply filter_bool_ext. intros x Hx. unfold assigned.
        rewrite lookup_insert_ne; [done|]. by intros ->. }
      exists nodes'. rewrite Hfil by done. split_and!; [done| |].
      * intros x [? ?]%not_elem_of_cons.
        rewrite Hout by done. by rewrite lookup_insert_ne.
      * intros [|j] name' n' Hj Hn'; simpl in Hj.
        -- simplify_eq. rewrite Hout by done.
           rewrite lookup_insert_eq, Hsrc. simpl.
           by rewrite app_nil_r, Nat.add_0_r, Ha.
        -- assert (name' ≠ name) as Hne.
           { intros ->. apply Hname. by eapply list_elem_of_lookup_2. }
           rewrite (Hin j name' n' Hj) by by rewrite lookup_insert_ne.
           simpl. rewrite filter_cons, (assigned_has_src _ _ _ Hn), Hsrc.
           rewrite decide_False by by intros [].
           rewrite Hfil, Nat.add_succ_r; [done|].
           intros Hin'. by apply Hname, (subseteq_take j outs).
    + cbn [bind].
      destruct (IH (S k) av nodes Hnd Hall) as (nodes' & -> & Hout & Hin).
      exists nodes'. split_and!; [done| |].
      * intros x [? ?]%not_elem_of_cons. by apply Hout.
      * intros [|j] name' n' Hj Hn'; simpl in Hj.
        -- simplify_eq. rewrite Hout by done. rewrite Hn, Hsrc. simpl.
           by rewrite app_nil_r, Nat.add_0_r, Ha.
        -- rewrite (Hin j name' n' Hj Hn'). simpl.
           rewrite filter_cons, (assigned_has_src _ _ _ Hn), Hsrc.
           rewrite decide_False by by intros []. by rewrite Nat.add_succ_r.
Qed.

(** C7 as the specification states it fails on a slot that comes before
    the first assigned one.  The first outlet of [cv_patch] is rerouted to
    the CV output, so that the first audio output has no source; the second
    audio output has one; and the first stays without source after the
    pass, although an output was assigned. *)
Lemma normal_audio_outs_counterexample :
  exists g,
    generate_app cv_hw cv_patch = Ok g /\
    src_of (nodes g) "dsy_out1" = None /\
    src_of (nodes g) "dsy_out2" = Some "dsy_out2".
Proof. eexists. split; [vm_compute; reflexivity|]. split; reflexivity. Qed.

(** C7, amended.  The pass succeeds on outputs that have nodes.  An output
    without source that comes after at least one output with a source gets
    the name of one of those as its [src]: the one at the position of the
    output modulo their number.  An output without source that no output
    with a source comes before stays without source, as all of them do when
    no output has a source.  Outputs that have a source, and all other
    nodes, stay as they are. *)
Theorem normal_audio_outs_echo (nodes : store) (outs : list string) :
  NoDup outs -> Forall (fun x => is_Some (nodes !! x)) outs ->
  exists nodes',
    normal_audio_outs outs nodes = Ok nodes' /\
    (forall i name n,
       outs !! i = Some name -> nodes !! name = Some n -> has_src n = false ->
       let earlier := available_at nodes outs i in
       (earlier = [] -> nodes' !! name = Some n) /\
       (earlier ≠ [] ->
        exists a, earlier !! (i mod length earlier)%nat = Some a /\
                  a ∈ take i outs /\ assigned nodes a = true /\
                  nodes' !! name = Some (with_src a n))) /\
    (forall name n,
       name ∈ outs -> nodes !! name = Some n -> has_src n = true ->
       nodes' !! name = Some n) /\
    (forall x, x ∉ outs -> nodes' !! x = nodes !! x).
Proof.
  intros Hnd Hall.
  destruct (normal_steps outs 0 [] nodes Hnd Hall) as (nodes' & Hfold & Hout & Hin).
  exists nodes'. unfold normal_audio_outs.
  change (imap pair outs) with (imap (fun j => pair (0 + j)%nat) outs).
  rewrite Hfold. split_and!; [done| | |done].
  - intros i name n Hi Hn Hsrc. unfold available_at.
    specialize (Hin i name n Hi Hn). rewrite Hsrc in Hin. simpl in Hin.
    split.
    + intros Hnil. by rewrite Hnil in Hin.
    + intros Hne.
      destruct (lookup_lt_is_Some_2
                  (filter (fun x => assigned nodes x) (take i outs))
                  (i mod length (filter (fun x => assigned nodes x) (take i outs))))
        as [a Ha].
      { apply Nat.mod_upper_bound. intros Hlen%nil_length_inv. done. }
      exists a. rewrite Ha in Hin. split_and!; [done| | |done].
      * apply list_elem_of_lookup_2 in Ha. by apply list_elem_of_filter in Ha as [_ ?].
      * apply list_elem_of_lookup_2 in Ha.
        apply list_elem_of_filter in Ha as [Ha _]. by apply Is_true_true.
  - intros name n [i Hi]%list_elem_of_lookup Hn Hsrc.
    rewrite (Hin i name n Hi Hn). by rewrite Hsrc.
Qed.

Lemma normal_audio_outs_echo_witness :
  exists nodes',
    normal_audio_outs ["dsy_out1"; "dsy_out2"; "dsy_out3"] (nodes echo_graph)
    = Ok nodes' /\
    src_of (nodes echo_graph) "dsy_out1" = Some "dsy_out1" /\
    src_of (nodes echo_graph) "dsy_out2" = None /\
    src_of (nodes echo_graph) "dsy_out3" = None /\
    src_of nodes' "dsy_out1" = Some "dsy_out1" /\
    src_of nodes' "dsy_out2" = Some "dsy_out1" /\
    src_of nodes' "dsy_out3" = Some "dsy_out1".
Proof.
  destruct (normal_audio_outs_echo (nodes echo_graph)
              ["dsy_out1"; "dsy_out2"; "dsy_out3"])
    as (nodes' & Hpass & Hecho & Hkeep & _); [compute_done..|].
  exists nodes'. split; [exact Hpass|].
  pose proof (Hkeep "dsy_out1" _ ltac:(compute_done) eq_refl eq_refl) as H1.
  destruct (Hecho 1%nat "dsy_out2" _ eq_refl eq_refl eq_refl)
    as [_ (a2 & Ha2 & _ & _ & H2)]; [done|].
  destruct (Hecho 2%nat "dsy_out3" _ eq_refl eq_refl eq_refl)
    as [_ (a3 & Ha3 & _ & _ & H3)]; [done|].
  vm_compute in Ha2, Ha3. simplify_eq.
  unfold src_of at 4 5 6. rewrite H1, H2, H3.
  split_and!; reflexivity.
Defined.

(** ** The automap flag *)








(** * Further properties *)

(** ** The key that wins is the longest one *)

Lemma strip_prefix_Some (k s r : string) :
  strip_prefix k s = Some r <-> s = k +:+ r.
Proof.
  revert s. induction k as [|a k IH]; intros s; simpl.
  - rewrite append_nil_l. split; congruence.
  - destruct s as [|b s]; rewrite append_cons; [split; congruence|].
    case_bool_decide as Hab.
    + subst. rewrite IH. split; congruence.
    + split; congruence.
Qed.

Lemma matches_prefix (label k : string) :
  matches label k <-> exists rest, label = k +:+ rest.
Proof.
  unfold matches, label_exec. split.
  - destruct (strip_prefix k label) as [r|] eqn:H; [|by intros [? ?]].
    intros _. exists r. by apply strip_prefix_Some.
  - intros [r Hr]. apply strip_prefix_Some in Hr. by rewrite Hr.
Qed.

Lemma string_le_cons (a : ascii) (s t : string) :
  String.le (String a s) (String a t) -> String.le s t.
Proof.
  unfold String.le, String.leb. simpl.
  assert (Ascii.compare a a = Eq) as ->; [|done].
  unfold Ascii.compare. apply N.compare_refl.
Qed.

Lemma common_prefix_ordered (k1 : string) :
  forall k2 r1 r2 : string,
    k1 +:+ r1 = k2 +:+ r2 -> String.le k1 k2 -> exists mid, k2 = k1 +:+ mid.
Proof.
  induction k1 as [|a k1 IH]; intros k2 r1 r2 Heq Hle.
  - by exists k2.
  - destruct k2 as [|b k2]; [done|].
    rewrite !append_cons in Heq. injection Heq as -> Heq.
    apply string_le_cons in Hle.
    destruct (IH _ _ _ Heq Hle) as [mid ->]. by exists mid.
Qed.

Lemma length_append (s t : string) :
  String.length (s +:+ t) = (String.length s + String.length t)%nat.
Proof. induction s as [|c s IH]; [done|]. rewrite append_cons. simpl. by rewrite IH. Qed.

(** X1: in a table whose keys hold no syntax character of regular
    expressions, the key that the search settles on is a key of the table
    that begins the label, and every other key of the table that begins the
    label begins the chosen key too: the longest matching key wins. *)
Theorem longest_key_wins (table : gmap string string) (label k : string) :
  plain_keys table ->
  last_match table label = Some k ->
  is_Some (table !! k) /\ (exists rest, label = k +:+ rest) /\
  (forall k', is_Some (table !! k') -> (exists rest, label = k' +:+ rest) ->
     (exists mid, k = k' +:+ mid) /\ (String.length k' <= String.length k)%nat).
Proof.
  unfold last_match. intros _ Hlast.
  assert (k ∈ filter (matches label) (sorted_keys table)) as Hk.
  { apply last_Some in Hlast as [l' ->]. apply elem_of_app. right. by left. }
  apply list_elem_of_filter in Hk as [Hm Hk].
  split; [by apply elem_of_sorted_keys|].
  split; [by apply matches_prefix|].
  intros k' Hk' Hpre.
  assert (String.le k' k) as Hle.
  { eapply (sorted_last_greatest String.le); [| exact Hlast |].
    - apply StronglySorted_filter, sorted_keys_sorted.
    - apply list_elem_of_filter. split; [by apply matches_prefix|].
      by apply elem_of_sorted_keys. }
  destruct Hpre as [r1 Hr1]. apply matches_prefix in Hm as [r2 Hr2].
  destruct (common_prefix_ordered k' k r1 r2) as [mid ->]; [congruence|done|].
  split; [by exists mid|]. rewrite length_append. lia.
Qed.

Lemma longest_key_wins_witness :
  is_Some (cv_table !! "cv1") /\ (exists rest, "cv1_pitch" = "cv1" +:+ rest) /\
  (forall k', is_Some (cv_table !! k') -> (exists rest, "cv1_pitch" = k' +:+ rest) ->
     (exists mid, "cv1" = k' +:+ mid) /\ (String.length k' <= String.length "cv1")%nat).
Proof.
  apply (longest_key_wins cv_table "cv1_pitch" "cv1");
    [unfold plain_keys; compute_done|reflexivity].
Defined.

(** ** The naming convention of the labels *)






(** ** A label that no key begins *)

Lemma no_key_no_match (table : gmap string string) (label : string) :
  (forall k rest, is_Some (table !! k) -> label ≠ k +:+ rest) ->
  filter (matches label) (sorted_keys table) = [].
Proof.
  intros Hno.
  destruct (filter (matches label) (sorted_keys table)) as [|k l] eqn:Hf; [done|].
  assert (k ∈ filter (matches label) (sorted_keys table)) as Hk
    by (rewrite Hf; left).
  apply list_elem_of_filter in Hk as [Hm Hk].
  apply matches_prefix in Hm as [rest Hrest].
  apply elem_of_sorted_keys in Hk. by destruct (Hno k rest).
Qed.

(** X3: when the keys of the table hold no syntax character of regular
    expressions and no key of the table begins the label, the search finds
    nothing: neither a mapping nor a label; so it is for an empty table. *)
Theorem no_key_nothing_found (table : gmap string string) (label : string) :
  plain_keys table ->
  (forall k rest, is_Some (table !! k) -> label ≠ k +:+ rest) ->
  last_match table label = None /\
  resolve_label table label = nothing_found /\
  truthy_map (resolve_label table label) = None.
Proof.
  intros _ Hno. pose proof (no_key_no_match table label Hno) as Hnil.
  unfold last_match, resolve_label. rewrite resolve_fold, Hnil. done.
Qed.

Lemma no_key_nothing_found_witness :
  resolve_label cv_table "out" = nothing_found.
Proof.
  apply (no_key_nothing_found cv_table "out");
    [unfold plain_keys; compute_done|].
  intros k rest [v Hv] Heq. unfold cv_table in Hv.
  repeat (apply lookup_insert_Some in Hv as [[<- _]|[_ Hv]]; [discriminate Heq|]).
  by rewrite lookup_empty in Hv.
Defined.

(** ** A type qualifier in the label *)

Lemma resolve_param_fold (table : gmap string string) (name : string)
    (ks : list string) :
  forall acc : psearch,
    match last (filter (matches name) ks) with
    | Some k =>
        exists acc', foldl (param_step table name) acc ks
                     = param_step table name acc' k
    | None => foldl (param_step table name) acc ks = acc
    end.
Proof.
  induction ks as [|x ks IH] using rev_ind; intros acc; [done|].
  rewrite foldl_app, filter_app, filter_cons, filter_nil. simpl.
  destruct (decide (matches name x)) as [Hx|Hx].
  - rewrite last_snoc. by eexists.
  - rewrite app_nil_r. specialize (IH acc).
    assert (forall a, param_step table name a x = a) as Hstep.
    { intros a. unfold param_step. unfold matches in Hx.
      destruct (label_exec x name); [|done]. by destruct Hx. }
    destruct (last (filter (matches name) ks)) as [k|].
    + destruct IH as [acc' ->]. rewrite Hstep. by eexists.
    + by rewrite IH, Hstep.
Qed.

Lemma type_qualifier_not_float (label : string) (t : ptype) (rest : option string) :
  type_qualifier label = Some (t, rest) -> t ≠ TFloat.
Proof.
  unfold type_qualifier, qualifier_rest.
  repeat case_match; congruence.
Qed.

(** X6: in a table whose keys hold no syntax character of regular
    expressions, when the label that the last matching key leaves carries
    the qualifier [int] or [bool], the parameter has that type, the rest of
    the label, the source of that key, and a step size of one whatever its
    range. *)
Theorem qualified_param_unit_step (table : gmap string string) (p : paramdesc)
    (k : string) (cap : option string) (t : ptype) (rest : option string) :
  plain_keys table ->
  last_match table (p_name p) = Some k ->
  label_exec k (p_name p) = Some cap ->
  type_qualifier (maplabel_of (p_name p) cap) = Some (t, rest) ->
  (make_param table p).2 = table !! k /\
  pn_type (make_param table p).1 = t /\ t ≠ TFloat /\
  pn_label (make_param table p).1 = str_or rest (maplabel_of (p_name p) cap) /\
  pn_stepsize (make_param table p).1 = 1%Q.
Proof.
  intros _ Hlast Hexec Hq. simpl. unfold resolve_param.
  pose proof (resolve_param_fold table (p_name p) (sorted_keys table)
                (PSearch None (p_name p) TFloat)) as Hfold.
  unfold last_match in Hlast. rewrite Hlast in Hfold.
  destruct Hfold as [acc' ->]. unfold param_step. rewrite Hexec, Hq. simpl.
  pose proof (type_qualifier_not_float _ _ _ Hq) as Ht.
  split_and!; try done. by destruct t.
Qed.

Lemma qualified_param_unit_step_witness :
  (make_param knob_table steps_param).2 = Some "knob1" /\
  pn_type (make_param knob_table steps_param).1 = TInt /\ TInt ≠ TFloat /\
  pn_label (make_param knob_table steps_param).1 = "steps" /\
  pn_stepsize (make_param knob_table steps_param).1 = 1%Q.
Proof.
  apply (qualified_param_unit_step knob_table steps_param "knob1"
           (Some "int_steps") TInt (Some "steps"));
    [unfold plain_keys; compute_done|reflexivity..].
Defined.

(** X7: when the keys of the table hold no syntax character of regular
    expressions, a parameter whose name no key of the table begins is a
    float called by its own name, with no source. *)
Theorem unlabelled_param_plain (table : gmap string string) (p : paramdesc) :
  plain_keys table ->
  (forall k rest, is_Some (table !! k) -> p_name p ≠ k +:+ rest) ->
  (make_param table p).2 = None /\
  pn_type (make_param table p).1 = TFloat /\
  pn_label (make_param table p).1 = p_name p.
Proof.
  intros _ Hno. simpl. unfold resolve_param.
  pose proof (resolve_param_fold table (p_name p) (sorted_keys table)
                (PSearch None (p_name p) TFloat)) as Hfold.
  rewrite (no_key_no_match table (p_name p) Hno) in Hfold. by rewrite Hfold.
Qed.

Lemma unlabelled_param_plain_witness :
  (make_param knob_table gain_param).2 = None /\
  pn_type (make_param knob_table gain_param).1 = TFloat /\
  pn_label (make_param knob_table gain_param).1 = "gain".
Proof.
  apply (unlabelled_param_plain knob_table gain_param);
    [unfold plain_keys; compute_done|].
  intros k rest [v Hv] Heq. unfold knob_table in Hv.
  repeat (apply lookup_insert_Some in Hv as [[<- _]|[_ Hv]]; [discriminate Heq|]).
  by rewrite lookup_empty in Hv.
Defined.

(** ** Defaults fill gaps only *)

Lemma alist_get_not_key {V} (o : alist V) (k : string) :
  k ∉ alist_keys o -> alist_get o k = None.
Proof.
  unfold alist_keys. induction o as [|[k' v] o IH]; [done|].
  rewrite fmap_cons, not_elem_of_cons. simpl. intros [Hne Hk].
  rewrite bool_decide_eq_false_2 by done. by apply IH.
Qed.

Lemma apply_defaults_get (shape : obj) :
  forall (def : obj) (key : string),
    NoDup (alist_keys shape) ->
    alist_get (apply_defaults shape def) key
    = if lacks def key
      then match alist_get shape key with
           | Some v => Some v
           | None => alist_get def key
           end
      else alist_get def key.
Proof.
  unfold apply_defaults, alist_keys.
  induction shape as [|[k v] shape IH]; intros def key Hnd.
  - simpl. by destruct (lacks def key).
  - rewrite fmap_cons in Hnd. apply NoDup_cons in Hnd as [Hk Hnd].
    cbn [foldl fst snd]. rewrite IH by done. cbn [alist_get].
    destruct (decide (k = key)) as [->|Hne].
    + rewrite bool_decide_eq_true_2 by done.
      rewrite (alist_get_not_key shape key) by done.
      destruct (lacks def key) eqn:Hl.
      * unfold lacks at 1. rewrite alist_get_set_eq. by destruct (is_nullish v).
      * by rewrite Hl.
    + rewrite bool_decide_eq_false_2 by done.
      destruct (lacks def k); [|done].
      unfold lacks. by rewrite alist_get_set_ne.
Qed.

(** X8: where [component_defs] is bound to a registry, fleshing out an
    instance of a kind of the registry gives it its key as name and fills
    only gaps: a field other than [name] keeps the value the instance gives
    it, unless the instance lacks it (the value is [undefined] or [null]),
    in which case it takes the default of the kind if there is one. *)
Theorem defaults_fill_gaps_only (g : ambient) (registry : alist obj)
    (name : string) (def shape : obj) :
  defs_bound g = Some registry ->
  alist_get registry (kind_of def) = Some shape ->
  NoDup (alist_keys shape) ->
  exists d,
    flesh_out g (name, def) = Ok d /\
    obj_get d "name" = JStr name /\
    (forall key, key ≠ "name" ->
       obj_get d key
       = if lacks def key
         then match alist_get shape key with
              | Some v => v
              | None => obj_get def key
              end
         else obj_get def key).
Proof.
  intros Hg Hshape Hnd. eexists. split; [by eapply flesh_out_known|]. split.
  - unfold obj_get at 1. rewrite apply_defaults_get by done.
    unfold lacks. rewrite alist_get_set_eq. done.
  - intros key Hkey. unfold obj_get at 1. rewrite apply_defaults_get by done.
    unfold lacks, obj_get. rewrite alist_get_set_ne by done.
    destruct (alist_get def key) as [v|]; simpl.
    + destruct (is_nullish v); [|done]. by destruct (alist_get shape key).
    + destruct (inherited key); simpl; [done|].
      by destruct (alist_get shape key).
Qed.

Lemma defaults_fill_gaps_only_witness :
  exists d,
    flesh_out (Ambient (Some component_defs) true)
      ("sw1", [("component", JStr "Switch"); ("pin", JStr "D7")]) = Ok d /\
    obj_get d "name" = JStr "sw1" /\ obj_get d "pin" = JStr "D7" /\
    obj_get d "pull" = JStr "daisy::Switch::PULL_UP".
Proof.
  destruct (defaults_fill_gaps_only (Ambient (Some component_defs) true)
              component_defs "sw1"
              [("component", JStr "Switch"); ("pin", JStr "D7")]
              (default [] (alist_get component_defs "Switch")))
    as (d & Hd & Hname & Hrest); [reflexivity|reflexivity|compute_done|].
  exists d. split; [exact Hd|]. split; [exact Hname|].
  split; [by rewrite (Hrest "pin")|by rewrite (Hrest "pull")].
Defined.

(** ** The components are sorted by kind, stably *)

Lemma insert_sorted_sorted (e : string * obj) (l : list (string * obj)) :
  StronglySorted kind_le l -> StronglySorted kind_le (insert_sorted e l).
Proof.
  induction 1 as [|e' l Hl IH Hall]; simpl.
  - repeat constructor.
  - destruct (decide (kind_le e e')) as [Hle|Hle].
    + constructor; [by constructor|]. constructor; [done|].
      eapply Forall_impl; [exact Hall|]. intros x Hx.
      unfold kind_le in *. by etrans.
    + constructor; [done|]. rewrite insert_sorted_perm.
      constructor; [|done]. unfold kind_le in *.
      by destruct (total String.le (kind_of e.2) (kind_of e'.2)).
Qed.

Lemma insert_sorted_filter (K : string) (e : string * obj)
    (l : list (string * obj)) :
  filter (fun x => kind_of x.2 = K) (insert_sorted e l)
  = filter (fun x => kind_of x.2 = K) (e :: l).
Proof.
  induction l as [|e' l IH]; [done|]. simpl.
  destruct (decide (kind_le e e')) as [Hle|Hle]; [done|].
  rewrite filter_cons, IH, !filter_cons.
  destruct (decide (kind_of e'.2 = K)) as [He'|He']; [|done].
  destruct (decide (kind_of e.2 = K)) as [He|He]; [|done].
  destruct Hle. unfold kind_le. by rewrite He, He'.
Qed.

(** X9: components that name their kinds by strings come out of the sort
    ordered by kind, they are the components that went in, and those of one
    kind keep the order in which the descriptor lists them. *)
Theorem components_sorted_stably (l : list (string * obj)) :
  string_kinds l ->
  StronglySorted kind_le (sort_by_kind l) /\
  sort_by_kind l ≡ₚ l /\
  (forall K, filter (fun x => kind_of x.2 = K) (sort_by_kind l)
             = filter (fun x => kind_of x.2 = K) l).
Proof.
  intros _. split; [|split].
  - induction l as [|e l IH]; [constructor|]. by apply insert_sorted_sorted.
  - apply sort_by_kind_perm.
  - intros K. induction l as [|e l IH]; [done|].
    simpl. rewrite insert_sorted_filter, !filter_cons, IH. done.
Qed.

Lemma components_sorted_stably_witness :
  sort_by_kind two_components
  = [("led1", [("component", JStr "Led")]);
     ("sw1", [("component", JStr "Switch"); ("automap", JBool true)])] /\
  StronglySorted kind_le (sort_by_kind two_components).
Proof.
  split; [reflexivity|].
  apply (components_sorted_stably two_components).
  unfold string_kinds, two_components.
  repeat constructor; eexists; reflexivity.
Defined.

(** ** The two notations in one fragment *)

Lemma occurs_append (c : ascii) (s t : string) :
  occurs c (s +:+ t) = occurs c s || occurs c t.
Proof.
  induction s as [|c' s IH]; [done|]. rewrite append_cons. simpl.
  by rewrite IH, orb_assoc.
Qed.

Lemma eval_text (vars : obj) (s : string) :
  map_result (eval_piece vars) (text_of s)
  = Ok ((fun c => String c EmptyString) <$> String.list_ascii_of_string s).
Proof.
  pose proof (map_result_text vars s []) as H.
  rewrite app_nil_r in H. rewrite H. simpl. by rewrite app_nil_r.
Qed.

Lemma join_chars (s : string) :
  join_strings ((fun c => String c EmptyString) <$> String.list_ascii_of_string s)
  = s.
Proof.
  unfold join_strings. induction s as [|c s IH]; [done|].
  cbn [String.list_ascii_of_string fmap list_fmap foldr]. by rewrite IH.
Qed.

Lemma template_name_between (component : obj) (pre post n : string) :
  occurs "$" pre = false ->
  scan_template Plain post = Some (text_of post) ->
  alist_get component "name" = Some (JStr n) ->
  template (pre +:+ "${name}" +:+ post) component = Ok (pre +:+ n +:+ post).
Proof.
  intros Hpre Hpost Hn. unfold template.
  rewrite scan_template_plain by done.
  change ("${name}" +:+ post)
    with (String "$" (String "{" ("name" +:+ String "}" post))).
  cbn [scan_template]. rewrite !bool_decide_eq_true_2 by done.
  rewrite scan_template_hole by done. rewrite append_nil_l, Hpost.
  cbn [fmap option_fmap option_map].
  rewrite map_result_text. cbn [map_result eval_piece]. rewrite Hn.
  cbn [bind]. rewrite eval_text. cbn [bind].
  rewrite join_strings_app, join_chars.
  change (join_strings (to_string (JStr n) :: ?l)) with (n +:+ join_strings l).
  unfold join_strings at 1. cbn [foldr]. fold (join_strings
    ((fun c => String c EmptyString) <$> String.list_ascii_of_string post)).
  by rewrite join_chars.
Qed.

(** X11: a fragment that reads the name of the component through the
    first notation and fields of the node through the second one is
    expanded in two steps that do not interfere: [template] replaces the
    name and leaves the placeholders of [interpolate] as they are, and
    [interpolate] then replaces those.  The keys of the component are
    names that a parameter can have, and the text around the name is text
    that a template literal takes as it stands. *)
Theorem template_then_interpolate (native : string -> string)
    (component node : obj) (pre post n : string) :
  parameter_names component ->
  literal pre = true -> literal post = true ->
  occurs "$" pre = false -> occurs "$" n = false ->
  scan_template Plain post = Some (text_of post) ->
  alist_get component "name" = Some (JStr n) ->
  exists code,
    template (pre +:+ "${name}" +:+ post) component = Ok code /\
    code = pre +:+ n +:+ post /\
    interpolate native code node = pre +:+ n +:+ interpolate native post node.
Proof.
  intros _ _ _ Hpre Hn Hpost Hname.
  eexists. split; [by apply template_name_between|].
  split; [done|]. unfold interpolate.
  rewrite <- append_assoc, scan_interpolate_plain
    by (by rewrite occurs_append, Hpre, Hn).
  by rewrite fmap_app, join_strings_app, join_render_text, append_assoc.
Qed.

Lemma template_then_interpolate_witness :
  exists code,
    template ("hardware." +:+ "${name}" +:+ ".SetRed($<name>);") rgb_component
    = Ok code /\
    code = "hardware." +:+ "led2" +:+ ".SetRed($<name>);" /\
    interpolate native_code code rgb_node
    = "hardware." +:+ "led2" +:+ interpolate native_code ".SetRed($<name>);" rgb_node.
Proof.
  apply (template_then_interpolate native_code rgb_component rgb_node
           "hardware." ".SetRed($<name>);" "led2");
    [split; compute_done|reflexivity..].
Defined.

(** ** What the registration keeps *)











(** ** The nodes of the hardware *)

Lemma numbered_cons (c : ascii) (p : string) (i : nat) :
  numbered (String c p) i = String c (numbered p i).
Proof. reflexivity. Qed.

Lemma numbered_inj (p : string) (i j : nat) :
  numbered p i = numbered p j -> i = j.
Proof.
  unfold numbered. intros H%(String.app_inj p)%(inj pretty). lia.
Qed.

Lemma NoDup_channel_names (p : string) (n : nat) : NoDup (channel_names p n).
Proof.
  unfold channel_names. apply NoDup_fmap_2_strong; [|apply NoDup_seq].
  intros i j _ _. apply numbered_inj.
Qed.

Lemma elem_of_channel_names (p k : string) (n : nat) :
  k ∈ channel_names p n <-> exists i, (i < n)%nat /\ k = numbered p i.
Proof.
  unfold channel_names. rewrite list_elem_of_fmap. split.
  - intros (i & -> & Hi). apply elem_of_seq in Hi. exists i. split; [lia|done].
  - intros (i & Hi & ->). exists i. split; [done|]. apply elem_of_seq. lia.
Qed.

Lemma lookup_channel_names (p : string) (n i : nat) :
  channel_names p n !! i = if decide (i < n)%nat then Some (numbered p i) else None.
Proof.
  unfold channel_names. rewrite list_lookup_fmap. case_decide.
  - by rewrite lookup_seq_lt.
  - by rewrite lookup_seq_ge by lia.
Qed.

Lemma lookup_add_nodes (mk : string -> node) (names : list string)
    (nodes : store) (k : string) :
  add_nodes mk names nodes !! k
  = if decide (k ∈ names) then Some (mk k) else nodes !! k.
Proof.
  unfold add_nodes. revert nodes.
  induction names as [|x names IH] using rev_ind; intros nodes.
  - done.
  - rewrite foldl_app. simpl. destruct (decide (k = x)) as [->|Hne].
    + rewrite lookup_insert_eq. rewrite decide_True; [done|].
      apply elem_of_app. right. by left.
    + rewrite lookup_insert_ne by done. rewrite IH.
      destruct (decide (k ∈ names)) as [Hin|Hin].
      * rewrite decide_True; [done|]. apply elem_of_app. by left.
      * rewrite decide_False; [done|].
        rewrite elem_of_app, list_elem_of_singleton. tauto.
Qed.

Lemma lookup_add_nodes_ne (mk : string -> node) (names : list string)
    (nodes : store) (k : string) :
  k ∉ names -> add_nodes mk names nodes !! k = nodes !! k.
Proof. intros H. by rewrite lookup_add_nodes, decide_False. Qed.

Lemma lookup_add_nodes_eq (mk : string -> node) (names : list string)
    (nodes : store) (k : string) :
  k ∈ names -> add_nodes mk names nodes !! k = Some (mk k).
Proof. intros H. by rewrite lookup_add_nodes, decide_True. Qed.

Lemma lookup_input_nodes (ins : alist input_entry) (nodes : store) (k : string) :
  k ∈ alist_keys ins ->
  exists e,
    foldl (fun m kv => <[kv.1 := input_node kv.1 kv.2]> m) nodes ins !! k
    = Some (input_node k e).
Proof.
  unfold alist_keys. revert nodes.
  induction ins as [|[x e] ins IH] using rev_ind; intros nodes Hk.
  - by apply elem_of_nil in Hk.
  - rewrite foldl_app. simpl. destruct (decide (k = x)) as [->|Hne].
    + exists e. by rewrite lookup_insert_eq.
    + rewrite lookup_insert_ne by done. apply IH.
      rewrite fmap_app, elem_of_app in Hk. destruct Hk as [Hk|Hk]; [done|].
      simpl in Hk. apply list_elem_of_singleton in Hk. done.
Qed.

Lemma reserved_dsy (p : string) (i : nat) :
  reserved (numbered ("dsy_" +:+ p) i) = true.
Proof. reflexivity. Qed.

Lemma fresh_rnbo (p : string) (i : nat) :
  fresh (numbered ("rnbo_" +:+ p) i) = true.
Proof. reflexivity. Qed.

Lemma fresh_glue (p : string) (i : nat) :
  fresh (numbered ("glue_" +:+ p) i) = true.
Proof. reflexivity. Qed.

Lemma fresh_reserved (k : string) : fresh k = true -> reserved k = true.
Proof. unfold reserved. intros ->. by rewrite orb_true_r. Qed.

Lemma fresh_not_dsy (p : string) (i : nat) :
  fresh (numbered ("dsy_" +:+ p) i) = false.
Proof. reflexivity. Qed.

Lemma fresh_varname (p : paramdesc) : fresh (varname_of p) = true.
Proof. reflexivity. Qed.

Lemma varname_not_empty (p : paramdesc) : varname_of p ≠ EmptyString.
Proof. done. Qed.

Lemma differ_by_prefix (p a b : string) :
  has_prefix p a = true -> has_prefix p b = false -> a ≠ b.
Proof. intros Ha Hb ->. congruence. Qed.

Section target.
Context (hw : hardware) (Hclean : clean_target hw).

Lemma input_not_reserved (k : string) :
  k ∈ alist_keys (inputs hw) ->
  k ≠ EmptyString /\ reserved k = false /\
  (k ∉ alist_keys (outputs hw)) /\ (k ∉ datahandlers hw).
Proof.
  destruct Hclean as (_ & Hin & _). rewrite Forall_forall in Hin. apply Hin.
Qed.

Lemma wired_generate_daisy : wired hw (generate_daisy hw).1.
Proof.
  unfold generate_daisy. cbv zeta. cbn [fst].
  set (nodes1 := foldl _ ∅ (inputs hw)).
  assert (forall k, reserved k = false ->
            (k ∉ channel_names "dsy_in" (io_count hw)) /\
            (k ∉ channel_names "dsy_out" (io_count hw)) /\
            (k ∉ (if has_midi_input hw then ["dsy_midi_in"] else [])) /\
            (k ∉ (if has_midi_output hw then ["dsy_midi_out"] else [])))
    as Hfree.
  { intros k Hk. split_and!.
    - intros (i & _ & ->)%elem_of_channel_names. done.
    - intros (i & _ & ->)%elem_of_channel_names. done.
    - destruct (has_midi_input hw); [|apply not_elem_of_nil].
      intros ->%list_elem_of_singleton. done.
    - destruct (has_midi_output hw); [|apply not_elem_of_nil].
      intros ->%list_elem_of_singleton. done. }
  split; [|split].
  - intros k Hk. destruct (input_not_reserved k Hk) as (_ & Hres & Hout & Hdata).
    destruct (Hfree k Hres) as (H1 & H2 & H3 & H4).
    destruct (lookup_input_nodes (inputs hw) ∅ k Hk) as [e He].
    unfold has_to, to_of. rewrite !lookup_add_nodes_ne by done.
    unfold nodes1. by rewrite He.
  - intros i Hi.
    assert (numbered "dsy_in" i ∈ channel_names "dsy_in" (io_count hw)) as Hin
      by (apply elem_of_channel_names; by exists i).
    assert (numbered "dsy_out" i ∈ channel_names "dsy_out" (io_count hw)) as Hout
      by (apply elem_of_channel_names; by exists i).
    assert (numbered "dsy_in" i ∉ channel_names "dsy_out" (io_count hw)) as Hio.
    { intros (j & _ & H)%elem_of_channel_names.
      by apply (differ_by_prefix "dsy_i") in H. }
    assert (forall p, has_prefix "dsy_m" (numbered p i) = false ->
              (numbered p i ∉ (if has_midi_input hw then ["dsy_midi_in"] else [])) /\
              (numbered p i ∉ (if has_midi_output hw then ["dsy_midi_out"] else [])))
      as Hmidi.
    { intros p Hp. split.
      - destruct (has_midi_input hw); [|apply not_elem_of_nil].
        intros H%list_elem_of_singleton. by rewrite H in Hp.
      - destruct (has_midi_output hw); [|apply not_elem_of_nil].
        intros H%list_elem_of_singleton. by rewrite H in Hp. }
    destruct (Hmidi "dsy_in" eq_refl) as [? ?].
    destruct (Hmidi "dsy_out" eq_refl) as [? ?].
    unfold has_to, to_of. split.
    + rewrite !lookup_add_nodes_ne by done. by rewrite lookup_add_nodes_eq.
    + rewrite !lookup_add_nodes_ne by done. by rewrite lookup_add_nodes_eq.
  - intros k Hk Hres. destruct (Hfree k Hres) as (H1 & H2 & H3 & H4).
    unfold has_from. rewrite !lookup_add_nodes_ne by done.
    by rewrite lookup_add_nodes_eq.
Qed.

End target.

(** ** What a step of the construction keeps *)

Lemma has_to_is_Some (nodes : store) (k : string) :
  has_to nodes k -> is_Some (nodes !! k).
Proof. unfold has_to, to_of. destruct (nodes !! k); [by eexists|by intros [? ?]]. Qed.

Lemma has_to_inv (nodes : store) (k : string) :
  has_to nodes k -> exists n to, nodes !! k = Some n /\ n_to n = Some to.
Proof.
  unfold has_to, to_of. destruct (nodes !! k) as [n|]; [|by intros [? ?]].
  simpl. intros [to Hto]. by exists n, to.
Qed.

Lemma has_from_inv (nodes : store) (k : string) :
  has_from nodes k -> exists n from, nodes !! k = Some n /\ n_from n = Some from.
Proof.
  unfold has_from. destruct (nodes !! k) as [n|]; [|by intros [? ?]].
  simpl. intros [from Hfrom]. by exists n, from.
Qed.

Lemma keeps_refl (S : list string) (nodes : store) : keeps_except S nodes nodes.
Proof. by split. Qed.

Lemma keeps_trans (S1 S2 : list string) (a b c : store) :
  keeps_except S1 a b -> keeps_except S2 b c -> keeps_except (S1 ++ S2) a c.
Proof.
  intros [Hd1 Hk1] [Hd2 Hk2]. split; [auto|].
  intros k Hk. rewrite not_elem_of_app in Hk. destruct Hk as [H1 H2].
  destruct (Hk1 k H1), (Hk2 k H2). split; auto.
Qed.

Lemma keeps_weaken (S S' : list string) (a b : store) :
  S ⊆ S' -> keeps_except S a b -> keeps_except S' a b.
Proof.
  intros Hsub [Hd Hk]. split; [done|]. intros k Hk'. apply Hk.
  intros H. apply Hk'. by apply Hsub.
Qed.

Lemma keeps_insert (k : string) (n : node) (nodes : store) :
  keeps_except [k] nodes (<[k := n]> nodes).
Proof.
  split.
  - intros k' Hk'. destruct (decide (k = k')) as [->|Hne].
    + rewrite lookup_insert_eq. by eexists.
    + by rewrite lookup_insert_ne.
  - intros k' Hk'. apply not_elem_of_cons in Hk' as [Hne _].
    unfold has_to, has_from, to_of. by rewrite lookup_insert_ne.
Qed.

Lemma keeps_update (k : string) (n n' : node) (nodes : store) :
  nodes !! k = Some n ->
  (is_Some (n_to n) -> is_Some (n_to n')) ->
  (is_Some (n_from n) -> is_Some (n_from n')) ->
  keeps_except [] nodes (<[k := n']> nodes).
Proof.
  intros Hn Hto Hfrom. split.
  - intros k' Hk'. destruct (decide (k = k')) as [->|Hne].
    + rewrite lookup_insert_eq. by eexists.
    + by rewrite lookup_insert_ne.
  - intros k' _. unfold has_to, has_from, to_of.
    destruct (decide (k = k')) as [->|Hne].
    + rewrite lookup_insert_eq, Hn. simpl. by split.
    + by rewrite lookup_insert_ne.
Qed.

Lemma keeps_to (S : list string) (a b : store) (k : string) :
  keeps_except S a b -> k ∉ S -> has_to a k -> has_to b k.
Proof. intros [_ H] Hk. by apply (H k Hk). Qed.

Lemma keeps_from (S : list string) (a b : store) (k : string) :
  keeps_except S a b -> k ∉ S -> has_from a k -> has_from b k.
Proof. intros [_ H] Hk. by apply (H k Hk). Qed.

Lemma keeps_dom (S : list string) (a b : store) (k : string) :
  keeps_except S a b -> is_Some (a !! k) -> is_Some (b !! k).
Proof. intros [H _]. exact (H k). Qed.

Lemma not_elem_of_singleton (a b : string) : a ≠ b -> a ∉ [b].
Proof. intros H ->%list_elem_of_singleton. done. Qed.

Lemma push_to_ok (k x : string) (nodes : store) :
  has_to nodes k ->
  exists nodes', push_to k x nodes = Ok nodes' /\ keeps_except [] nodes nodes'.
Proof.
  intros (n & to & Hn & Hto)%has_to_inv. unfold push_to, get_node.
  rewrite Hn. simpl. rewrite Hto. eexists. split; [done|].
  eapply keeps_update; [done| |done]. simpl. by eexists.
Qed.

Lemma push_from_ok (k x : string) (nodes : store) :
  has_from nodes k ->
  exists nodes', push_from k x nodes = Ok nodes' /\ keeps_except [] nodes nodes'.
Proof.
  intros (n & from & Hn & Hfrom)%has_from_inv. unfold push_from, get_node.
  rewrite Hn. simpl. rewrite Hfrom. eexists. split; [done|].
  eapply keeps_update; [done|done|]. simpl. by eexists.
Qed.

Lemma set_src_ok (k x : string) (nodes : store) :
  is_Some (nodes !! k) ->
  exists nodes', set_src k x nodes = Ok nodes' /\ keeps_except [] nodes nodes'.
Proof.
  intros [n Hn]. unfold set_src, get_node. rewrite Hn. simpl.
  eexists. split; [done|]. by eapply keeps_update.
Qed.

Lemma truthy_map_in_table (table : gmap string string) (label m : string) :
  truthy_map (resolve_label table label) = Some m ->
  m ≠ EmptyString /\ exists k, table !! k = Some m.
Proof.
  unfold resolve_label. rewrite resolve_fold.
  destruct (last (filter (matches label) (sorted_keys table))) as [k|]; [|done].
  unfold resolve_step. destruct (label_exec k label); [|done].
  unfold truthy_map. simpl. destruct (table !! k) as [[|c r]|] eqn:Hk; [done| |done].
  intros [= <-]. split; [done|]. by exists k.
Qed.

Lemma ps_src_in_table (table : gmap string string) (name v : string)
    (ks : list string) :
  forall acc,
    ps_src (foldl (param_step table name) acc ks) = Some v ->
    ps_src acc = Some v \/ exists k, table !! k = Some v.
Proof.
  induction ks as [|k ks IH]; intros acc; simpl; [by left|].
  intros [H|H]%IH; [|by right]. unfold param_step in H.
  destruct (label_exec k name); [|by left].
  destruct (type_qualifier _) as [[t rest]|]; right; by exists k.
Qed.

Lemma audio_ins_daisy (hw : hardware) :
  audio_ins (generate_daisy hw).2 = channel_names "dsy_in" (io_count hw).
Proof. reflexivity. Qed.

Lemma audio_outs_daisy (hw : hardware) :
  audio_outs (generate_daisy hw).2 = channel_names "dsy_out" (io_count hw).
Proof. reflexivity. Qed.

Lemma length_channel_names (p : string) (n : nat) :
  length (channel_names p n) = n.
Proof. unfold channel_names. by rewrite length_fmap, length_seq. Qed.

Section steps.
Context (hw : hardware) (Hclean : clean_target hw).

Lemma wired_keeps (S : list string) (nodes nodes' : store) :
  wired hw nodes -> keeps_except S nodes nodes' ->
  Forall (fun k => fresh k = true) S -> wired hw nodes'.
Proof.
  intros (Hin & Hch & Hout) [_ Hkeep] Hfresh. rewrite Forall_forall in Hfresh.
  assert (forall k, fresh k = false -> k ∉ S) as Hnot.
  { intros k Hk HS. apply Hfresh in HS. congruence. }
  assert (forall k, reserved k = false -> k ∉ S) as Hnot'.
  { intros k Hk. apply Hnot. destruct (fresh k) eqn:Hf; [|done].
    apply fresh_reserved in Hf. congruence. }
  split; [|split].
  - intros k Hk. destruct (input_not_reserved hw Hclean k Hk) as (_ & Hres & _).
    by apply (Hkeep k (Hnot' k Hres)), Hin.
  - intros i Hi. destruct (Hch i Hi) as [H1 H2]. split.
    + by apply (Hkeep _ (Hnot _ (fresh_not_dsy "in" i))).
    + by apply (Hkeep _ (Hnot _ (fresh_not_dsy "out" i))).
  - intros k Hk Hres. by apply (Hkeep k (Hnot' k Hres)), Hout.
Qed.

Lemma add_audio_in_ok (g : graph) (i : nat) (s : string) :
  wired hw (nodes g) ->
  exists g',
    add_audio_in (generate_daisy hw).2 g (i, s) = Ok g' /\
    keeps_except [numbered "rnbo_in" i] (nodes g) (nodes g') /\
    rnbo_audio_ins g' = rnbo_audio_ins g ++ [numbered "rnbo_in" i] /\
    rnbo_audio_outs g' = rnbo_audio_outs g /\
    rnbo_params g' = rnbo_params g /\
    app_audio_outs g' = app_audio_outs g.
Proof.
  intros (_ & Hch & _). unfold add_audio_in.
  rewrite audio_ins_daisy, length_channel_names, lookup_channel_names.
  set (name := numbered "rnbo_in" i).
  set (nodes1 := <[name := _]> (nodes g)).
  assert (keeps_except [name] (nodes g) nodes1) as Hk1 by apply keeps_insert.
  destruct (decide (i mod io_count hw < io_count hw)%nat) as [Hlt|Hge].
  - rewrite (numbered_cons "d" "sy_in"). cbv iota.
    rewrite <- (numbered_cons "d" "sy_in").
    destruct (push_to_ok (numbered "dsy_in" (i mod io_count hw)) name nodes1)
      as (nodes2 & -> & Hk2).
    { apply (keeps_to [name] (nodes g)); [done| |exact (proj1 (Hch _ Hlt))].
      apply not_elem_of_singleton.
      apply (differ_by_prefix "dsy_"); reflexivity. }
    cbn [bind]. eexists. split; [done|]. cbn [nodes rnbo_audio_ins
      rnbo_audio_outs rnbo_params app_audio_outs].
    split_and!; try done. exact (keeps_trans [name] [] _ _ _ Hk1 Hk2).
  - cbn [bind]. eexists. split; [done|]. by split_and!.
Qed.

Lemma label_leads_to_output (label m : string) :
  truthy_map (resolve_label (labels_outs hw) label) = Some m ->
  m ∈ alist_keys (outputs hw) /\ reserved m = false.
Proof.
  intros [Hne [k Hk]]%truthy_map_in_table.
  destruct Hclean as (_ & _ & _ & Houts).
  destruct (Houts k m Hk) as [->|?]; done.
Qed.

Lemma audio_out_tail {A} (src name label : string) (nodes1 : store)
    (mk : store -> A) :
  (forall k, k ∈ alist_keys (outputs hw) -> reserved k = false ->
     has_from nodes1 k) ->
  has_to nodes1 src -> src ≠ name -> fresh name = true ->
  let f := resolve_label (labels_outs hw) label in
  let node0 := Node (Some name) None None (Some src) None false None in
  let label' :=
    match truthy_map f with
    | Some _ => default label (f_maplabel f)
    | None => label
    end in
  exists nodes5,
    bind (match truthy_map f with
          | Some _ => Ok (<[name := node0]> nodes1)
          | None => set_src src src (<[name := node0]> nodes1)
          end)
      (fun nodes3 =>
         bind (get_node nodes3 name)
           (fun n =>
              bind (match truthy_map f with
                    | Some map =>
                        bind (push_from map src
                                (<[name := with_label label' n]> nodes3))
                          (fun nodes' => push_to src map nodes')
                    | None => Ok (<[name := with_label label' n]> nodes3)
                    end)
                (fun nodes5 => Ok (mk nodes5))))
    = Ok (mk nodes5) /\
    keeps_except [name] nodes1 nodes5.
Proof.
  intros Hfrom Hto Hne Hfresh f node0 label'.
  set (nodes2 := <[name := node0]> nodes1).
  assert (keeps_except [name] nodes1 nodes2) as Hk2 by apply keeps_insert.
  assert (src ∉ [name]) as Hsrc by (by apply not_elem_of_singleton).
  assert (has_to nodes2 src) as Hto2 by (by apply (keeps_to [name] nodes1)).
  destruct (truthy_map f) as [map|] eqn:Hmap.
  - cbn [bind]. unfold get_node at 1. unfold nodes2 at 1.
    rewrite lookup_insert_eq. cbn [bind].
    set (nodes4 := <[name := _]> nodes2).
    assert (keeps_except [name] nodes2 nodes4) as Hk4 by apply keeps_insert.
    destruct (label_leads_to_output label map Hmap) as [Hout Hres].
    assert (map ∉ [name]) as Hmn.
    { apply not_elem_of_singleton. intros ->.
      apply fresh_reserved in Hfresh. congruence. }
    assert (has_from nodes4 map) as Hf4.
    { apply (keeps_from [name] nodes2); [done..|].
      apply (keeps_from [name] nodes1); [done..|]. by apply Hfrom. }
    destruct (push_from_ok map src nodes4 Hf4) as (nodes' & -> & Hk5).
    cbn [bind].
    assert (has_to nodes' src) as Hto'.
    { apply (keeps_to [] nodes4); [done|apply not_elem_of_nil|].
      by apply (keeps_to [name] nodes2). }
    destruct (push_to_ok src map nodes' Hto') as (nodes5 & -> & Hk6).
    cbn [bind]. exists nodes5. split; [done|].
    apply (keeps_weaken ([name] ++ [name] ++ [] ++ [])).
    { intros x. rewrite !elem_of_app, !elem_of_nil. tauto. }
    eapply keeps_trans; [exact Hk2|]. eapply keeps_trans; [exact Hk4|].
    eapply keeps_trans; [exact Hk5|exact Hk6].
  - destruct (set_src_ok src src nodes2 (has_to_is_Some _ _ Hto2))
      as (nodes3 & -> & Hk3).
    cbn [bind].
    assert (is_Some (nodes3 !! name)) as [n Hn].
    { apply (keeps_dom [] nodes2); [done|].
      unfold nodes2. rewrite lookup_insert_eq. by eexists. }
    unfold get_node. rewrite Hn. cbn [bind].
    eexists. split; [done|].
    apply (keeps_weaken ([name] ++ [] ++ [name])).
    { intros x. rewrite !elem_of_app, !elem_of_nil. tauto. }
    eapply keeps_trans; [exact Hk2|]. eapply keeps_trans; [exact Hk3|].
    apply keeps_insert.
Qed.

Lemma add_audio_out_ok (g : graph) (i : nat) (s : string) :
  wired hw (nodes g) ->
  exists g',
    add_audio_out hw (generate_daisy hw).2 g (i, s) = Ok g' /\
    keeps_except [numbered "glue_out" i; numbered "rnbo_out" i]
      (nodes g) (nodes g') /\
    rnbo_audio_ins g' = rnbo_audio_ins g /\
    rnbo_audio_outs g' = rnbo_audio_outs g ++ [numbered "rnbo_out" i] /\
    rnbo_params g' = rnbo_params g /\
    app_audio_outs g'
    = app_audio_outs g
      ++ (if decide (i < io_count hw)%nat then [] else [numbered "glue_out" i]).
Proof.
  intros Hwired. unfold add_audio_out.
  rewrite audio_outs_daisy, lookup_channel_names.
  destruct Hwired as (_ & Hch & Hout).
  destruct (decide (i < io_count hw)%nat) as [Hlt|Hge].
  - destruct (numbered "dsy_out" i) as [|c r] eqn:Hsrc; [discriminate Hsrc|].
    cbn iota beta.
    destruct (audio_out_tail (String c r) (numbered "rnbo_out" i)
                (clean_label s) (nodes g)
                (fun nodes5 =>
                   Graph nodes5 (rnbo_audio_ins g)
                     (rnbo_audio_outs g ++ [numbered "rnbo_out" i])
                     (rnbo_params g) (app_audio_outs g ++ [])))
      as (nodes5 & Heq & Hk5); [done| | |reflexivity|].
    { rewrite <- Hsrc. exact (proj2 (Hch _ Hlt)). }
    { rewrite <- Hsrc. apply (differ_by_prefix "dsy_"); reflexivity. }
    eexists. split; [exact Heq|]. cbn [nodes rnbo_audio_ins rnbo_audio_outs
      rnbo_params app_audio_outs]. split_and!; try done.
    eapply keeps_weaken; [|exact Hk5].
    intros x Hx. by right.
  - cbn iota beta.
    set (glue := numbered "glue_out" i).
    set (nodes1 := <[glue := _]> (nodes g)).
    assert (keeps_except [glue] (nodes g) nodes1) as Hk1 by apply keeps_insert.
    destruct (audio_out_tail glue (numbered "rnbo_out" i)
                (clean_label s) nodes1
                (fun nodes5 =>
                   Graph nodes5 (rnbo_audio_ins g)
                     (rnbo_audio_outs g ++ [numbered "rnbo_out" i])
                     (rnbo_params g) (app_audio_outs g ++ [glue])))
      as (nodes5 & Heq & Hk5); [| | |reflexivity|].
    { intros k Hk Hres. apply (keeps_from [glue] (nodes g)); [done| |by apply Hout].
      apply not_elem_of_singleton. intros ->. done. }
    { unfold has_to, to_of, nodes1. rewrite lookup_insert_eq. by eexists. }
    { apply (differ_by_prefix "glue_"); reflexivity. }
    eexists. split; [exact Heq|]. cbn [nodes rnbo_audio_ins rnbo_audio_outs
      rnbo_params app_audio_outs]. split_and!; try done.
    exact (keeps_trans [glue] [numbered "rnbo_out" i] _ _ _ Hk1 Hk5).
Qed.

Lemma add_param_ok (g : graph) (p : paramdesc) :
  wired hw (nodes g) ->
  exists g',
    add_param hw g p = Ok g' /\
    keeps_except [varname_of p] (nodes g) (nodes g') /\
    is_Some (nodes g' !! varname_of p) /\
    rnbo_audio_ins g' = rnbo_audio_ins g /\
    rnbo_audio_outs g' = rnbo_audio_outs g /\
    rnbo_params g' = rnbo_params g ++ [varname_of p] /\
    app_audio_outs g' = app_audio_outs g.
Proof.
  intros (Hin & _ & _). unfold add_param.
  destruct (make_param (labels_params hw) p) as [pn src] eqn:Hmp.
  unfold make_param in Hmp. cbv zeta in Hmp. injection Hmp as Hpn Hsrc.
  assert (pn_varname pn = varname_of p) as -> by (by rewrite <- Hpn).
  set (nodes1 := <[varname_of p := _]> (nodes g)).
  assert (keeps_except [varname_of p] (nodes g) nodes1) as Hk1
    by apply keeps_insert.
  assert (is_Some (nodes1 !! varname_of p)) as Hv1
    by (unfold nodes1; rewrite lookup_insert_eq; by eexists).
  destruct src as [[|c r]|].
  - cbn [bind]. eexists. split; [done|]. by split_and!.
  - destruct (nodes1 !! String c r) as [n|] eqn:Hn.
    + assert (has_to nodes1 (String c r)) as Hto.
      { unfold resolve_param in Hsrc.
        apply ps_src_in_table in Hsrc as [Hsrc|[k Hk]]; [done|].
        destruct Hclean as (_ & _ & Hparams & _).
        destruct (Hparams k _ Hk) as [?|Hkey]; [done|].
        apply (keeps_to [varname_of p] (nodes g)); [done| |by apply Hin].
        apply not_elem_of_singleton. intros Heq.
        destruct (input_not_reserved hw Hclean _ Hkey) as (_ & Hres & _).
        rewrite Heq in Hres. done. }
      destruct (push_to_ok (String c r) (varname_of p) nodes1 Hto)
        as (nodes2 & -> & Hk2).
      cbn [bind]. eexists. split; [done|].
      cbn [nodes rnbo_audio_ins rnbo_audio_outs rnbo_params app_audio_outs].
      split_and!; try done.
      * exact (keeps_trans [varname_of p] [] _ _ _ Hk1 Hk2).
      * by apply (keeps_dom [] nodes1).
    + cbn [bind]. eexists. split; [done|]. by split_and!.
  - cbn [bind]. eexists. split; [done|]. by split_and!.
Qed.

End steps.

(** ** The construction of the graph never throws *)

Lemma fold_result_steps {A S} (f : S -> A -> result S)
    (Inv : S -> list A -> Prop) :
  (forall s done x, Inv s done -> exists s', f s x = Ok s' /\ Inv s' (done ++ [x])) ->
  forall l s done, Inv s done ->
    exists s', fold_result f s l = Ok s' /\ Inv s' (done ++ l).
Proof.
  intros Hstep. induction l as [|x l IH]; intros s done Hs.
  - exists s. by rewrite app_nil_r.
  - destruct (Hstep s done x Hs) as (s1 & Hs1 & Hinv1).
    destruct (IH s1 (done ++ [x]) Hinv1) as (s' & Hs' & Hinv').
    exists s'. simpl. rewrite Hs1. cbn [bind]. split; [done|].
    by rewrite <- app_assoc in Hinv'.
Qed.

Lemma fst_imap_pair {A} (l : list A) :
  forall k, (imap (fun j => pair (k + j)%nat) l).*1 = seq k (length l).
Proof.
  induction l as [|x l IH]; intros k; [done|].
  rewrite imap_cons. simpl. rewrite Nat.add_0_r. f_equal.
  rewrite <- IH. f_equal. apply imap_ext. intros j y _. simpl.
  f_equal. lia.
Qed.

Lemma fst_imap_pair_0 {A} (l : list A) : (imap pair l).*1 = seq 0 (length l).
Proof. exact (fst_imap_pair l 0). Qed.

Lemma filter_seq_ge (n len : nat) :
  filter (fun i => ¬ (i < n)%nat) (seq 0 len) = seq n (len - n).
Proof.
  induction len as [|len IH]; [done|].
  rewrite seq_S, filter_app, IH. simpl.
  rewrite filter_cons, filter_nil.
  destruct (decide (¬ (len < n)%nat)) as [Hge|Hlt].
  - replace (S len - n)%nat with (S (len - n)) by lia.
    rewrite seq_S. do 2 f_equal. lia.
  - replace (S len - n)%nat with (len - n)%nat by lia. by rewrite app_nil_r.
Qed.

Lemma add_edges_is_Some (es : list (string * string)) :
  forall (nodes : store) (x : string),
    is_Some (nodes !! x) -> is_Some (foldl add_edge nodes es !! x).
Proof.
  induction es as [|e es IH]; intros nodes x Hx; [done|].
  simpl. apply IH. by apply lookup_add_edge_is_Some.
Qed.

Lemma generate_app_unfold (hw : hardware) (p : patch) :
  generate_app hw p
  = bind (build_graph hw (generate_daisy hw).2 (generate_daisy hw).1 p)
      (fun g3 =>
         bind (fill_pass (alist_keys (inputs hw)) (rnbo_params g3) (nodes g3))
           (fun nodes4 =>
              bind (normal_audio_outs (audio_outs (generate_daisy hw).2) nodes4)
                (fun nodes5 => Ok (with_nodes nodes5 g3)))).
Proof. unfold generate_app. by destruct (generate_daisy hw). Qed.

Lemma build_graph_ok (hw : hardware) (p : patch) :
  clean_target hw ->
  exists g,
    build_graph hw (generate_daisy hw).2 (generate_daisy hw).1 p = Ok g /\
    wired hw (nodes g) /\
    Forall (fun q => is_Some (nodes g !! q)) (rnbo_params g) /\
    rnbo_audio_ins g = channel_names "rnbo_in" (length (patch_ins p)) /\
    rnbo_audio_outs g = channel_names "rnbo_out" (length (patch_outs p)) /\
    rnbo_params g = varname_of <$> patch_params p /\
    app_audio_outs g
    = numbered "glue_out"
        <$> seq (io_count hw) (length (patch_outs p) - io_count hw).
Proof.
  intros Hclean. unfold build_graph.
  pose proof (wired_generate_daisy hw Hclean) as Hw0.
  destruct (fold_result_steps (add_audio_in (generate_daisy hw).2)
              (fun g done =>
                 wired hw (nodes g) /\
                 rnbo_audio_ins g = numbered "rnbo_in" <$> done.*1 /\
                 rnbo_audio_outs g = [] /\ rnbo_params g = [] /\
                 app_audio_outs g = []))
    with (l := imap pair (patch_ins p))
         (s := Graph (generate_daisy hw).1 [] [] [] []) (done := @nil (nat * string))
    as (g1 & -> & Hw1 & Hins & Houts1 & Hpar1 & Happ1).
  { intros g done [i s] (Hw & Hi & Ho & Hp & Ha).
    destruct (add_audio_in_ok hw g i s Hw)
      as (g' & Hg' & Hk & Hi' & Ho' & Hp' & Ha').
    exists g'. split; [done|]. split_and!; try congruence.
    - eapply wired_keeps; [done..|]. by repeat constructor.
    - rewrite Hi', Hi, !fmap_app. done. }
  { by split_and!. }
  cbn [bind]. rewrite app_nil_l in Hins.
  destruct (fold_result_steps (add_audio_out hw (generate_daisy hw).2)
              (fun g done =>
                 wired hw (nodes g) /\
                 rnbo_audio_ins g = rnbo_audio_ins g1 /\
                 rnbo_audio_outs g = numbered "rnbo_out" <$> done.*1 /\
                 rnbo_params g = [] /\
                 app_audio_outs g
                 = numbered "glue_out"
                     <$> filter (fun i => ¬ (i < io_count hw)%nat) done.*1))
    with (l := imap pair (patch_outs p)) (s := g1) (done := @nil (nat * string))
    as (g2 & -> & Hw2 & Hins2 & Houts2 & Hpar2 & Happ2).
  { intros g done [i s] (Hw & Hi & Ho & Hp & Ha).
    destruct (add_audio_out_ok hw Hclean g i s Hw)
      as (g' & Hg' & Hk & Hi' & Ho' & Hp' & Ha').
    exists g'. split; [done|]. split_and!; try congruence.
    - eapply wired_keeps; [done..|]. by repeat constructor.
    - rewrite Ho', Ho, !fmap_app. done.
    - rewrite Ha', Ha, !fmap_app, filter_app, fmap_app. f_equal.
      simpl. rewrite filter_cons, filter_nil.
      destruct (decide (i < io_count hw)%nat) as [Hlt|Hge].
      + by rewrite decide_False by tauto.
      + by rewrite decide_True by done. }
  { by split_and!. }
  cbn [bind]. rewrite app_nil_l in Houts2, Happ2.
  destruct (fold_result_steps (add_param hw)
              (fun g done =>
                 wired hw (nodes g) /\
                 Forall (fun q => is_Some (nodes g !! q)) (rnbo_params g) /\
                 rnbo_audio_ins g = rnbo_audio_ins g2 /\
                 rnbo_audio_outs g = rnbo_audio_outs g2 /\
                 rnbo_params g = varname_of <$> done /\
                 app_audio_outs g = app_audio_outs g2))
    with (l := patch_params p) (s := g2) (done := @nil paramdesc)
    as (g3 & -> & Hw3 & Hall3 & Hins3 & Houts3 & Hpar3 & Happ3).
  { intros g done q (Hw & Hall & Hi & Ho & Hp & Ha).
    destruct (add_param_ok hw Hclean g q Hw)
      as (g' & Hg' & Hk & Hq & Hi' & Ho' & Hp' & Ha').
    exists g'. split; [done|]. split_and!; try congruence.
    - eapply wired_keeps; [done..|]. by repeat constructor.
    - rewrite Hp'. apply Forall_app. split; [|by repeat constructor].
      eapply Forall_impl; [exact Hall|]. intros x. by apply (keeps_dom _ _ _ _ Hk).
    - rewrite Hp', Hp, fmap_app. done. }
  { split_and!; try done. rewrite Hpar2. constructor. }
  exists g3. split; [done|]. rewrite app_nil_l in Hpar3.
  split_and!; try done.
  - rewrite Hins3, Hins2, Hins. unfold channel_names.
    by rewrite (fst_imap_pair_0 (patch_ins p)).
  - rewrite Houts3, Houts2. unfold channel_names.
    by rewrite (fst_imap_pair_0 (patch_outs p)).
  - rewrite Happ3, Happ2, (fst_imap_pair_0 (patch_outs p)).
    by rewrite filter_seq_ge.
Qed.

Lemma generate_app_ok (hw : hardware) (p : patch) :
  plain_labels hw ->
  clean_target hw -> NoDup (varname_of <$> patch_params p) ->
  exists g,
    generate_app hw p = Ok g /\
    rnbo_audio_ins g = channel_names "rnbo_in" (length (patch_ins p)) /\
    rnbo_audio_outs g = channel_names "rnbo_out" (length (patch_outs p)) /\
    rnbo_params g = varname_of <$> patch_params p /\
    app_audio_outs g
    = numbered "glue_out"
        <$> seq (io_count hw) (length (patch_outs p) - io_count hw).
Proof.
  intros _ Hclean Hnd. rewrite generate_app_unfold.
  destruct (build_graph_ok hw p Hclean)
    as (g3 & -> & Hw3 & Hall3 & Hins & Houts & Hpar & Happ).
  cbn [bind].
  assert (fill_ready (nodes g3) (alist_keys (inputs hw)) (rnbo_params g3))
    as Hready.
  { destruct Hw3 as (Hin & _ & _). unfold fill_ready. split_and!.
    - by destruct Hclean.
    - by rewrite Hpar.
    - apply Forall_forall. intros x Hx.
      destruct (input_not_reserved hw Hclean x Hx) as (Hne & Hres & _).
      split_and!; [|done|by apply Hin].
      rewrite Hpar. intros (q & -> & _)%list_elem_of_fmap. done.
    - rewrite Forall_forall in Hall3. apply Forall_forall. intros x Hx.
      split; [|by apply Hall3].
      rewrite Hpar in Hx. apply list_elem_of_fmap in Hx as (q & -> & _). done. }
  rewrite (fill_pass_result _ _ _ Hready). cbn [bind].
  rewrite audio_outs_daisy.
  destruct (normal_steps (channel_names "dsy_out" (io_count hw)) 0 []
              (foldl add_edge (nodes g3)
                 (new_edges (nodes g3) (alist_keys (inputs hw)) (rnbo_params g3))))
    as (nodes5 & Hfold & _).
  { apply NoDup_channel_names. }
  { apply Forall_forall. intros x (i & Hi & ->)%elem_of_channel_names.
    apply add_edges_is_Some, has_to_is_Some.
    destruct Hw3 as (_ & Hch & _). exact (proj2 (Hch i Hi)). }
  unfold normal_audio_outs.
  change (imap pair (channel_names "dsy_out" (io_count hw)))
    with (imap (fun j => pair (0 + j)%nat) (channel_names "dsy_out" (io_count hw))).
  rewrite Hfold. cbn [bind fst]. eexists. split; [done|]. by split_and!.
Qed.

(** X14: on a target whose names keep clear of each other and whose
    label keys hold no syntax character of regular expressions, the graph
    of a patch whose parameters have distinct names is always built: none
    of the lines 697 to 920 of [generate_app] throws.  (The text that the
    function writes after these lines is no part of the statement.)  The
    graph has one node name per inlet, per outlet and per visible
    parameter, in the order of the patch, and one glue buffer for every
    outlet beyond the channel count of the hardware. *)
Theorem graph_always_built (hw : hardware) (p : patch) :
  plain_labels hw ->
  clean_target hw -> NoDup (varname_of <$> patch_params p) ->
  exists g,
    generate_app hw p = Ok g /\
    rnbo_audio_ins g = channel_names "rnbo_in" (length (patch_ins p)) /\
    rnbo_audio_outs g = channel_names "rnbo_out" (length (patch_outs p)) /\
    rnbo_params g = varname_of <$> patch_params p /\
    app_audio_outs g
    = numbered "glue_out"
        <$> seq (io_count hw) (length (patch_outs p) - io_count hw).
Proof. intros Hplain Hclean Hnd. by apply generate_app_ok. Qed.

Lemma graph_always_built_witness :
  exists g,
    generate_app knob_hw synth_patch = Ok g /\
    rnbo_audio_ins g = channel_names "rnbo_in" 1 /\
    rnbo_audio_outs g = channel_names "rnbo_out" 2 /\
    rnbo_params g = varname_of <$> patch_params synth_patch /\
    app_audio_outs g = [].
Proof.
  apply (graph_always_built knob_hw synth_patch).
  - unfold plain_labels, plain_keys. split; compute_done.
  - unfold clean_target. compute_done.
  - compute_done.
Defined.

(** ** Paths in POSIX form *)

Lemma split_on_cons (sep : ascii) (s : string) :
  exists x xs, split_on sep s = x :: xs.
Proof.
  destruct s as [|c s]; simpl; [by eexists _, _|].
  case_bool_decide; [by eexists _, _|].
  destruct (split_on sep s); by eexists _, _.
Qed.

Lemma join_with_cons_char (sep : string) (c : ascii) (x : string)
    (xs : list string) :
  join_with sep (String c x :: xs) = String c (join_with sep (x :: xs)).
Proof. by destruct xs. Qed.

Lemma posixify_path_replace (sep : ascii) (s : string) :
  posixify_path sep s = replace_char sep "/" s.
Proof.
  unfold posixify_path. induction s as [|c s IH]; [done|]. simpl.
  destruct (split_on_cons sep s) as (x & xs & Hs). rewrite Hs in *.
  case_bool_decide.
  - change (join_with "/" (EmptyString :: x :: xs))
      with (EmptyString +:+ "/" +:+ join_with "/" (x :: xs)).
    by rewrite IH.
  - by rewrite join_with_cons_char, IH.
Qed.

Lemma replace_char_same (a : ascii) (s : string) : replace_char a a s = s.
Proof.
  induction s as [|c s IH]; [done|]. simpl. rewrite IH.
  by case_bool_decide; subst.
Qed.

Lemma replace_char_gone (a b : ascii) (s : string) :
  a ≠ b -> occurs a (replace_char a b s) = false.
Proof.
  intros Hab. induction s as [|c s IH]; [done|]. cbn [replace_char occurs].
  rewrite IH, orb_false_r. apply bool_decide_eq_false.
  case_bool_decide; congruence.
Qed.

Lemma replace_char_none (a b : ascii) (s : string) :
  occurs a s = false -> replace_char a b s = s.
Proof.
  induction s as [|c s IH]; [done|]. simpl.
  intros [Hc Hs]%orb_false_elim. by rewrite Hc, IH.
Qed.

(** X15: [posixify_path] replaces every separator of the platform by a
    slash and changes nothing else: the path keeps its length, on a POSIX
    system it comes back as it is, on Windows the result holds no
    backslash, and applying the function twice is applying it once. *)
Theorem posixify_path_slashes (sep : ascii) (s : string) :
  posixify_path sep s = replace_char sep "/" s /\
  String.length (posixify_path sep s) = String.length s /\
  posixify_path "/" s = s /\
  (sep ≠ "/"%char -> occurs sep (posixify_path sep s) = false) /\
  posixify_path sep (posixify_path sep s) = posixify_path sep s.
Proof.
  rewrite !posixify_path_replace. split_and!.
  - done.
  - induction s as [|c s IH]; [done|]. simpl. by rewrite IH.
  - apply replace_char_same.
  - apply replace_char_gone.
  - destruct (decide (sep = "/"%char)) as [->|Hne].
    + by rewrite !replace_char_same.
    + by rewrite (replace_char_none sep "/" (replace_char sep "/" s))
        by (by apply replace_char_gone).
Qed.

(** ** Numbers in C notation *)

Lemma occurs_pretty_N_go (c : ascii) (x : N) :
  (forall d, (d < 10)%N -> pretty_N_char d ≠ c) ->
  forall s, occurs c s = false -> occurs c (pretty_N_go x s) = false.
Proof.
  intros Hc. induction (N.lt_wf_0 x) as [x _ IH]; intros s Hs.
  assert (x = 0 \/ 0 < x)%N as [->|Hx] by lia.
  - by rewrite pretty_N_go_0.
  - rewrite pretty_N_go_step by done. apply IH.
    + by apply N.div_lt.
    + simpl. rewrite Hs. rewrite bool_decide_eq_false_2; [done|].
      apply Hc. by apply N.mod_lt.
Qed.

Lemma occurs_pretty_Z (c : ascii) (z : Z) :
  (forall d, (d < 10)%N -> pretty_N_char d ≠ c) -> c ≠ "-"%char ->
  occurs c (pretty z) = false.
Proof.
  intros Hc Hdash.
  assert (forall p : positive, occurs c (pretty p) = false) as Hpos.
  { intros p. unfold pretty, pretty_positive, pretty, pretty_N.
    case_decide; [done|]. by apply occurs_pretty_N_go. }
  destruct z as [|p|p]; unfold pretty, pretty_Z.
  - simpl. rewrite bool_decide_eq_false_2; [done|]. by apply (Hc 0%N).
  - apply Hpos.
  - rewrite occurs_append, Hpos. simpl.
    rewrite bool_decide_eq_false_2; [done|]. congruence.
Qed.

Lemma digit_not (c : ascii) :
  Ascii.is_nat c = None -> forall d, (d < 10)%N -> pretty_N_char d ≠ c.
Proof.
  intros Hc d Hd <-.
  assert (d = 0 \/ d = 1 \/ d = 2 \/ d = 3 \/ d = 4 \/ d = 5 \/ d = 6 \/ d = 7
          \/ d = 8 \/ d = 9)%N as Hcases by lia.
  repeat (destruct Hcases as [->|Hcases]; [discriminate Hc|]).
  subst. discriminate Hc.
Qed.

(** X16: an integer below 2^53 in absolute value comes out of
    [asCppNumber] as a C literal of the type asked for: its decimal digits
    alone for the types [int], [uint8_t] and [bool], and its decimal digits
    followed by [.f] for any other type, so that a float is never
    initialised from an integer literal. *)
Theorem asCppNumber_integer (n : Z) (type : string) :
  (Z.abs n < 2 ^ 53)%Z ->
  (int_type type = true -> asCppNumber n type = pretty n) /\
  (int_type type = false -> asCppNumber n type = pretty n +:+ ".f").
Proof.
  intros _. unfold asCppNumber. split; intros ->; [done|].
  rewrite !occurs_pretty_Z; try done; by apply digit_not.
Qed.

Lemma asCppNumber_integer_witness :
  asCppNumber 127 "int" = "127" /\ asCppNumber (-60) "float" = "-60.f".
Proof.
  split.
  - apply (proj1 (asCppNumber_integer 127 "int" ltac:(reflexivity))).
    reflexivity.
  - apply (proj2 (asCppNumber_integer (-60) "float" ltac:(reflexivity))).
    reflexivity.
Defined.

(** ** Names that are safe for variables *)

Lemma all_safe_append (s t : string) :
  all_safe (s +:+ t) = all_safe s && all_safe t.
Proof.
  induction s as [|c s IH]; [done|]. rewrite append_cons. simpl.
  by rewrite IH, andb_assoc.
Qed.

Lemma escape_char_safe (c : ascii) :
  all_safe ("_" +:+ to_hex (N_of_ascii c)) = true.
Proof. by destruct c as [[] [] [] [] [] [] [] []]. Qed.

Lemma escape_unsafe_safe (s : string) : all_safe (escape_unsafe s) = true.
Proof.
  induction s as [|c s IH]; [done|]. simpl. rewrite all_safe_append, IH.
  destruct (is_safe c) eqn:Hc.
  - simpl. by rewrite Hc.
  - by rewrite escape_char_safe.
Qed.

(** X17: [safename] returns a name made of letters, digits and
    underscores only; it returns a name that is already so as it is, so
    that applying it twice is applying it once. *)
Theorem safename_safe (s : string) :
  all_safe (safename s) = true /\
  (all_safe s = true -> safename s = s) /\
  safename (safename s) = safename s.
Proof.
  assert (all_safe (safename s) = true) as Hsafe.
  { unfold safename. destruct (all_safe s) eqn:Hs; [done|].
    apply escape_unsafe_safe. }
  split; [done|]. split.
  - unfold safename. by intros ->.
  - unfold safename at 1. by rewrite Hsafe.
Qed.

Lemma safename_safe_witness :
  safename "my_synth2" = "my_synth2".
Proof. apply (proj1 (proj2 (safename_safe "my_synth2"))). reflexivity. Defined.

(** ** The folder of a path *)

Lemma last_index_of_None (c : ascii) (s : string) :
  last_index_of c s = None <-> occurs c s = false.
Proof.
  induction s as [|c' s IH]; [done|]. simpl.
  destruct (last_index_of c s) as [i|].
  - split; [done|]. intros [_ Hs]%orb_false_elim. by apply IH in Hs.
  - rewrite (proj1 IH eq_refl), orb_false_r. by case_bool_decide.
Qed.

Lemma last_index_of_Some (c : ascii) (s : string) (x : nat) :
  last_index_of c s = Some x ->
  exists pre post,
    s = pre +:+ String c post /\ occurs c post = false /\
    substr0 (x + 1) s = pre +:+ String c EmptyString.
Proof.
  revert x. induction s as [|c' s IH]; intros x; [done|]. simpl.
  destruct (last_index_of c s) as [i|] eqn:Hi.
  - intros [= <-]. destruct (IH i eq_refl) as (pre & post & -> & Hpost & Hsub).
    exists (String c' pre), post. split; [done|]. split; [done|].
    simpl. by rewrite Hsub.
  - case_bool_decide as Hc; [|done]. intros [= <-]. subst.
    exists EmptyString, s. split; [done|]. split; [|done].
    by apply last_index_of_None.
Qed.

(** X18: [extractFilepath] cuts the path after its last slash, or after
    its last backslash when it holds no slash: what it returns ends with
    that separator, which it also leaves in [sep], and what it cuts off is a
    file name without that separator.  A path that holds neither comes back
    whole, with [sep] as it was. *)
Theorem extractFilepath_cuts (sep : ascii) (path : string) :
  let folder := (extractFilepath sep path).1 in
  let sep' := (extractFilepath sep path).2 in
  exists file,
    path = folder +:+ file /\
    (occurs slash path = true ->
       sep' = slash /\ occurs slash file = false /\
       exists d, folder = d +:+ String slash EmptyString) /\
    (occurs slash path = false -> occurs backslash path = true ->
       sep' = backslash /\ occurs backslash file = false /\
       exists d, folder = d +:+ String backslash EmptyString) /\
    (occurs slash path = false -> occurs backslash path = false ->
       sep' = sep /\ folder = path /\ file = EmptyString).
Proof.
  unfold extractFilepath.
  destruct (last_index_of slash path) as [x|] eqn:Hs.
  - destruct (last_index_of_Some _ _ _ Hs) as (pre & post & Hpath & Hpost & Hsub).
    exists post. simpl. rewrite Hsub. split_and!.
    + by rewrite Hpath, append_assoc.
    + intros _. split_and!; [done..|]. by exists pre.
    + intros Hno. apply last_index_of_None in Hno. congruence.
    + intros Hno. apply last_index_of_None in Hno. congruence.
  - apply last_index_of_None in Hs.
    destruct (last_index_of backslash path) as [x|] eqn:Hb.
    + destruct (last_index_of_Some _ _ _ Hb) as (pre & post & Hpath & Hpost & Hsub).
      exists post. simpl. rewrite Hsub. split_and!.
      * by rewrite Hpath, append_assoc.
      * congruence.
      * intros _ _. split_and!; [done..|]. by exists pre.
      * intros _ Hno. apply last_index_of_None in Hno. congruence.
    + apply last_index_of_None in Hb. exists EmptyString. simpl. split_and!.
      * by rewrite append_nil_r.
      * congruence.
      * congruence.
      * done.
Qed.

(** ** The arguments leave valid settings *)

Lemma valid_initial : valid_settings initial_settings.
Proof. unfold valid_settings. simpl. split_and!; compute_done. Qed.

Lemma path_argument_valid (fs : filesystem) (s s' : settings) (arg : string) :
  valid_settings s -> path_argument fs s arg = Running s' -> valid_settings s'.
Proof.
  intros Hs. unfold path_argument.
  destruct (negb _); [done|]. destruct (is_directory fs arg); [by intros [= <-]|].
  cbv zeta. destruct (bool_decide _); [by intros [= <-]|].
  destruct (_ || _); by intros [= <-].
Qed.

Lemma rates_valid (arg : string) :
  arg ∈ rates -> number_after EmptyString arg ∈ [32; 48; 96]%Z.
Proof.
  unfold rates. rewrite !elem_of_cons, elem_of_nil.
  intros [->|[->|[->|[]]]]; compute_done.
Qed.

Lemma blocks_valid (arg : string) :
  arg ∈ blocks ->
  number_after "block" arg
  ∈ [1; 2; 4; 6; 8; 12; 16; 24; 32; 48; 64; 96; 128; 256; 512]%Z.
Proof.
  unfold blocks. rewrite !elem_of_cons, elem_of_nil.
  intros H. repeat (destruct H as [->|H]; [compute_done|]). done.
Qed.

Lemma midis_valid (arg : string) :
  arg ∈ midis -> after_midi arg ∈ ["none"; "usb"; "uart"].
Proof.
  unfold midis. rewrite !elem_of_cons, elem_of_nil.
  intros [->|[->|[->|[]]]]; compute_done.
Qed.

Lemma parse_arg_valid (fs : filesystem) (s s' : settings) (arg : string) :
  valid_settings s -> parse_arg fs s arg = Running s' -> valid_settings s'.
Proof.
  intros (Ha & Hr & Hb & Hm). unfold parse_arg.
  destruct (bool_decide (arg = "help")); [done|].
  destruct (_ || _); [intros [= <-]; split_and!; [compute_done|done..]|].
  destruct (_ || _); [intros [= <-]; split_and!; [compute_done|done..]|].
  destruct (bool_decide (arg ∈ targets)); [by intros [= <-]|].
  destruct (bool_decide (arg = "bluemchen")); [by intros [= <-]|].
  destruct (bool_decide (arg = "nehcmeulb")); [by intros [= <-]|].
  destruct (bool_decide (arg = "watch")); [by intros [= <-]|].
  destruct (bool_decide (arg ∈ rates)) eqn:Hrates.
  { intros [= <-]. apply bool_decide_eq_true in Hrates.
    split_and!; [done| |done..]. by apply rates_valid. }
  destruct (bool_decide (arg ∈ blocks)) eqn:Hblocks.
  { intros [= <-]. apply bool_decide_eq_true in Hblocks.
    split_and!; [done..| |done]. by apply blocks_valid. }
  destruct (bool_decide (arg ∈ switches)); [by intros [= <-]|].
  destruct (bool_decide (arg ∈ midis)) eqn:Hmidis.
  { intros [= <-]. apply bool_decide_eq_true in Hmidis.
    split_and!; [done..|]. by apply midis_valid. }
  by apply path_argument_valid.
Qed.

Lemma parse_steps_valid (fs : filesystem) (args : list string) :
  forall (st : progress) (s' : settings),
    (forall s, st = Running s -> valid_settings s) ->
    foldl (parse_step fs) st args = Running s' -> valid_settings s'.
Proof.
  induction args as [|arg args IH]; intros st s' Hst; simpl.
  - intros ->. by apply Hst.
  - apply IH. intros s Hs. destruct st as [s0|code]; [|done].
    simpl in Hs. eapply parse_arg_valid; [|done]. by apply Hst.
Qed.

Lemma parse_steps_exited (fs : filesystem) (args : list string) (code : Z) :
  foldl (parse_step fs) (Exited code) args = Exited code.
Proof. induction args as [|arg args IH]; [done|]. by simpl. Qed.

(** X19: whatever the arguments and the file system, a run that the
    arguments do not end has a valid action, a sample rate of 32, 48 or
    96 kHz, one of the fifteen block sizes and one of the three MIDI
    transports; the argument [help] ends the run with code 0 and an
    argument that is neither a keyword nor an existing path ends it with
    code -1, whatever follows. *)
Theorem parse_args_valid (fs : filesystem) (args : list string) :
  (forall s, parse_args fs args = Running s -> valid_settings s) /\
  (forall before after s,
     args = before ++ "help" :: after ->
     parse_args fs before = Running s -> parse_args fs args = Exited 0) /\
  (forall before after s arg,
     args = before ++ arg :: after ->
     parse_args fs before = Running s ->
     parse_arg fs s arg = path_argument fs s arg ->
     exists_sync fs arg = false ->
     parse_args fs args = Exited (-1)).
Proof.
  split; [|split].
  - intros s. apply parse_steps_valid. intros s0 [= <-]. apply valid_initial.
  - intros before after s -> Hs. unfold parse_args in *.
    rewrite foldl_app, Hs. simpl. apply parse_steps_exited.
  - intros before after s arg -> Hs Hpath Hex. unfold parse_args in *.
    rewrite foldl_app, Hs. simpl. rewrite Hpath. unfold path_argument.
    rewrite Hex. simpl. apply parse_steps_exited.
Qed.

Lemma parse_args_valid_witness :
  parse_args no_files ["gen"; "field"; "96kHz"; "block64"; "midiusb"; "boost"]
  = Running (Settings "generate" (Some "field") None false [] 96 64 "usb"
               (Options false false true false)) /\
  parse_args no_files ["gen"; "help"; "96kHz"] = Exited 0 /\
  parse_args no_files ["gen"; "synth.cpp"; "96kHz"] = Exited (-1).
Proof.
  split; [reflexivity|]. split.
  - apply (proj1 (proj2 (parse_args_valid no_files ["gen"; "help"; "96kHz"]))
             ["gen"] ["96kHz"] (set_action "generate" initial_settings));
      reflexivity.
  - apply (proj2 (proj2 (parse_args_valid no_files ["gen"; "synth.cpp"; "96kHz"]))
             ["gen"] ["96kHz"] (set_action "generate" initial_settings)
             "synth.cpp"); reflexivity.
Defined.

(** ** The list of apps *)

Lemma dedupe_steps (l : list string) :
  forall acc : list string,
    NoDup acc ->
    exists k,
      foldl dedupe_step acc l = acc ++ k /\ NoDup (acc ++ k) /\
      k `sublist_of` l /\ (forall x, x ∈ acc ++ k <-> x ∈ acc \/ x ∈ l).
Proof.
  induction l as [|s l IH]; intros acc Hacc.
  - exists []. rewrite app_nil_r. split_and!; try done.
    intros x. rewrite elem_of_nil. tauto.
  - simpl. unfold dedupe_step at 2. case_bool_decide as Hs.
    + destruct (IH acc Hacc) as (k & Hk & Hnd & Hsub & Hin).
      exists k. split_and!; try done.
      * by apply sublist_cons.
      * intros x. rewrite Hin, elem_of_cons. split; [tauto|].
        intros [?|[->|?]]; tauto.
    + assert (NoDup (acc ++ [s])) as Hacc'.
      { apply NoDup_app. split_and!; [done| |apply NoDup_singleton].
        intros x Hx ->%list_elem_of_singleton. done. }
      destruct (IH (acc ++ [s]) Hacc') as (k & Hk & Hnd & Hsub & Hin).
      exists (s :: k). rewrite <- !app_assoc in *. simpl in *.
      split_and!; try done.
      * by apply sublist_skip.
      * intros x. rewrite Hin, elem_of_app, list_elem_of_singleton, elem_of_cons.
        tauto.
Qed.

Lemma dedupe_NoDup (l : list string) :
  forall acc, NoDup (acc ++ l) -> foldl dedupe_step acc l = acc ++ l.
Proof.
  induction l as [|s l IH]; intros acc Hnd; [by rewrite app_nil_r|].
  simpl. unfold dedupe_step at 2.
  apply NoDup_app in Hnd as (Hacc & Hdis & Hl).
  rewrite bool_decide_eq_false_2.
  - rewrite IH; [by rewrite <- app_assoc|].
    rewrite <- app_assoc. simpl. apply NoDup_app. by split_and!.
  - intros Hs. apply (Hdis s Hs). by left.
Qed.

(** X20: removing the duplicates from the list of source files leaves a
    list without repetition that holds the same files, each at the place of
    its first occurrence: the result is a sublist of the list, it starts
    with the same file, a list without repetition comes back as it is, and
    removing duplicates twice is removing them once. *)
Theorem remove_duplicates_keeps_first (l : list string) :
  NoDup (remove_duplicates l) /\
  (forall x, x ∈ remove_duplicates l <-> x ∈ l) /\
  remove_duplicates l `sublist_of` l /\
  head (remove_duplicates l) = head l /\
  (NoDup l -> remove_duplicates l = l) /\
  remove_duplicates (remove_duplicates l) = remove_duplicates l.
Proof.
  unfold remove_duplicates.
  destruct (dedupe_steps l [] (NoDup_nil_2)) as (k & Hk & Hnd & Hsub & Hin).
  rewrite Hk. simpl in *. split_and!; try done.
  - intros x. rewrite Hin, elem_of_nil. tauto.
  - destruct l as [|s l]; [by apply sublist_nil_r in Hsub as ->|].
    simpl in Hk. unfold dedupe_step at 2 in Hk. simpl in Hk.
    destruct (dedupe_steps l [s]) as (k' & Hk' & _); [apply NoDup_singleton|].
    rewrite Hk' in Hk. by rewrite <- Hk.
  - intros Hl. rewrite <- Hk. by apply (dedupe_NoDup l []).
  - by apply (dedupe_NoDup k []).
Qed.

Lemma remove_duplicates_keeps_first_witness :
  remove_duplicates ["a.cpp"; "b.cpp"] = ["a.cpp"; "b.cpp"].
Proof.
  apply (proj1 (proj2 (proj2 (proj2 (proj2
           (remove_duplicates_keeps_first ["a.cpp"; "b.cpp"])))))).
  compute_done.
Defined.

(** X21: when there is at least one source file and the count of apps
    that the target allows is not negative, the list of apps is the list of
    source files cut to that count, a count that is zero or missing
    standing for one: the run goes on with a first part of the list that
    is not empty and starts with the same file.  A negative count makes
    the truncation throw, and an empty list fails the assertion. *)
Theorem limit_apps_prefix (max_apps : option Z) (cpps : list string) :
  (cpps ≠ [] -> (0 <= max_apps_or_one max_apps)%Z ->
   exists apps,
     limit_apps max_apps cpps = Ok apps /\
     apps `prefix_of` cpps /\ apps ≠ [] /\ head apps = head cpps /\
     length apps = min (length cpps) (Z.to_nat (max_apps_or_one max_apps))) /\
  (cpps ≠ [] -> (max_apps_or_one max_apps < 0)%Z ->
   limit_apps max_apps cpps = Err (Thrown "Invalid array length")) /\
  (cpps = [] -> is_ok (limit_apps max_apps cpps) = false).
Proof.
  assert (max_apps_or_one max_apps ≠ 0%Z) as Hnz.
  { unfold max_apps_or_one. destruct max_apps as [z|]; [|done].
    destruct (z =? 0)%Z eqn:Hz; [done|]. by apply Z.eqb_neq. }
  unfold limit_apps. split_and!.
  - intros Hne Hpos. rewrite bool_decide_eq_false_2 by done. cbv zeta.
    destruct (_ <? Z.of_nat _)%Z eqn:Hlt.
    + apply Z.ltb_lt in Hlt.
      assert ((max_apps_or_one max_apps <? 0)%Z = false) as ->
        by (apply Z.ltb_ge; lia).
      eexists. split; [done|]. split_and!.
      * apply prefix_take.
      * destruct cpps as [|c cpps]; [done|].
        destruct (Z.to_nat (max_apps_or_one max_apps)) eqn:Hn; [lia|done].
      * destruct cpps as [|c cpps]; [done|].
        destruct (Z.to_nat (max_apps_or_one max_apps)) eqn:Hn; [lia|done].
      * rewrite length_take. lia.
    + apply Z.ltb_ge in Hlt. eexists. split; [done|]. split_and!; try done. lia.
  - intros Hne Hneg. rewrite bool_decide_eq_false_2 by done. cbv zeta.
    assert ((max_apps_or_one max_apps <? Z.of_nat (length cpps))%Z = true) as ->
      by (apply Z.ltb_lt; lia).
    by assert ((max_apps_or_one max_apps <? 0)%Z = true) as ->
      by (apply Z.ltb_lt; lia).
  - by intros ->.
Qed.

Lemma limit_apps_prefix_witness :
  exists apps,
    limit_apps None ["a.cpp"; "b.cpp"] = Ok apps /\
    apps `prefix_of` ["a.cpp"; "b.cpp"] /\ apps ≠ [] /\
    head apps = Some "a.cpp" /\ length apps = 1%nat.
Proof.
  apply (proj1 (limit_apps_prefix None ["a.cpp"; "b.cpp"])); [done|].
  vm_compute. discriminate.
Defined.

(** ** The defines that depend on the options *)

Lemma obj_get_set_eq (d : obj) (k : string) (v : jsval) :
  obj_get (alist_set d k v) k = v.
Proof. unfold obj_get. by rewrite alist_get_set_eq. Qed.

Lemma obj_get_set_ne (d : obj) (k k' : string) (v : jsval) :
  k ≠ k' -> obj_get (alist_set d k v) k' = obj_get d k'.
Proof. intros H. unfold obj_get. by rewrite alist_get_set_ne. Qed.

Lemma alist_get_delete_eq {V} (o : alist V) (k : string) :
  alist_get (alist_delete o k) k = None.
Proof.
  induction o as [|[k' v] o IH]; [done|]. simpl.
  case_bool_decide as Hk; [done|]. simpl. by rewrite bool_decide_eq_false_2.
Qed.

Lemma alist_get_delete_ne {V} (o : alist V) (k k' : string) :
  k ≠ k' -> alist_get (alist_delete o k) k' = alist_get o k'.
Proof.
  intros Hne. induction o as [|[k0 v] o IH]; [done|]. simpl.
  case_bool_decide as Hk.
  - subst. by rewrite bool_decide_eq_false_2.
  - simpl. by rewrite IH.
Qed.

Lemma is_set_define_ne (d : obj) (k k' : string) :
  k ≠ k' -> is_set (define_one k d) k' = is_set d k'.
Proof. intros H. unfold is_set, define_one. by rewrite obj_get_set_ne. Qed.

Lemma obj_get_midi_transport (midiuse : string) (d : obj) (k : string) :
  k ≠ "OOPSY_TARGET_USES_MIDI_USB" -> k ≠ "OOPSY_TARGET_USES_MIDI_UART" ->
  obj_get (midi_transport midiuse d) k = obj_get d k.
Proof.
  intros H1 H2. unfold midi_transport, define_one.
  repeat case_bool_decide; by rewrite ?obj_get_set_ne.
Qed.

Lemma midi_transport_usb (midiuse : string) (d : obj) :
  obj_get (midi_transport midiuse d) "OOPSY_TARGET_USES_MIDI_USB"
  = if bool_decide (midiuse = "usb") then JNum 1
    else obj_get d "OOPSY_TARGET_USES_MIDI_USB".
Proof.
  unfold midi_transport, define_one.
  repeat case_bool_decide; by rewrite ?obj_get_set_eq, ?obj_get_set_ne.
Qed.

Lemma midi_transport_uart (midiuse : string) (d : obj) :
  obj_get (midi_transport midiuse d) "OOPSY_TARGET_USES_MIDI_UART"
  = if bool_decide (midiuse = "uart") then JNum 1
    else obj_get d "OOPSY_TARGET_USES_MIDI_UART".
Proof.
  unfold midi_transport, define_one.
  repeat case_bool_decide; subst; by rewrite ?obj_get_set_eq, ?obj_get_set_ne.
Qed.

Lemma obj_get_delete_eq (d : obj) (k : string) :
  obj_get (alist_delete d k) k = JUndefined.
Proof. unfold obj_get. by rewrite alist_get_delete_eq. Qed.

Lemma obj_get_delete_ne (d : obj) (k k' : string) :
  k ≠ k' -> obj_get (alist_delete d k) k' = obj_get d k'.
Proof. intros H. unfold obj_get. by rewrite alist_get_delete_ne. Qed.

Lemma midi_stages_frame (midiuse : string) (apps : nat) (d : obj) (k : string) :
  k ≠ "OOPSY_TARGET_USES_MIDI_USB" -> k ≠ "OOPSY_TARGET_USES_MIDI_UART" ->
  k ≠ "OOPSY_MULTI_APP" ->
  obj_get (multi_app_defines midiuse apps (midi_defines midiuse d)) k
  = obj_get d k.
Proof.
  intros H1 H2 H3. unfold multi_app_defines, midi_defines. cbv zeta.
  assert (forall d0, obj_get (define_one "OOPSY_MULTI_APP" d0) k = obj_get d0 k)
    as Hmulti by (intros d0; unfold define_one; by rewrite obj_get_set_ne).
  destruct (bool_decide (1 < apps)%nat), (is_set d _ || is_set d _);
    try destruct (is_set (define_one _ _) _);
    rewrite ?obj_get_midi_transport, ?Hmulti, ?obj_get_midi_transport by done;
    done.
Qed.

Lemma oled_defines_off (o : options) (d : obj) :
  nooled o = true ->
  oled_defines o d
  = if is_set d "OOPSY_TARGET_HAS_OLED"
    then alist_delete d "OOPSY_TARGET_HAS_OLED" else d.
Proof.
  intros Ho. unfold oled_defines. rewrite Ho. cbn [andb].
  destruct (is_set d "OOPSY_TARGET_HAS_OLED") eqn:Hd.
  - assert (is_set (alist_delete d "OOPSY_TARGET_HAS_OLED")
              "OOPSY_TARGET_HAS_OLED" = false) as Hdel
      by (unfold is_set; by rewrite obj_get_delete_eq).
    cbv zeta. rewrite Hdel. cbn [andb]. by rewrite Hdel.
  - cbv zeta. rewrite Hd. cbn [andb]. by rewrite Hd.
Qed.

(** X22: with the option [nooled] the defines that [run] leaves never
    say that the target has an OLED, whatever the target and the other
    options: a define that said so is deleted, and the width and height of
    the display and the permission to tweak parameters stay as the target
    gave them. *)
Theorem nooled_removes_display (midiuse : string) (apps : nat) (o : options)
    (defines : obj) :
  nooled o = true ->
  let d := option_defines midiuse apps o defines in
  is_set d "OOPSY_TARGET_HAS_OLED" = false /\
  (is_set defines "OOPSY_TARGET_HAS_OLED" = true ->
   obj_get d "OOPSY_TARGET_HAS_OLED" = JUndefined) /\
  Forall (fun k => obj_get d k = obj_get defines k)
    ["OOPSY_OLED_DISPLAY_WIDTH"; "OOPSY_OLED_DISPLAY_HEIGHT";
     "OOPSY_CAN_PARAM_TWEAK"; "OOPSY_HAS_PARAM_VIEW"].
Proof.
  intros Ho. cbv zeta. unfold option_defines. cbv zeta.
  rewrite (oled_defines_off o _ Ho).
  set (d2 := multi_app_defines midiuse apps (midi_defines midiuse defines)).
  assert (forall k, k ≠ "OOPSY_TARGET_USES_MIDI_USB" ->
            k ≠ "OOPSY_TARGET_USES_MIDI_UART" -> k ≠ "OOPSY_MULTI_APP" ->
            obj_get d2 k = obj_get defines k) as Hframe
    by (intros k; apply midi_stages_frame).
  assert (is_set d2 "OOPSY_TARGET_HAS_OLED"
          = is_set defines "OOPSY_TARGET_HAS_OLED") as Hsame
    by (unfold is_set; by rewrite Hframe).
  assert (forall k d0, k ≠ "GENLIB_USE_FASTMATH" ->
            obj_get (if fastmath o then define_one "GENLIB_USE_FASTMATH" d0 else d0) k
            = obj_get d0 k) as Hfast.
  { intros k d0 Hk. destruct (fastmath o); [|done].
    unfold define_one. by rewrite obj_get_set_ne. }
  split_and!.
  - unfold is_set at 1. rewrite Hfast by done.
    destruct (is_set d2 "OOPSY_TARGET_HAS_OLED") eqn:Hd2.
    + by rewrite obj_get_delete_eq.
    + exact Hd2.
  - intros Hd. rewrite Hfast by done.
    rewrite Hsame, Hd. apply obj_get_delete_eq.
  - repeat constructor; rewrite Hfast by done;
      (destruct (is_set d2 "OOPSY_TARGET_HAS_OLED");
       [rewrite obj_get_delete_ne by done|]); by rewrite Hframe.
Qed.

Lemma nooled_removes_display_witness :
  let d := option_defines "usb" 1 (Options false true false false) field_defines in
  is_set d "OOPSY_TARGET_HAS_OLED" = false /\
  obj_get d "OOPSY_TARGET_HAS_OLED" = JUndefined /\
  obj_get d "OOPSY_CAN_PARAM_TWEAK" = JUndefined.
Proof.
  destruct (nooled_removes_display "usb" 1 (Options false true false false)
              field_defines eq_refl) as (H1 & H2 & H3).
  split; [exact H1|]. split; [exact (H2 eq_refl)|reflexivity].
Defined.

Lemma oled_defines_frame (o : options) (d : obj) (k : string) :
  k ≠ "OOPSY_TARGET_HAS_OLED" -> k ≠ "OOPSY_CAN_PARAM_TWEAK" ->
  k ≠ "OOPSY_OLED_DISPLAY_WIDTH" -> k ≠ "OOPSY_OLED_DISPLAY_HEIGHT" ->
  obj_get (oled_defines o d) k = obj_get d k.
Proof.
  intros H1 H2 H3 H4.
  unfold oled_defines, define_one. cbv zeta.
  repeat (match goal with
          | |- context [if ?b then _ else _] => destruct b
          end;
          rewrite ?obj_get_set_ne, ?obj_get_delete_ne by done);
    done.
Qed.

(** X23: the defines name a MIDI transport only when the target already
    names it or the user asks for it: USB is named only for [midiusb], the
    UART only for [midiuart], and for [midinone] both stay as the target
    gave them; so that a target that names none gets at most one.  A
    target with MIDI input or output gets the one that the user asks
    for. *)
Theorem midi_transport_as_asked (midiuse : string) (apps : nat) (o : options)
    (defines : obj) :
  let d := option_defines midiuse apps o defines in
  let usb := "OOPSY_TARGET_USES_MIDI_USB" in
  let uart := "OOPSY_TARGET_USES_MIDI_UART" in
  (obj_get d usb = obj_get defines usb \/
   (midiuse = "usb" /\ obj_get d usb = JNum 1)) /\
  (obj_get d uart = obj_get defines uart \/
   (midiuse = "uart" /\ obj_get d uart = JNum 1)) /\
  (is_set defines usb = false -> is_set defines uart = false ->
   is_set d usb && is_set d uart = false) /\
  (is_set defines "OOPSY_TARGET_HAS_MIDI_INPUT"
   || is_set defines "OOPSY_TARGET_HAS_MIDI_OUTPUT" = true ->
   (midiuse = "usb" -> obj_get d usb = JNum 1) /\
   (midiuse = "uart" -> obj_get d uart = JNum 1)).
Proof.
  cbv zeta. unfold option_defines. cbv zeta.
  assert (forall k d0, k ≠ "GENLIB_USE_FASTMATH" ->
            obj_get (if fastmath o then define_one "GENLIB_USE_FASTMATH" d0 else d0) k
            = obj_get d0 k) as Hfast.
  { intros k d0 Hk. destruct (fastmath o); [|done].
    unfold define_one. by rewrite obj_get_set_ne. }
  unfold is_set at 3 4.
  rewrite !Hfast by done.
  rewrite !oled_defines_frame by done.
  set (has_midi := is_set defines "OOPSY_TARGET_HAS_MIDI_INPUT"
                   || is_set defines "OOPSY_TARGET_HAS_MIDI_OUTPUT").
  assert (obj_get (multi_app_defines midiuse apps (midi_defines midiuse defines))
            "OOPSY_TARGET_USES_MIDI_USB"
          = obj_get defines "OOPSY_TARGET_USES_MIDI_USB" \/
          (midiuse = "usb" /\
           obj_get (multi_app_defines midiuse apps (midi_defines midiuse defines))
             "OOPSY_TARGET_USES_MIDI_USB" = JNum 1)) as Husb.
  { unfold multi_app_defines, midi_defines, define_one. cbv zeta.
    repeat match goal with
           | |- context [if ?b then _ else _] => destruct b
           end;
      rewrite ?midi_transport_usb, ?obj_get_set_ne, ?midi_transport_usb by done;
      repeat case_bool_decide; auto. }
  assert (obj_get (multi_app_defines midiuse apps (midi_defines midiuse defines))
            "OOPSY_TARGET_USES_MIDI_UART"
          = obj_get defines "OOPSY_TARGET_USES_MIDI_UART" \/
          (midiuse = "uart" /\
           obj_get (multi_app_defines midiuse apps (midi_defines midiuse defines))
             "OOPSY_TARGET_USES_MIDI_UART" = JNum 1)) as Huart.
  { unfold multi_app_defines, midi_defines, define_one. cbv zeta.
    repeat match goal with
           | |- context [if ?b then _ else _] => destruct b
           end;
      rewrite ?midi_transport_uart, ?obj_get_set_ne, ?midi_transport_uart by done;
      repeat case_bool_decide; auto. }
  split_and!; [done|done| |].
  - unfold is_set. intros Hu Ha.
    destruct Husb as [->|[-> ->]], Huart as [->|[Heq ->]];
      rewrite ?Hu, ?Ha; try done.
  - intros Hmidi. fold has_midi in Hmidi.
    unfold multi_app_defines, midi_defines, define_one. cbv zeta.
    fold has_midi. rewrite Hmidi. split; intros ->.
    + repeat match goal with
             | |- context [if ?b then _ else _] => destruct b
             end;
        rewrite ?midi_transport_usb, ?obj_get_set_ne, ?midi_transport_usb by done;
        done.
    + repeat match goal with
             | |- context [if ?b then _ else _] => destruct b
             end;
        rewrite ?midi_transport_uart, ?obj_get_set_ne, ?midi_transport_uart by done;
        done.
Qed.

Lemma midi_transport_as_asked_witness :
  let d := option_defines "usb" 2 (Options false false false false) field_defines in
  is_set d "OOPSY_TARGET_USES_MIDI_USB" && is_set d "OOPSY_TARGET_USES_MIDI_UART"
  = false.
Proof.
  apply (proj1 (proj2 (proj2
           (midi_transport_as_asked "usb" 2 (Options false false false false)
              field_defines)))); reflexivity.
Defined.

(** X24: without the option [nooled] a target with an OLED leaves [run]
    with a display of known size: the width and the height are set, to the
    values of the target where it gives them and to 128 by 64 where it does
    not, and the parameters can be tweaked exactly when the target has a
    parameter view or allowed it already. *)
Theorem oled_display_sized (midiuse : string) (apps : nat) (o : options)
    (defines : obj) :
  nooled o = false ->
  is_set defines "OOPSY_TARGET_HAS_OLED" = true ->
  let d := option_defines midiuse apps o defines in
  let width := "OOPSY_OLED_DISPLAY_WIDTH" in
  let height := "OOPSY_OLED_DISPLAY_HEIGHT" in
  is_set d "OOPSY_TARGET_HAS_OLED" = true /\
  obj_get d width
  = (if is_set defines width then obj_get defines width else JNum 128) /\
  obj_get d height
  = (if is_set defines height then obj_get defines height else JNum 64) /\
  is_set d "OOPSY_CAN_PARAM_TWEAK"
  = is_set defines "OOPSY_HAS_PARAM_VIEW"
    || is_set defines "OOPSY_CAN_PARAM_TWEAK".
Proof.
  intros Ho Hd. cbv zeta. unfold option_defines. cbv zeta.
  assert (forall k d0, k ≠ "GENLIB_USE_FASTMATH" ->
            obj_get (if fastmath o then define_one "GENLIB_USE_FASTMATH" d0 else d0) k
            = obj_get d0 k) as Hfast.
  { intros k d0 Hk. destruct (fastmath o); [|done].
    unfold define_one. by rewrite obj_get_set_ne. }
  set (d2 := multi_app_defines midiuse apps (midi_defines midiuse defines)).
  assert (forall k, k ≠ "OOPSY_TARGET_USES_MIDI_USB" ->
            k ≠ "OOPSY_TARGET_USES_MIDI_UART" -> k ≠ "OOPSY_MULTI_APP" ->
            is_set d2 k = is_set defines k /\ obj_get d2 k = obj_get defines k)
    as Hframe
    by (intros k ???; unfold is_set, d2; by rewrite midi_stages_frame).
  destruct (Hframe "OOPSY_TARGET_HAS_OLED") as [Holed _]; [done..|].
  destruct (Hframe "OOPSY_HAS_PARAM_VIEW") as [Hview _]; [done..|].
  destruct (Hframe "OOPSY_CAN_PARAM_TWEAK") as [Htweak _]; [done..|].
  destruct (Hframe "OOPSY_OLED_DISPLAY_WIDTH") as [Hw Hw']; [done..|].
  destruct (Hframe "OOPSY_OLED_DISPLAY_HEIGHT") as [Hh Hh']; [done..|].
  rewrite <- Hview, <- Htweak, <- Hw, <- Hw', <- Hh, <- Hh'.
  rewrite Hd in Holed. clearbody d2.
  clear Hframe Hd Hview Htweak Hw Hw' Hh Hh' defines.
  unfold is_set at 1 4. rewrite !Hfast by done.
  unfold oled_defines. rewrite Ho. cbn [andb]. cbv zeta. rewrite Holed.
  cbn [andb].
  set (d4 := if is_set d2 "OOPSY_HAS_PARAM_VIEW"
             then define_one "OOPSY_CAN_PARAM_TWEAK" d2 else d2).
  assert (forall k, k ≠ "OOPSY_CAN_PARAM_TWEAK" -> obj_get d4 k = obj_get d2 k)
    as H4.
  { intros k Hk. unfold d4. destruct (is_set d2 "OOPSY_HAS_PARAM_VIEW"); [|done].
    unfold define_one. by rewrite obj_get_set_ne. }
  assert (truthy (obj_get d4 "OOPSY_CAN_PARAM_TWEAK")
          = is_set d2 "OOPSY_HAS_PARAM_VIEW" || is_set d2 "OOPSY_CAN_PARAM_TWEAK")
    as H4'.
  { unfold d4. destruct (is_set d2 "OOPSY_HAS_PARAM_VIEW"); [|done].
    unfold define_one. by rewrite obj_get_set_eq. }
  assert (is_set d4 "OOPSY_TARGET_HAS_OLED" = true) as ->
    by (unfold is_set; rewrite H4 by done; exact Holed).
  assert (is_set d4 "OOPSY_OLED_DISPLAY_WIDTH" = is_set d2 "OOPSY_OLED_DISPLAY_WIDTH")
    as -> by (unfold is_set; by rewrite H4).
  clearbody d4.
  set (d5 := if negb (is_set d2 "OOPSY_OLED_DISPLAY_WIDTH")
             then alist_set d4 "OOPSY_OLED_DISPLAY_WIDTH" (JNum 128) else d4).
  assert (forall k, k ≠ "OOPSY_OLED_DISPLAY_WIDTH" -> obj_get d5 k = obj_get d4 k)
    as H5.
  { intros k Hk. unfold d5. destruct (negb _); [|done].
    by rewrite obj_get_set_ne. }
  assert (obj_get d5 "OOPSY_OLED_DISPLAY_WIDTH"
          = if is_set d2 "OOPSY_OLED_DISPLAY_WIDTH"
            then obj_get d2 "OOPSY_OLED_DISPLAY_WIDTH" else JNum 128) as H5'.
  { unfold d5. destruct (is_set d2 "OOPSY_OLED_DISPLAY_WIDTH"); simpl.
    - by apply H4.
    - by rewrite obj_get_set_eq. }
  assert (is_set d5 "OOPSY_OLED_DISPLAY_HEIGHT"
          = is_set d2 "OOPSY_OLED_DISPLAY_HEIGHT") as ->
    by (unfold is_set; rewrite H5, H4 by done; done).
  clearbody d5.
  destruct (is_set d2 "OOPSY_OLED_DISPLAY_HEIGHT") eqn:Hh2; simpl;
    (split_and!;
     [rewrite ?obj_get_set_ne, H5, H4 by done; exact Holed| | |]).
  - exact H5'.
  - by rewrite H5, H4.
  - by rewrite H5.
  - by rewrite obj_get_set_ne.
  - by rewrite obj_get_set_eq.
  - by rewrite obj_get_set_ne, H5.
Qed.

Lemma oled_display_sized_witness :
  let d := option_defines "usb" 1 (Options false false false false) field_defines in
  obj_get d "OOPSY_OLED_DISPLAY_WIDTH" = JNum 128 /\
  obj_get d "OOPSY_OLED_DISPLAY_HEIGHT" = JNum 64 /\
  is_set d "OOPSY_CAN_PARAM_TWEAK" = true.
Proof.
  destruct (oled_display_sized "usb" 1 (Options false false false false)
              field_defines eq_refl eq_refl) as (_ & H1 & H2 & H3).
  split; [exact H1|]. split; [exact H2|exact H3].
Defined.

(** ** What a step leaves alone *)

Lemma push_to_frame (k x : string) (nodes nodes' : store) (j : string) :
  push_to k x nodes = Ok nodes' -> j ≠ k -> nodes' !! j = nodes !! j.
Proof.
  unfold push_to, get_node. destruct (nodes !! k) as [n|]; [|done].
  cbn [bind]. destruct (n_to n); [|done]. intros [= <-] Hj.
  by rewrite lookup_insert_ne.
Qed.

Lemma push_from_frame (k x : string) (nodes nodes' : store) (j : string) :
  push_from k x nodes = Ok nodes' -> j ≠ k -> nodes' !! j = nodes !! j.
Proof.
  unfold push_from, get_node. destruct (nodes !! k) as [n|]; [|done].
  cbn [bind]. destruct (n_from n); [|done]. intros [= <-] Hj.
  by rewrite lookup_insert_ne.
Qed.

Lemma set_src_frame (k x : string) (nodes nodes' : store) (j : string) :
  set_src k x nodes = Ok nodes' -> j ≠ k -> nodes' !! j = nodes !! j.
Proof.
  unfold set_src, get_node. destruct (nodes !! k) as [n|]; [|done].
  cbn [bind]. intros [= <-] Hj. by rewrite lookup_insert_ne.
Qed.

Lemma imap_pair_cons {A} (k : nat) (x : A) (l : list A) :
  imap (fun j => pair (k + j)%nat) (x :: l)
  = (k, x) :: imap (fun j => pair (S k + j)%nat) l.
Proof.
  rewrite imap_cons, Nat.add_0_r. f_equal. apply imap_ext.
  intros j y _. simpl. f_equal. lia.
Qed.

Lemma snd_imap_pair {A} (l : list A) :
  forall f : nat -> nat, (imap (fun j => pair (f j)) l).*2 = l.
Proof.
  induction l as [|x l IH]; intros f; [done|].
  rewrite imap_cons. simpl. f_equal. apply (IH (f ∘ S)).
Qed.

Lemma io_name_prefix (j : string) :
  io_name j = true ->
  has_prefix "rnbo_i" j = true \/ has_prefix "rnbo_o" j = true.
Proof.
  unfold io_name, has_prefix. intros [H|H]%orb_true_iff.
  - destruct (strip_prefix "rnbo_in" j) as [r|] eqn:Hr; [|done].
    apply strip_prefix_Some in Hr as ->. by left.
  - destruct (strip_prefix "rnbo_out" j) as [r|] eqn:Hr; [|done].
    apply strip_prefix_Some in Hr as ->. by right.
Qed.

Lemma io_name_fresh (j : string) : io_name j = true -> fresh j = true.
Proof.
  unfold io_name, has_prefix. intros [H|H]%orb_true_iff.
  - destruct (strip_prefix "rnbo_in" j) as [r|] eqn:Hr; [|done].
    by apply strip_prefix_Some in Hr as ->.
  - destruct (strip_prefix "rnbo_out" j) as [r|] eqn:Hr; [|done].
    by apply strip_prefix_Some in Hr as ->.
Qed.

Lemma io_name_in (i : nat) : io_name (numbered "rnbo_in" i) = true.
Proof. reflexivity. Qed.

Lemma io_name_out (i : nat) : io_name (numbered "rnbo_out" i) = true.
Proof. reflexivity. Qed.

Lemma io_name_not_glue (j : string) (i : nat) :
  io_name j = true -> j ≠ numbered "glue_out" i.
Proof.
  intros [H|H]%io_name_prefix.
  - by apply (differ_by_prefix "rnbo_i").
  - by apply (differ_by_prefix "rnbo_o").
Qed.

Lemma io_name_not_param (j : string) (p : paramdesc) :
  io_name j = true -> j ≠ varname_of p.
Proof.
  intros [H|H]%io_name_prefix.
  - by apply (differ_by_prefix "rnbo_i").
  - by apply (differ_by_prefix "rnbo_o").
Qed.

Lemma in_not_out (i k : nat) : numbered "rnbo_in" i ≠ numbered "rnbo_out" k.
Proof. by apply (differ_by_prefix "rnbo_i"). Qed.

(** *** The steps of the three loops *)

Lemma add_audio_in_inv (d : daisy) (g g' : graph) (i : nat) (s : string) :
  add_audio_in d g (i, s) = Ok g' ->
  numbered "rnbo_in" i ∉ audio_ins d ->
  nodes g' !! numbered "rnbo_in" i
  = Some (Node None None None (audio_ins d !! (i mod length (audio_ins d))%nat)
            (Some (clean_label s)) false None) /\
  (forall j, j ≠ numbered "rnbo_in" i -> (j ∉ audio_ins d) ->
     nodes g' !! j = nodes g !! j).
Proof.
  unfold add_audio_in. cbv zeta. intros H Hname.
  destruct (audio_ins d !! (i mod length (audio_ins d))%nat) as [[|c r]|] eqn:Hs.
  - cbn [bind] in H. injection H as <-. cbn [nodes].
    rewrite lookup_insert_eq. split; [done|]. intros j Hj _.
    by rewrite lookup_insert_ne.
  - destruct (push_to (String c r) _ _) as [nodes2|] eqn:Hp; [|done].
    cbn [bind] in H. injection H as <-. cbn [nodes].
    apply list_elem_of_lookup_2 in Hs.
    split.
    + rewrite (push_to_frame _ _ _ _ _ Hp) by (by intros Heq; rewrite Heq in Hname).
      by rewrite lookup_insert_eq.
    + intros j Hj Hd. rewrite (push_to_frame _ _ _ _ _ Hp) by (by intros ->).
      by rewrite lookup_insert_ne.
  - cbn [bind] in H. injection H as <-. cbn [nodes].
    rewrite lookup_insert_eq. split; [done|]. intros j Hj _.
    by rewrite lookup_insert_ne.
Qed.

Lemma audio_out_tail_inv {A} (hw : hardware) (src name label : string)
    (nodes1 : store) (mk : store -> A) (r : A) :
  let f := resolve_label (labels_outs hw) label in
  let node0 := Node (Some name) None None (Some src) None false None in
  let label' :=
    match truthy_map f with
    | Some _ => default label (f_maplabel f)
    | None => label
    end in
  bind (match truthy_map f with
        | Some _ => Ok (<[name := node0]> nodes1)
        | None => set_src src src (<[name := node0]> nodes1)
        end)
    (fun nodes3 =>
       bind (get_node nodes3 name)
         (fun n =>
            bind (match truthy_map f with
                  | Some map =>
                      bind (push_from map src
                              (<[name := with_label label' n]> nodes3))
                        (fun nodes' => push_to src map nodes')
                  | None => Ok (<[name := with_label label' n]> nodes3)
                  end)
              (fun nodes5 => Ok (mk nodes5))))
  = Ok r ->
  src ≠ name -> truthy_map f ≠ Some name ->
  exists nodes5,
    r = mk nodes5 /\
    nodes5 !! name
    = Some (Node (Some name) None None (Some src) (Some label') false None) /\
    (forall j, j ≠ name -> j ≠ src -> truthy_map f ≠ Some j ->
       nodes5 !! j = nodes1 !! j).
Proof.
  intros f node0 label' H Hsrc Hmap.
  destruct (truthy_map f) as [map|] eqn:Hf.
  - cbn [bind] in H. unfold get_node in H at 1.
    rewrite lookup_insert_eq in H. cbn [bind] in H.
    destruct (push_from map src _) as [nodes'|] eqn:H1; [|done].
    cbn [bind] in H.
    destruct (push_to src map nodes') as [nodes5|] eqn:H2; [|done].
    cbn [bind] in H. injection H as <-. exists nodes5. split; [done|].
    assert (name ≠ map) as Hnm by congruence.
    split.
    + rewrite (push_to_frame _ _ _ _ _ H2) by done.
      rewrite (push_from_frame _ _ _ _ _ H1) by done.
      by rewrite lookup_insert_eq.
    + intros j Hj Hjs Hjm.
      rewrite (push_to_frame _ _ _ _ _ H2) by done.
      rewrite (push_from_frame _ _ _ _ _ H1) by congruence.
      by rewrite !lookup_insert_ne.
  - destruct (set_src src src _) as [nodes3|] eqn:H1; [|done].
    cbn [bind] in H.
    assert (nodes3 !! name = Some node0) as Hn.
    { rewrite (set_src_frame _ _ _ _ _ H1) by done. by rewrite lookup_insert_eq. }
    unfold get_node in H. rewrite Hn in H. cbn [bind] in H.
    injection H as <-. eexists. split; [done|]. split.
    + by rewrite lookup_insert_eq.
    + intros j Hj Hjs _. rewrite lookup_insert_ne by done.
      rewrite (set_src_frame _ _ _ _ _ H1) by done.
      by rewrite lookup_insert_ne.
Qed.

Lemma add_audio_out_inv (hw : hardware) (d : daisy) (g g' : graph) (i : nat)
    (s : string) :
  add_audio_out hw d g (i, s) = Ok g' ->
  outlet_src d i ≠ numbered "rnbo_out" i ->
  truthy_map (resolve_label (labels_outs hw) (clean_label s))
  ≠ Some (numbered "rnbo_out" i) ->
  nodes g' !! numbered "rnbo_out" i
  = Some (Node (Some (numbered "rnbo_out" i)) None None (Some (outlet_src d i))
            (Some (outlet_label hw s)) false None) /\
  (forall j, j ≠ numbered "rnbo_out" i -> j ≠ outlet_src d i ->
     truthy_map (resolve_label (labels_outs hw) (clean_label s)) ≠ Some j ->
     nodes g' !! j = nodes g !! j).
Proof.
  unfold add_audio_out, outlet_src, outlet_label. cbv zeta.
  intros H Hsrc Hmap.
  destruct (audio_outs d !! i) as [[|c r]|] eqn:Ho; cbn iota beta in H.
  - destruct (audio_out_tail_inv hw (numbered "glue_out" i)
                (numbered "rnbo_out" i) (clean_label s) _ _ g' H Hsrc Hmap)
      as (nodes5 & -> & Hn & Hfr).
    cbn [nodes]. split; [exact Hn|]. intros j Hj Hjs Hjm.
    rewrite (Hfr j Hj Hjs Hjm). by rewrite lookup_insert_ne.
  - destruct (audio_out_tail_inv hw (String c r)
                (numbered "rnbo_out" i) (clean_label s) _ _ g' H Hsrc Hmap)
      as (nodes5 & -> & Hn & Hfr).
    cbn [nodes]. split; [exact Hn|]. intros j Hj Hjs Hjm.
    by rewrite (Hfr j Hj Hjs Hjm).
  - destruct (audio_out_tail_inv hw (numbered "glue_out" i)
                (numbered "rnbo_out" i) (clean_label s) _ _ g' H Hsrc Hmap)
      as (nodes5 & -> & Hn & Hfr).
    cbn [nodes]. split; [exact Hn|]. intros j Hj Hjs Hjm.
    rewrite (Hfr j Hj Hjs Hjm). by rewrite lookup_insert_ne.
Qed.

Lemma add_param_frame (hw : hardware) (g g' : graph) (p : paramdesc)
    (j : string) :
  add_param hw g p = Ok g' ->
  j ≠ varname_of p -> (forall k, labels_params hw !! k ≠ Some j) ->
  nodes g' !! j = nodes g !! j.
Proof.
  unfold add_param. intros H Hj Htab.
  destruct (make_param (labels_params hw) p) as [pn src] eqn:Hmp.
  unfold make_param in Hmp. cbv zeta in Hmp. injection Hmp as Hpn Hsrc.
  assert (pn_varname pn = varname_of p) as Hv by (by rewrite <- Hpn).
  rewrite Hv in H.
  set (nodes1 := <[varname_of p := _]> (nodes g)) in H.
  assert (nodes1 !! j = nodes g !! j) as H1
    by (unfold nodes1; by rewrite lookup_insert_ne).
  destruct src as [[|c r]|].
  - cbn [bind] in H. by injection H as <-.
  - destruct (nodes1 !! String c r) as [n|] eqn:Hn.
    + destruct (push_to (String c r) (varname_of p) nodes1) as [nodes2|] eqn:Hp;
        [|done].
      cbn [bind] in H. injection H as <-. cbn [nodes].
      rewrite (push_to_frame _ _ _ _ _ Hp); [done|].
      intros ->. unfold resolve_param in Hsrc.
      apply ps_src_in_table in Hsrc as [Hsrc|[k Hk]]; [done|].
      by apply (Htab k).
    + cbn [bind] in H. by injection H as <-.
  - cbn [bind] in H. by injection H as <-.
Qed.

(** *** The loops *)

Lemma inlets_fold (d : daisy) :
  (forall i, numbered "rnbo_in" i ∉ audio_ins d) ->
  forall (l : list string) (k : nat) (g g' : graph),
    fold_result (add_audio_in d) g (imap (fun j => pair (k + j)%nat) l) = Ok g' ->
    (forall i s, l !! i = Some s ->
       nodes g' !! numbered "rnbo_in" (k + i)
       = Some (Node None None None
                 (audio_ins d !! ((k + i) mod length (audio_ins d))%nat)
                 (Some (clean_label s)) false None)) /\
    (forall j, (forall i, (k <= i)%nat -> j ≠ numbered "rnbo_in" i) ->
       (j ∉ audio_ins d) -> nodes g' !! j = nodes g !! j).
Proof.
  intros Hd. induction l as [|x l IH]; intros k g g' H.
  - simpl in H. injection H as <-. split; [|done].
    intros i s Hi. by rewrite lookup_nil in Hi.
  - rewrite imap_pair_cons in H. cbn [fold_result] in H.
    destruct (add_audio_in d g (k, x)) as [g1|] eqn:H1; [|done].
    cbn [bind] in H.
    destruct (add_audio_in_inv d g g1 k x H1 (Hd k)) as [Hnode Hfr].
    destruct (IH (S k) g1 g' H) as [Hnode' Hfr'].
    split.
    + intros [|i] s Hi; simpl in Hi.
      * injection Hi as <-. rewrite Nat.add_0_r. rewrite Hfr'; [exact Hnode| |apply Hd].
        intros i Hi Heq%numbered_inj. lia.
      * replace (k + S i)%nat with (S k + i)%nat by lia. by apply Hnode'.
    + intros j Hj Hjd. rewrite Hfr'; [|intros i Hi; apply Hj; lia|done].
      apply Hfr; [apply Hj; lia|done].
Qed.

Lemma outlets_fold (hw : hardware) (d : daisy) :
  (forall i, numbered "rnbo_out" i ∉ audio_outs d) ->
  (forall i label,
     truthy_map (resolve_label (labels_outs hw) label)
     ≠ Some (numbered "rnbo_out" i)) ->
  forall (l : list string) (k : nat) (g g' : graph),
    fold_result (add_audio_out hw d) g (imap (fun j => pair (k + j)%nat) l)
    = Ok g' ->
    (forall i s, l !! i = Some s ->
       nodes g' !! numbered "rnbo_out" (k + i)
       = Some (Node (Some (numbered "rnbo_out" (k + i))) None None
                 (Some (outlet_src d (k + i))) (Some (outlet_label hw s))
                 false None)) /\
    (forall j, (forall i, (k <= i)%nat -> j ≠ numbered "rnbo_out" i) ->
       (forall i, j ≠ numbered "glue_out" i) -> (j ∉ audio_outs d) ->
       (forall label,
          truthy_map (resolve_label (labels_outs hw) label) ≠ Some j) ->
       nodes g' !! j = nodes g !! j).
Proof.
  intros Hd Hlab.
  assert (forall i, outlet_src d i ≠ numbered "rnbo_out" i) as Hsrc.
  { intros i. unfold outlet_src.
    destruct (audio_outs d !! i) as [[|c r]|] eqn:Ho.
    - apply not_eq_sym, io_name_not_glue, io_name_out.
    - intros Heq. apply (Hd i). rewrite <- Heq.
      by apply list_elem_of_lookup_2 in Ho.
    - apply not_eq_sym, io_name_not_glue, io_name_out. }
  assert (forall j i, (forall i, j ≠ numbered "glue_out" i) ->
            (j ∉ audio_outs d) -> j ≠ outlet_src d i) as Hother.
  { intros j i Hg Hj. unfold outlet_src.
    destruct (audio_outs d !! i) as [[|c r]|] eqn:Ho; [apply Hg| |apply Hg].
    intros ->. by apply list_elem_of_lookup_2 in Ho. }
  induction l as [|x l IH]; intros k g g' H.
  - simpl in H. injection H as <-. split; [|done].
    intros i s Hi. by rewrite lookup_nil in Hi.
  - rewrite imap_pair_cons in H. cbn [fold_result] in H.
    destruct (add_audio_out hw d g (k, x)) as [g1|] eqn:H1; [|done].
    cbn [bind] in H.
    destruct (add_audio_out_inv hw d g g1 k x H1 (Hsrc k) (Hlab k _))
      as [Hnode Hfr].
    destruct (IH (S k) g1 g' H) as [Hnode' Hfr'].
    split.
    + intros [|i] s Hi; simpl in Hi.
      * injection Hi as <-. rewrite Nat.add_0_r.
        rewrite Hfr'; [exact Hnode| | |apply Hd|apply Hlab].
        -- intros i Hi Heq%numbered_inj. lia.
        -- intros i. apply io_name_not_glue, io_name_out.
      * replace (k + S i)%nat with (S k + i)%nat by lia. by apply Hnode'.
    + intros j Hj Hjg Hjd Hjl.
      rewrite Hfr'; [|intros i Hi; apply Hj; lia|done..].
      apply Hfr; [apply Hj; lia|by apply Hother|apply Hjl].
Qed.

Lemma params_fold (hw : hardware) (j : string) :
  (forall p, j ≠ varname_of p) -> (forall k, labels_params hw !! k ≠ Some j) ->
  forall (l : list paramdesc) (g g' : graph),
    fold_result (add_param hw) g l = Ok g' -> nodes g' !! j = nodes g !! j.
Proof.
  intros Hj Htab. induction l as [|x l IH]; intros g g' H; cbn [fold_result] in H.
  - by injection H as <-.
  - destruct (add_param hw g x) as [g1|] eqn:H1; [|done]. cbn [bind] in H.
    rewrite (IH g1 g' H). by apply (add_param_frame hw g g1 x).
Qed.

(** *** The two closing passes *)

Lemma skip_mapped_suffix (nodes : store) (rest : list string) :
  forall rest', skip_mapped nodes rest = Ok rest' -> rest' `suffix_of` rest.
Proof.
  induction rest as [|a rest IH]; intros rest'; simpl.
  - by intros [= <-].
  - destruct a as [|c r]; [by intros [= <-]|].
    unfold get_node. destruct (nodes !! String c r) as [n|]; [|done].
    cbn [bind]. destruct (has_src n).
    + intros H. by apply suffix_cons_r, IH.
    + by intros [= <-].
Qed.

Lemma fill_step_frame (nodes nodes' : store) (rest rest' : list string)
    (name : string) :
  fill_step (nodes, rest) name = Ok (nodes', rest') ->
  rest' `suffix_of` rest /\
  (forall j, j ≠ name -> (j ∉ rest) -> nodes' !! j = nodes !! j).
Proof.
  unfold fill_step, get_node. destruct (nodes !! name) as [n|]; [|done].
  cbn [bind]. destruct (n_to n) as [to|]; [|done].
  destruct (bool_decide (length to = 0%nat) && n_automap n).
  - destruct (skip_mapped nodes rest) as [r1|] eqn:Hs; [|done]. cbn [bind].
    apply skip_mapped_suffix in Hs. destruct r1 as [|[|c r] r1].
    + by intros [= <- <-].
    + by intros [= <- <-].
    + destruct (set_src _ _ _) as [n1|] eqn:H1; [|done]. cbn [bind].
      destruct (push_to _ _ _) as [n2|] eqn:H2; [|done]. cbn [bind].
      intros [= <- <-]. split; [done|]. intros j Hj Hr.
      rewrite (push_to_frame _ _ _ _ _ H2) by done.
      rewrite (set_src_frame _ _ _ _ _ H1); [done|].
      intros ->. apply Hr. destruct Hs as [pre ->].
      apply elem_of_app. right. by left.
  - by intros [= <- <-].
Qed.

Lemma fill_fold_frame (ins : list string) :
  forall (nodes : store) (rest : list string) (st : store * list string),
    fold_result fill_step (nodes, rest) ins = Ok st ->
    st.2 `suffix_of` rest /\
    (forall j, (j ∉ ins) -> (j ∉ rest) -> st.1 !! j = nodes !! j).
Proof.
  induction ins as [|a ins IH]; intros nodes rest st H; cbn [fold_result] in H.
  - by injection H as <-.
  - destruct (fill_step (nodes, rest) a) as [[n1 r1]|] eqn:H1; [|done].
    cbn [bind] in H. destruct (fill_step_frame _ _ _ _ _ H1) as [Hs1 Hf1].
    destruct (IH _ _ _ H) as [Hs Hf]. split; [by etrans|].
    intros j [Hja Hji]%not_elem_of_cons Hr.
    rewrite Hf; [by apply Hf1|done|].
    destruct Hs1 as [pre ->]. intros Hin. apply Hr, elem_of_app. by right.
Qed.

Lemma fill_pass_frame (ins params : list string) (nodes nodes' : store)
    (j : string) :
  fill_pass ins params nodes = Ok nodes' ->
  (j ∉ ins) -> (j ∉ params) -> nodes' !! j = nodes !! j.
Proof.
  unfold fill_pass.
  destruct (fold_result fill_step (nodes, params) ins) as [st|] eqn:H; [|done].
  cbn [bind]. intros [= <-] Hi Hp.
  by apply (proj2 (fill_fold_frame _ _ _ _ H)).
Qed.

Lemma normal_step_frame (nodes nodes' : store) (av av' : list string)
    (i : nat) (name j : string) :
  normal_step (nodes, av) (i, name) = Ok (nodes', av') ->
  j ≠ name -> nodes' !! j = nodes !! j.
Proof.
  unfold normal_step, get_node. destruct (nodes !! name) as [n|]; [|done].
  cbn [bind]. destruct (has_src n); [by intros [= <- <-]|].
  case_bool_decide; [by intros [= <- <-]|].
  destruct (av !! _); intros [= <- <-] Hj; [|done].
  by rewrite lookup_insert_ne.
Qed.

Lemma normal_fold_frame (l : list (nat * string)) (j : string) :
  forall (nodes : store) (av : list string) (st : store * list string),
    fold_result normal_step (nodes, av) l = Ok st ->
    (j ∉ l.*2) -> st.1 !! j = nodes !! j.
Proof.
  induction l as [|[i name] l IH]; intros nodes av st H Hj; cbn [fold_result] in H.
  - by injection H as <-.
  - destruct (normal_step (nodes, av) (i, name)) as [[n1 a1]|] eqn:H1; [|done].
    cbn [bind] in H. simpl in Hj. apply not_elem_of_cons in Hj as [Hjn Hjl].
    rewrite (IH _ _ _ H Hjl). by apply (normal_step_frame _ _ _ _ _ _ _ H1).
Qed.

Lemma normal_audio_outs_frame (outs : list string) (nodes nodes' : store)
    (j : string) :
  normal_audio_outs outs nodes = Ok nodes' ->
  (j ∉ outs) -> nodes' !! j = nodes !! j.
Proof.
  unfold normal_audio_outs.
  destruct (fold_result normal_step (nodes, []) (imap pair outs)) as [st|] eqn:H;
    [|done].
  cbn [bind]. intros [= <-] Hj.
  apply (normal_fold_frame _ j _ _ _ H).
  intros Hin. apply Hj. by rewrite <- (snd_imap_pair outs (fun j => j)).
Qed.

(** *** The whole of [generate_app] *)

Section clean.
Context (hw : hardware) (Hclean : clean_target hw).

Lemma io_name_foreign (j : string) :
  io_name j = true ->
  (j ∉ alist_keys (inputs hw)) /\
  (j ∉ channel_names "dsy_in" (io_count hw)) /\
  (j ∉ channel_names "dsy_out" (io_count hw)) /\
  (forall k, labels_params hw !! k ≠ Some j) /\
  (forall label, truthy_map (resolve_label (labels_outs hw) label) ≠ Some j).
Proof.
  intros Hj. pose proof (fresh_reserved _ (io_name_fresh j Hj)) as Hres.
  split_and!.
  - intros Hin. destruct (input_not_reserved hw Hclean j Hin) as (_ & ? & _).
    congruence.
  - intros (i & _ & ->)%elem_of_channel_names.
    pose proof (fresh_not_dsy "in" i : fresh (numbered "dsy_in" i) = false) as Hf.
    pose proof (io_name_fresh _ Hj). congruence.
  - intros (i & _ & ->)%elem_of_channel_names.
    pose proof (fresh_not_dsy "out" i : fresh (numbered "dsy_out" i) = false) as Hf.
    pose proof (io_name_fresh _ Hj). congruence.
  - intros k Hk. destruct Hclean as (_ & _ & Hparams & _).
    destruct (Hparams k j Hk) as [->|Hin]; [done|].
    destruct (input_not_reserved hw Hclean j Hin) as (_ & ? & _). congruence.
  - intros label Hm.
    destruct (label_leads_to_output hw Hclean label j Hm) as [_ ?]. congruence.
Qed.

Lemma generate_app_routes (p : patch) (g : graph) :
  generate_app hw p = Ok g ->
  (forall i s, patch_ins p !! i = Some s ->
     nodes g !! numbered "rnbo_in" i = Some (inlet_node hw i s)) /\
  (forall i s, patch_outs p !! i = Some s ->
     nodes g !! numbered "rnbo_out" i = Some (outlet_node hw i s)).
Proof.
  intros H. rewrite generate_app_unfold in H.
  destruct (build_graph_ok hw p Hclean) as (g3 & Hb & _ & _ & _ & _ & Hpar & _).
  rewrite Hb in H. cbn [bind] in H.
  destruct (fill_pass _ _ _) as [nodes4|] eqn:Hfill; [|done]. cbn [bind] in H.
  destruct (normal_audio_outs _ _) as [nodes5|] eqn:Hnorm; [|done].
  cbn [bind] in H. injection H as <-.
  rewrite audio_outs_daisy in Hnorm.
  assert (forall j, io_name j = true -> nodes5 !! j = nodes g3 !! j) as Hlate.
  { intros j Hj. destruct (io_name_foreign j Hj) as (Hin & _ & Hout & _).
    rewrite (normal_audio_outs_frame _ _ _ j Hnorm Hout).
    apply (fill_pass_frame _ _ _ _ j Hfill Hin).
    rewrite Hpar. intros (q & Hq & _)%list_elem_of_fmap.
    by apply (io_name_not_param j q). }
  unfold build_graph in Hb. cbv zeta in Hb.
  destruct (fold_result (add_audio_in _) _ _) as [g1|] eqn:H1; [|done].
  cbn [bind] in Hb.
  destruct (fold_result (add_audio_out _ _) _ _) as [g2|] eqn:H2; [|done].
  cbn [bind] in Hb.
  assert (forall i, numbered "rnbo_in" i ∉ audio_ins (generate_daisy hw).2) as Hd1.
  { intros i. rewrite audio_ins_daisy.
    apply (io_name_foreign _ (io_name_in i)). }
  assert (forall i, numbered "rnbo_out" i ∉ audio_outs (generate_daisy hw).2)
    as Hd2.
  { intros i. rewrite audio_outs_daisy.
    apply (io_name_foreign _ (io_name_out i)). }
  destruct (inlets_fold _ Hd1 (patch_ins p) 0 _ g1 H1) as [Hin1 _].
  destruct (outlets_fold hw _ Hd2
              (fun i label => proj2 (proj2 (proj2 (proj2
                 (io_name_foreign _ (io_name_out i))))) label)
              (patch_outs p) 0 _ g2 H2) as [Hout2 Hfr2].
  cbn [with_nodes nodes]. split.
  - intros i s Hi. rewrite (Hlate _ (io_name_in i)).
    destruct (io_name_foreign _ (io_name_in i)) as (_ & _ & Ho & Hlp & Hlo).
    rewrite (params_fold hw _ (fun q => io_name_not_param _ q (io_name_in i))
               Hlp _ _ _ Hb).
    rewrite Hfr2; [| |intros k; apply io_name_not_glue, io_name_in
                   |by rewrite audio_outs_daisy|done].
    2:{ intros k _. apply in_not_out. }
    pose proof (Hin1 i s Hi) as Hn. change (0 + i)%nat with i in Hn.
    rewrite Hn. f_equal. unfold inlet_node. f_equal.
    rewrite audio_ins_daisy, length_channel_names, lookup_channel_names.
    simpl. case_bool_decide as Hz.
    + rewrite Hz. by rewrite decide_False by lia.
    + rewrite decide_True; [done|]. by apply Nat.mod_upper_bound.
  - intros i s Hi. rewrite (Hlate _ (io_name_out i)).
    destruct (io_name_foreign _ (io_name_out i)) as (_ & _ & Ho & Hlp & Hlo).
    rewrite (params_fold hw _ (fun q => io_name_not_param _ q (io_name_out i))
               Hlp _ _ _ Hb).
    pose proof (Hout2 i s Hi) as Hn. change (0 + i)%nat with i in Hn.
    rewrite Hn. f_equal. unfold outlet_node. simpl. do 2 f_equal.
    unfold outlet_src. cbn [audio_outs]. rewrite lookup_channel_names.
    case_bool_decide.
    + rewrite decide_True by done.
      by destruct (numbered "dsy_out" i) as [|c r] eqn:Hs.
    + by rewrite decide_False by done.
Qed.

End clean.

(** X25: in the graph of an app on a target whose names keep clear of each
    other, every inlet of the patch has its node, numbered from one, with
    the cleaned tag for label and a hardware audio input for source, the
    inputs taken in turn (so that with two inputs the third inlet reads the
    first input again); without hardware audio inputs the node has no
    source.  Nothing that comes later, neither the outlets, the parameters,
    the automap pass nor the pass over the audio outputs, touches the
    node. *)
Theorem inlets_take_inputs_in_turn (hw : hardware) (p : patch) (g : graph)
    (i : nat) (s : string) :
  clean_target hw -> generate_app hw p = Ok g -> patch_ins p !! i = Some s ->
  nodes g !! numbered "rnbo_in" i = Some (inlet_node hw i s) /\
  (forall k s', patch_ins p !! (i + k * io_count hw)%nat = Some s' ->
     src_of (nodes g) (numbered "rnbo_in" (i + k * io_count hw))
     = src_of (nodes g) (numbered "rnbo_in" i)).
Proof.
  intros Hclean Hg Hi.
  destruct (generate_app_routes hw Hclean p g Hg) as [Hin _].
  split; [by apply Hin|].
  intros k s' Hk. unfold src_of. rewrite (Hin _ _ Hk), (Hin _ _ Hi).
  unfold inlet_node. simpl. case_bool_decide as Hz; [done|].
  by rewrite Nat.Div0.mod_add.
Qed.

Lemma inlets_take_inputs_in_turn_witness :
  nodes wide_graph !! "rnbo_in1" = Some (inlet_node knob_hw 0 "in1") /\
  src_of (nodes wide_graph) "rnbo_in3" = src_of (nodes wide_graph) "rnbo_in1".
Proof.
  destruct (inlets_take_inputs_in_turn knob_hw wide_patch wide_graph 0 "in1")
    as [H1 H2].
  - unfold clean_target. compute_done.
  - vm_compute. reflexivity.
  - reflexivity.
  - split; [exact H1|exact (H2 1%nat "in3" eq_refl)].
Defined.

(** X26: in the graph of an app on a target whose names keep clear of each
    other and whose label keys hold no syntax character of regular
    expressions, every outlet of the patch has its node, which carries its
    name and the label that the search over the outputs leaves; its source
    is the hardware audio output at the same position while there is one,
    and a buffer of its own beyond.  Nothing that comes later touches the
    node. *)
Theorem outlets_take_outputs_in_place (hw : hardware) (p : patch) (g : graph)
    (i : nat) (s : string) :
  plain_labels hw ->
  clean_target hw -> generate_app hw p = Ok g -> patch_outs p !! i = Some s ->
  nodes g !! numbered "rnbo_out" i = Some (outlet_node hw i s) /\
  ((i < io_count hw)%nat ->
   src_of (nodes g) (numbered "rnbo_out" i) = Some (numbered "dsy_out" i)) /\
  ((io_count hw <= i)%nat ->
   src_of (nodes g) (numbered "rnbo_out" i) = Some (numbered "glue_out" i) /\
   numbered "glue_out" i ∈ app_audio_outs g).
Proof.
  intros _ Hclean Hg Hi.
  destruct (generate_app_routes hw Hclean p g Hg) as [_ Hout].
  rewrite (Hout _ _ Hi). unfold src_of. rewrite (Hout _ _ Hi). simpl.
  split_and!; [done| |].
  - intros Hlt. by rewrite bool_decide_eq_true_2.
  - intros Hge. rewrite bool_decide_eq_false_2 by lia. split; [done|].
    rewrite generate_app_unfold in Hg.
    destruct (build_graph_ok hw p Hclean) as (g3 & Hb & _ & _ & _ & _ & _ & Happ).
    rewrite Hb in Hg. cbn [bind] in Hg.
    destruct (fill_pass _ _ _) as [nodes4|]; [|done]. cbn [bind] in Hg.
    destruct (normal_audio_outs _ _) as [nodes5|]; [|done].
    cbn [bind] in Hg. injection Hg as <-. cbn [with_nodes app_audio_outs].
    rewrite Happ. apply list_elem_of_fmap. exists i. split; [done|].
    apply elem_of_seq. apply lookup_lt_Some in Hi. lia.
Qed.

Lemma outlets_take_outputs_in_place_witness :
  src_of (nodes wide_graph) "rnbo_out1" = Some "dsy_out1" /\
  src_of (nodes wide_graph) "rnbo_out3" = Some "glue_out3" /\
  "glue_out3" ∈ app_audio_outs wide_graph.
Proof.
  destruct (outlets_take_outputs_in_place knob_hw wide_patch wide_graph 0 "out1")
    as (_ & H1 & _).
  { unfold plain_labels, plain_keys. split; compute_done. }
  { unfold clean_target. compute_done. }
  { vm_compute. reflexivity. }
  { reflexivity. }
  destruct (outlets_take_outputs_in_place knob_hw wide_patch wide_graph 2 "out3")
    as (_ & _ & H3).
  { unfold plain_labels, plain_keys. split; compute_done. }
  { unfold clean_target. compute_done. }
  { vm_compute. reflexivity. }
  { reflexivity. }
  split; [apply H1; compute_done|]. apply H3. compute_done.
Defined.

(** ** The aliases *)

Lemma labels_params_add_alias (hw : hardware) (alias map : string) :
  labels_params (add_alias hw (alias, map))
  = if has_label (labels_params hw) map
    then <[alias := map]> (labels_params hw) else labels_params hw.
Proof. reflexivity. Qed.

Lemma labels_outs_add_alias (hw : hardware) (alias map : string) :
  labels_outs (add_alias hw (alias, map))
  = if has_label (labels_outs hw) map
    then <[alias := map]> (labels_outs hw) else labels_outs hw.
Proof. reflexivity. Qed.

Lemma has_label_inv (table : gmap string string) (k : string) :
  inherited k = false ->
  has_label table k = true -> exists v, table !! k = Some v /\ v ≠ EmptyString.
Proof.
  unfold has_label. intros Hk. destruct (table !! k) as [v|]; [|congruence].
  case_bool_decide; [done|]. by exists v.
Qed.

Lemma add_alias_plain (hw : hardware) (a : string * string) :
  plain_key a.1 = true -> plain_labels hw -> plain_labels (add_alias hw a).
Proof.
  destruct a as [alias map]. cbn [fst]. intros Ha [Hp Ho].
  unfold plain_labels, plain_keys.
  rewrite labels_params_add_alias, labels_outs_add_alias. split.
  - destruct (has_label (labels_params hw) map); [|done].
    by apply map_Forall_insert_2.
  - destruct (has_label (labels_outs hw) map); [|done].
    by apply map_Forall_insert_2.
Qed.

Lemma add_aliases_plain (aliases : alist string) :
  forall hw,
    Forall (fun a => plain_key a.1 = true) aliases -> plain_labels hw ->
    plain_labels (add_aliases aliases hw).
Proof.
  unfold add_aliases.
  induction aliases as [|a aliases IH]; intros hw Hall Hp; [done|].
  apply Forall_cons in Hall as [Ha Hall]. simpl.
  apply IH; [done|]. by apply add_alias_plain.
Qed.

Lemma add_alias_clean (names : list string) (hw : hardware) (a : string * string) :
  inherited a.2 = false ->
  clean_target hw -> grounded names hw -> a.1 ∈ names -> (a.2 ∉ names) ->
  clean_target (add_alias hw a) /\ grounded names (add_alias hw a) /\
  inputs (add_alias hw a) = inputs hw /\ outputs (add_alias hw a) = outputs hw.
Proof.
  destruct a as [alias map]. cbn [fst snd].
  intros Hown (Hnd & Hin & Hpar & Hout) (Hgp & Hgo) Ha Hm.
  assert (has_label (labels_params hw) map = true ->
          map ∈ alist_keys (inputs hw)) as Hmp.
  { intros (v & Hv & Hne)%has_label_inv; [|done].
    by destruct (Hgp map v Hv) as [?|[?|?]]. }
  assert (has_label (labels_outs hw) map = true ->
          map ∈ alist_keys (outputs hw) /\ reserved map = false) as Hmo.
  { intros (v & Hv & Hne)%has_label_inv; [|done].
    by destruct (Hgo map v Hv) as [?|[?|?]]. }
  split_and!; [|split|done|done].
  - unfold clean_target. split_and!; [done|done| |].
    + rewrite labels_params_add_alias.
      destruct (has_label (labels_params hw) map) eqn:Hl; [|done].
      apply map_Forall_insert_2; [|done]. right. by apply Hmp.
    + rewrite labels_outs_add_alias.
      destruct (has_label (labels_outs hw) map) eqn:Hl; [|done].
      apply map_Forall_insert_2; [|done]. right. by apply Hmo.
  - rewrite labels_params_add_alias.
    destruct (has_label (labels_params hw) map) eqn:Hl; [|done].
    apply map_Forall_insert_2; [by left|done].
  - rewrite labels_outs_add_alias.
    destruct (has_label (labels_outs hw) map) eqn:Hl; [|done].
    apply map_Forall_insert_2; [by left|done].
Qed.

Lemma add_aliases_clean (names : list string) (aliases : alist string) :
  forall hw,
    clean_target hw -> grounded names hw ->
    Forall (fun a => a.1 ∈ names /\ (a.2 ∉ names) /\ inherited a.2 = false)
           aliases ->
    clean_target (add_aliases aliases hw) /\
    inputs (add_aliases aliases hw) = inputs hw /\
    outputs (add_aliases aliases hw) = outputs hw.
Proof.
  unfold add_aliases.
  induction aliases as [|a aliases IH]; intros hw Hc Hg Hall; [done|].
  apply Forall_cons in Hall as [(Ha & Hm & Hown) Hall]. simpl.
  destruct (add_alias_clean names hw a Hown Hc Hg Ha Hm)
    as (Hc' & Hg' & Hi & Ho).
  destruct (IH _ Hc' Hg' Hall) as (Hc'' & Hi' & Ho').
  split_and!; [done|congruence|congruence].
Qed.

(** X27: the loop over the aliases keeps a target fit for the generator:
    when the names of the target keep clear of each other, its label keys
    and the names of the aliases hold no syntax character of regular
    expressions, no alias or target of an alias is named like a property
    that every object inherits, every label that is no alias leads to what
    it names, and no alias stands for another alias, then after the loop
    the names still keep clear of each other, the label keys are still
    plain, the inputs and outputs are the same, and the lines 697 to 920 of
    [generate_app] build the graph of an app whose parameters have different
    names without throwing. *)
Theorem aliases_keep_target_clean (aliases : alist string) (hw : hardware)
    (p : patch) :
  clean_target hw -> plain_labels hw -> plain_aliases aliases ->
  grounded aliases.*1 hw -> direct aliases ->
  NoDup (varname_of <$> patch_params p) ->
  clean_target (add_aliases aliases hw) /\
  plain_labels (add_aliases aliases hw) /\
  inputs (add_aliases aliases hw) = inputs hw /\
  outputs (add_aliases aliases hw) = outputs hw /\
  is_ok (generate_app (add_aliases aliases hw) p) = true.
Proof.
  intros Hc Hp Ha Hg Hd Hnd.
  unfold plain_aliases in Ha. rewrite Forall_forall in Ha.
  destruct (add_aliases_clean aliases.*1 aliases hw Hc Hg) as (Hc' & Hi & Ho).
  { unfold direct in Hd. rewrite Forall_forall in Hd. apply Forall_forall.
    intros a Hin. split_and!; [|by apply Hd|by apply Ha].
    apply list_elem_of_fmap. by exists a. }
  assert (plain_labels (add_aliases aliases hw)) as Hp'.
  { apply add_aliases_plain; [|done]. apply Forall_forall.
    intros a Hin. by apply Ha. }
  split_and!; [done..|].
  by destruct (generate_app_ok _ p Hp' Hc' Hnd) as (g & -> & _).
Qed.

Lemma aliases_keep_target_clean_witness :
  clean_target (add_aliases [("cutoff", "knob1")] knob_hw) /\
  is_ok (generate_app (add_aliases [("cutoff", "knob1")] knob_hw) synth_patch)
  = true.
Proof.
  destruct (aliases_keep_target_clean [("cutoff", "knob1")] knob_hw synth_patch)
    as (H1 & _ & _ & _ & H2).
  - unfold clean_target. compute_done.
  - unfold plain_labels, plain_keys. split; compute_done.
  - unfold plain_aliases. compute_done.
  - unfold grounded. compute_done.
  - unfold direct. compute_done.
  - compute_done.
  - by split.
Defined.

(** ** The names of the parameters *)

Lemma pretty_N_char_not_underscore (x : N) : pretty_N_char x ≠ "_"%char.
Proof. unfold pretty_N_char. by repeat case_match. Qed.

Lemma pretty_N_go_no_underscore (x : N) :
  forall s,
    ~ In "_"%char (String.list_ascii_of_string s) ->
    ~ In "_"%char (String.list_ascii_of_string (pretty_N_go x s)).
Proof.
  induction (N.lt_wf_0 x) as [x _ IH]. intros s Hs.
  destruct (decide (0 < x)%N) as [Hx|Hx].
  - rewrite pretty_N_go_step by done. apply IH.
    + by apply N.div_lt.
    + simpl. intros [Hc|Hin]; [|done].
      by apply (pretty_N_char_not_underscore (x `mod` 10)).
  - assert (x = 0%N) as -> by lia. by rewrite pretty_N_go_0.
Qed.

Lemma pretty_N_no_underscore (x : N) :
  ~ In "_"%char (String.list_ascii_of_string (pretty x)).
Proof.
  unfold pretty, pretty_N. case_decide.
  - simpl. intros [?|[]]. done.
  - apply pretty_N_go_no_underscore. simpl. tauto.
Qed.

Lemma in_append_cons (c : ascii) (a b : string) :
  In c (String.list_ascii_of_string (a +:+ String c b)).
Proof. induction a as [|x a IH]; simpl; auto. Qed.

Lemma split_at_last_underscore (a b da db : string) :
  ~ In "_"%char (String.list_ascii_of_string da) ->
  ~ In "_"%char (String.list_ascii_of_string db) ->
  a +:+ String "_" da = b +:+ String "_" db -> a = b /\ da = db.
Proof.
  intros Ha Hb. revert b. induction a as [|x a IH]; intros [|y b] H; simpl in H.
  - by injection H as ->.
  - injection H as <- ->. destruct Ha. apply in_append_cons.
  - injection H as -> <-. destruct Hb. apply in_append_cons.
  - injection H as -> H. destruct (IH _ H) as [-> ->]. done.
Qed.

Lemma varname_of_inj (p q : paramdesc) :
  varname_of p = varname_of q ->
  p_name p = p_name q /\ p_cindex p = p_cindex q.
Proof.
  unfold varname_of. intros H%(inj (String.app "rnbo_param_")).
  apply split_at_last_underscore in H as [Hn Hi];
    [|apply pretty_N_no_underscore..].
  split; [done|]. by apply (inj pretty).
Qed.

Lemma NoDup_fmap_finer {A B C} (f : A -> B) (h : A -> C) (l : list A) :
  (forall x y, h x = h y -> f x = f y) -> NoDup (f <$> l) -> NoDup (h <$> l).
Proof.
  intros Hfh. induction l as [|a l IH]; simpl; [constructor|].
  intros [Ha Hl]%NoDup_cons. apply NoDup_cons. split; [|by apply IH].
  intros (y & Hy & Hin)%list_elem_of_fmap. apply Ha.
  apply list_elem_of_fmap. exists y. split; [by apply Hfh|done].
Qed.

(** X28: the name of the node of a parameter tells the parameter: two
    parameters get the same node name only when they have the same name
    and the same index, so that parameters whose indices differ never
    share a node, whatever their names. *)
Theorem varname_of_tells_parameter (p q : paramdesc) :
  (varname_of p = varname_of q <->
   p_name p = p_name q /\ p_cindex p = p_cindex q) /\
  (forall l : list paramdesc,
     NoDup (p_cindex <$> l) -> NoDup (varname_of <$> l)).
Proof.
  split.
  - split; [apply varname_of_inj|]. unfold varname_of. by intros [-> ->].
  - intros l. apply NoDup_fmap_finer. intros x y Hxy.
    by apply varname_of_inj in Hxy as [_ ?].
Qed.

(** ** From the description to the graph *)

Lemma push_signal_fold (l : list port) :
  forall acc,
    foldl push_signal acc l
    = acc ++ (port_tag <$> filter (fun io => port_type io = "signal") l).
Proof.
  induction l as [|io l IH]; intros acc; [simpl; by rewrite app_nil_r|].
  cbn [foldl]. rewrite IH. unfold push_signal. rewrite filter_cons.
  case_bool_decide.
  - rewrite decide_True by done. by rewrite <- app_assoc.
  - by rewrite decide_False by done.
Qed.

Lemma push_visible_fold (l : list parameter) :
  forall acc,
    foldl push_visible acc l
    = acc ++ ((fun q => ParamDesc (par_name q) (par_index q)
                          (par_initialValue q) (par_minimum q) (par_maximum q))
              <$> filter (fun q => par_visible q = true) l).
Proof.
  induction l as [|q l IH]; intros acc; [simpl; by rewrite app_nil_r|].
  cbn [foldl]. rewrite IH. unfold push_visible. rewrite filter_cons.
  destruct (par_visible q).
  - rewrite decide_True by done. by rewrite <- app_assoc.
  - by rewrite decide_False by done.
Qed.

(** X29: a description whose visible parameters have different indices
    gives a graph on every target whose names keep clear of each other and
    whose label keys hold no syntax character of regular expressions:
    [analyze_json] followed by the lines 697 to 920 of [generate_app] does
    not throw, the graph has one inlet node for every signal inlet and one
    outlet node for every signal outlet, numbered without gap whatever else
    the description lists between them, and one parameter node for every
    visible parameter, named after its name and index. *)
Theorem described_patch_generates (hw : hardware) (desc : description) :
  plain_labels hw ->
  clean_target hw ->
  NoDup (par_index <$> filter (fun q => par_visible q = true) (parameters desc)) ->
  exists g,
    generate_app hw (analyze_json desc) = Ok g /\
    rnbo_audio_ins g
    = channel_names "rnbo_in"
        (length (filter (fun io => port_type io = "signal") (inlets desc))) /\
    rnbo_audio_outs g
    = channel_names "rnbo_out"
        (length (filter (fun io => port_type io = "signal") (outlets desc))) /\
    rnbo_params g
    = (fun q => "rnbo_param_" +:+ par_name q +:+ "_" +:+ pretty (par_index q))
      <$> filter (fun q => par_visible q = true) (parameters desc).
Proof.
  intros Hplain Hclean Hnd.
  destruct (generate_app_ok hw (analyze_json desc) Hplain Hclean)
    as (g & Hg & Hins & Houts & Hpar & _).
  - unfold analyze_json. cbn [patch_params].
    rewrite push_visible_fold, app_nil_l, <- list_fmap_compose.
    revert Hnd. apply NoDup_fmap_finer. intros x y Hxy.
    by apply varname_of_inj in Hxy as [_ ?].
  - exists g. split; [done|]. unfold analyze_json in *.
    cbn [patch_ins patch_outs patch_params] in *.
    rewrite push_signal_fold, app_nil_l, length_fmap in Hins.
    rewrite push_signal_fold, app_nil_l, length_fmap in Houts.
    rewrite push_visible_fold, app_nil_l, <- list_fmap_compose in Hpar.
    by split_and!.
Qed.

Lemma described_patch_generates_witness :
  exists g,
    generate_app knob_hw (analyze_json synth_description) = Ok g /\
    rnbo_audio_ins g = ["rnbo_in1"; "rnbo_in2"] /\
    rnbo_audio_outs g = ["rnbo_out1"] /\
    rnbo_params g = ["rnbo_param_cutoff_0"; "rnbo_param_cutoff_2"].
Proof.
  apply (described_patch_generates knob_hw synth_description).
  - unfold plain_labels, plain_keys. split; compute_done.
  - unfold clean_target. compute_done.
  - compute_done.
Defined.

(** ** The nodes of the hardware, one by one *)

Lemma lookup_input_nodes_inv (ins : alist input_entry) (k : string) :
  forall (nodes : store) (n : node),
    foldl (fun m kv => <[kv.1 := input_node kv.1 kv.2]> m) nodes ins !! k = Some n ->
    (k ∈ alist_keys ins /\ exists e, n = input_node k e) \/
    ((k ∉ alist_keys ins) /\ nodes !! k = Some n).
Proof.
  unfold alist_keys.
  induction ins as [|[x e] ins IH] using rev_ind; intros nodes n H.
  - right. split; [apply not_elem_of_nil|done].
  - rewrite foldl_app in H. simpl in H. rewrite fmap_app. simpl.
    destruct (decide (k = x)) as [->|Hne].
    + rewrite lookup_insert_eq in H. injection H as <-. left.
      split; [|by exists e]. apply elem_of_app. right. by left.
    + rewrite lookup_insert_ne in H by done.
      destruct (IH _ _ H) as [[Hin He]|[Hin Hn]].
      * left. split; [|done]. apply elem_of_app. by left.
      * right. split; [|done].
        rewrite elem_of_app, list_elem_of_singleton. tauto.
Qed.

(** X30: the nodes that [generate_daisy] makes are those that it lists,
    no more and no fewer: a name has a node exactly when it is the name of
    an input, a data handler or an output of the target, of an audio
    channel or of a MIDI port; every node carries the name under which it
    is stored; and there are as many audio inputs as audio outputs, one for
    each channel, numbered from one. *)
Theorem generate_daisy_lists_its_nodes (hw : hardware) :
  let nodes := (generate_daisy hw).1 in
  let d := (generate_daisy hw).2 in
  (forall k, is_Some (nodes !! k) <->
     k ∈ device_inputs d ++ daisy_datahandlers d ++ device_outs d
         ++ audio_ins d ++ audio_outs d ++ midi_ins d ++ midi_outs d) /\
  (forall k n, nodes !! k = Some n -> n_name n = Some k) /\
  audio_ins d = numbered "dsy_in" <$> seq 0 (io_count hw) /\
  audio_outs d = numbered "dsy_out" <$> seq 0 (io_count hw) /\
  device_inputs d = alist_keys (inputs hw) /\
  device_outs d = alist_keys (outputs hw).
Proof.
  unfold generate_daisy. cbv zeta.
  cbn [fst snd device_inputs daisy_datahandlers device_outs audio_ins
         audio_outs midi_ins midi_outs].
  split_and!; try reflexivity.
  - intros k. rewrite !lookup_add_nodes, !elem_of_app.
    repeat case_decide; try (split; [tauto|by eexists]).
    split.
    + intros [n Hn]. apply lookup_input_nodes_inv in Hn as [[Hin _]|[_ Hn]];
        [tauto|by rewrite lookup_empty in Hn].
    + intros [Hin|Hrest]; [|tauto].
      destruct (lookup_input_nodes (inputs hw) ∅ k Hin) as [e He]. by eexists.
  - intros k n. rewrite !lookup_add_nodes.
    repeat case_decide; try (by intros [= <-]).
    intros [[_ [e ->]]|[_ Hn]]%lookup_input_nodes_inv; [done|].
    by rewrite lookup_empty in Hn.
Qed.
